(** * cifuzz: sandbox bindings, sanitizer options, build directories,
      corpus counting and the process wrapper

    A shallow embedding of the parts of the cifuzz sources that the
    specification's testable properties talk about, followed by the
    theorems that settle each property against the code.

    Go strings are byte sequences and are modelled as [string] (a list of
    [ascii] bytes); Go [int]/[uint] values are modelled as [Z] with the
    64-bit range written out where it matters; Go maps are [gmap]s whose
    iteration order is an arbitrary permutation of their entries. *)

From Stdlib Require Import ZArith Ascii String DecimalString.
From stdpp Require Import gmap strings list.

Local Open Scope Z_scope.
Set Warnings "-register-all".

(** ** Part I: the embedding *)

(** *** The pieces of Go's [strings], [strconv] and [path/filepath]
      packages that the modelled functions call. Separators are always
      one byte in the sources, so they are [ascii] here. *)
Module GoStrings.

(** [strings.ContainsRune(s, c)] for a one-byte rune. *)
Fixpoint ContainsRune (s : string) (c : ascii) : bool :=
  match s with
  | EmptyString => false
  | String x r => if decide (x = c) then true else ContainsRune r c
  end.

(** [strings.HasPrefix(s, prefix)]. *)
Fixpoint HasPrefix (s prefix : string) {struct prefix} : bool :=
  match prefix, s with
  | EmptyString, _ => true
  | String p ps, String c cs => if decide (c = p) then HasPrefix cs ps else false
  | String _ _, EmptyString => false
  end.

(** [strings.Split(s, sep)]: the substrings between the separators;
    the empty string splits into one empty substring. *)
Fixpoint Split (s : string) (sep : ascii) : list string :=
  match s with
  | EmptyString => [EmptyString]
  | String c r =>
      if decide (c = sep) then EmptyString :: Split r sep
      else match Split r sep with
           | h :: t => String c h :: t
           | [] => [String c EmptyString]
           end
  end.

(** [strings.SplitN(s, sep, n)] for [n >= 0]: at most [n] substrings,
    the last one being the unsplit remainder. *)
Fixpoint SplitN (s : string) (sep : ascii) (n : nat) {struct s} : list string :=
  match n with
  | O => []
  | S O => [s]
  | S (S _ as n') =>
      match s with
      | EmptyString => [EmptyString]
      | String c r =>
          if decide (c = sep) then EmptyString :: SplitN r sep n'
          else match SplitN r sep n with
               | h :: t => String c h :: t
               | [] => [String c EmptyString]
               end
      end
  end.

(** [strings.Join(elems, sep)]. *)
Fixpoint Join (elems : list string) (sep : string) : string :=
  match elems with
  | [] => EmptyString
  | [e] => e
  | e :: rest => e +:+ sep +:+ Join rest sep
  end.

(** [strings.TrimSpace]: the white space of [unicode.IsSpace] is cut
    off at both ends, the string being read as UTF-8. Beyond the six
    ASCII bytes these are U+0085 and U+00A0, which take two bytes, and
    U+1680, U+2000 to U+200A, U+2028, U+2029, U+202F, U+205F and U+3000,
    which take three. Bytes that do not decode are no white space. *)
Definition byteOf (c : ascii) : Z := Z.of_nat (nat_of_ascii c).

Definition isSpace2 (c d : ascii) : bool :=
  (byteOf c =? 194) && ((byteOf d =? 133) || (byteOf d =? 160)).

Definition isSpace3 (c d e : ascii) : bool :=
  (byteOf c =? 225) && (byteOf d =? 154) && (byteOf e =? 128)
  || (byteOf c =? 226) && (byteOf d =? 128)
     && ((128 <=? byteOf e) && (byteOf e <=? 138)
         || (byteOf e =? 168) || (byteOf e =? 169) || (byteOf e =? 175))
  || (byteOf c =? 226) && (byteOf d =? 129) && (byteOf e =? 159)
  || (byteOf c =? 227) && (byteOf d =? 128) && (byteOf e =? 128).

(** A string that is one white-space rune. *)
Definition isSpaceRune (s : string) : bool :=
  match s with
  | String c EmptyString => Ascii.is_space c
  | String c (String d EmptyString) => isSpace2 c d
  | String c (String d (String e EmptyString)) => isSpace3 c d e
  | _ => false
  end.

(** The left end: runes are decoded from the front as long as they are
    white space. *)
Fixpoint TrimLeft (s : string) : string :=
  match s with
  | EmptyString => EmptyString
  | String c r =>
      if Ascii.is_space c then TrimLeft r
      else match r with
           | EmptyString => s
           | String d r1 =>
               if isSpace2 c d then TrimLeft r1
               else match r1 with
                    | EmptyString => s
                    | String e r2 => if isSpace3 c d e then TrimLeft r2 else s
                    end
           end
  end.

(** The right end: runes are decoded from the back as long as they are
    white space. A rune at the end of [String c r] lies in [r] or is
    the whole string, so the end of [r] is trimmed first. *)
Fixpoint TrimRight (s : string) : string :=
  match s with
  | EmptyString => EmptyString
  | String c r =>
      let r' := TrimRight r in
      if isSpaceRune (String c r') then EmptyString else String c r'
  end.

Definition TrimSpace (s : string) : string := TrimRight (TrimLeft s).

(** [strconv.Atoi]: an optional sign and at least one decimal digit;
    anything else, or a value outside the 64-bit [int] range, is an
    error ([None]). *)
Definition digit (c : ascii) : option Z :=
  let n := Z.of_nat (nat_of_ascii c) in
  if (48 <=? n) && (n <=? 57) then Some (n - 48) else None.

Fixpoint digits (acc : Z) (s : string) : option Z :=
  match s with
  | EmptyString => Some acc
  | String c r =>
      match digit c with
      | Some d => digits (10 * acc + d) r
      | None => None
      end
  end.

Definition Atoi (s : string) : option Z :=
  let '(neg, body) :=
    match s with
    | String "-"%char r => (true, r)
    | String "+"%char r => (false, r)
    | _ => (false, s)
    end in
  match body with
  | EmptyString => None
  | _ =>
      match digits 0 body with
      | Some v =>
          let v := if neg : bool then - v else v in
          if (- 2 ^ 63 <=? v) && (v <? 2 ^ 63) then Some v else None
      | None => None
      end
  end.

(** [strconv.Itoa]. *)
Definition Itoa (n : Z) : string := NilZero.string_of_int (Z.to_int n).

End GoStrings.

(** *** Environment lists (package util/envutil) and string helpers
      (package util/stringutil) *)
Module Envutil.
Import GoStrings.

(** [s] without the leading [prefix], when it has it. *)
Fixpoint CutPrefix (s prefix : string) {struct prefix} : option string :=
  match prefix, s with
  | EmptyString, _ => Some s
  | String p ps, String c cs => if decide (c = p) then CutPrefix cs ps else None
  | String _ _, EmptyString => None
  end.

(** Modelled from the spec: [envutil.Getenv] is not among the sources at hand. The
    specification describes the package as composing environment lists
    (slices of [KEY=value] strings, as [exec.Cmd] takes them) with
    insert/override semantics; [Getenv] is the lookup that goes with it:
    the value of the entry for [key], the empty string when there is
    none. *)
Fixpoint Getenv (env : list string) (key : string) : string :=
  match env with
  | [] => ""
  | e :: rest =>
      match CutPrefix e (key +:+ "=") with
      | Some value => value
      | None => Getenv rest key
      end
  end.

(** Modelled from the spec: the insert-or-override step of
    [envutil.Setenv], which is not among the sources at hand: the entry for [key] is
    replaced where it stands, or a new entry is appended. *)
Fixpoint setEntry (env : list string) (key value : string) : list string :=
  match env with
  | [] => [key +:+ "=" +:+ value]
  | e :: rest =>
      if HasPrefix e (key +:+ "=") then (key +:+ "=" +:+ value) :: rest
      else e :: setEntry rest key value
  end.

(** Modelled from the spec: [envutil.Setenv] is not among the sources at hand. It
    composes the environment list with insert/override semantics and,
    like [os.Setenv], refuses ([None]) a key that is empty or contains
    the byte [=]. *)
Definition Setenv (env : list string) (key value : string) : option (list string) :=
  if decide (key = "") then None
  else if ContainsRune key "="%char then None
  else Some (setEntry env key value).

End Envutil.

Module Stringutil.

(** Modelled from the spec: [stringutil.JoinNonEmpty] is not among the sources at hand.
    As its name and its use on option lists say, it joins the non-empty
    elements with the separator. *)
Definition JoinNonEmpty (elems : list string) (sep : string) : string :=
  GoStrings.Join (filter (λ e, e ≠ "") elems) sep.

End Stringutil.

(** *** Sandbox bindings (package minijail) *)
Module Minijail.
Import GoStrings.

(** [type WritableOption int] with [ReadOnly = iota] and [ReadWrite]. *)
Definition WritableOption := Z.
Definition ReadOnly : WritableOption := 0.
Definition ReadWrite : WritableOption := 1.

Record Binding := mkBinding {
  Source : string;
  Target : string;
  Writable : WritableOption;
}.

Inductive error :=
| AtoiError (s : string)
| BadBinding (s : string)
| SetenvError (key : string).

(** The first statement of [Binding.String]: the method has a pointer
    receiver and stores the defaulted target back into the binding. *)
Definition fillTarget (b : Binding) : Binding :=
  if decide (Target b = "") then mkBinding (Source b) (Source b) (Writable b) else b.

(** The method [String] of [Binding] (with an underscore here, [String]
    being the constructor of strings): the string and the receiver as
    the call leaves it. *)
Definition String_ (b : Binding) : string * Binding :=
  let b := fillTarget b in
  let s :=
    if decide (Writable b = ReadWrite) then
      Source b +:+ "," +:+ Target b +:+ ",1"
    else if ContainsRune (Source b) ","%char || ContainsRune (Target b) ","%char then
      Source b +:+ "," +:+ Target b +:+ ",0"
    else if decide (Source b ≠ Target b) then
      Source b +:+ "," +:+ Target b
    else Source b in
  (s, b).

(** [func BindingFromString(s string)]: a binding or an error. *)
Definition BindingFromString (s : string) : Binding + error :=
  match SplitN s ","%char 3 with
  | [t0] => inl (mkBinding t0 t0 0)
  | [t0; t1] => inl (mkBinding t0 t1 0)
  | [t0; t1; t2] =>
      match Atoi t2 with
      | None => inr (AtoiError t2)
      | Some writable => inl (mkBinding t0 t1 writable)
      end
  | _ => inr (BadBinding s)
  end.

Definition BindingsEnvVarName : string := "CIFUZZ_MINIJAIL_" +:+ "BINDINGS".

(** How [AddMinijailBindingToEnv] extends the value of the variable. *)
Definition extendBindings (bindings str : string) : string :=
  if decide (bindings = "") then str else bindings +:+ ":" +:+ str.

(** [AddMinijailBindingToEnv]: the new environment list together with
    the binding as [binding.String()] leaves it, or an error. *)
Definition AddMinijailBindingToEnv (env : list string) (binding : Binding)
    : list string * Binding + error :=
  let bindings := Envutil.Getenv env BindingsEnvVarName in
  let '(str, binding) := String_ binding in
  let bindings := extendBindings bindings str in
  match Envutil.Setenv env BindingsEnvVarName bindings with
  | None => inr (SetenvError BindingsEnvVarName)
  | Some env => inl (env, binding)
  end.

(** Adding a sequence of bindings with [AddMinijailBindingToEnv], one
    call per binding, as the build adapters do. *)
Fixpoint addAll (env : list string) (bindings : list Binding)
    : list string * list Binding + error :=
  match bindings with
  | [] => inl (env, [])
  | b :: rest =>
      match AddMinijailBindingToEnv env b with
      | inr e => inr e
      | inl (env, b) =>
          match addAll env rest with
          | inr e => inr e
          | inl (env, rest) => inl (env, b :: rest)
          end
      end
  end.

(** The loop of [NewMinijail] over
    [strings.Split(additionalBindingsEnv, ":")]: empty fields are
    skipped, the first field that does not parse aborts. *)
Fixpoint additionalBindingsLoop (fields : list string) : list Binding + error :=
  match fields with
  | [] => inl []
  | s :: rest =>
      if decide (s = "") then additionalBindingsLoop rest
      else match BindingFromString s with
           | inr e => inr e
           | inl binding =>
               match additionalBindingsLoop rest with
               | inr e => inr e
               | inl bindings => inl (binding :: bindings)
               end
           end
  end.

Definition additionalBindings (additionalBindingsEnv : string) : list Binding + error :=
  additionalBindingsLoop (Split additionalBindingsEnv ":"%char).

(** What it means for a binding to survive [String] followed by
    [BindingFromString]: parsing succeeds and gives back the source, the
    effective target (the source when the target is empty) and the
    writable option. *)
Definition roundTrips (b : Binding) : Prop :=
  ∃ b', BindingFromString (String_ b).1 = inl b'
        ∧ Source b' = Source b
        ∧ Target b' = (if decide (Target b = "") then Source b else Target b)
        ∧ Writable b' = Writable b.

(** Bindings that [AddMinijailBindingToEnv] can pass on: the [String]
    form is not empty and has no colon, source and target have no comma,
    and the writable option is one of the two declared constants. *)
Definition passable (b : Binding) : bool :=
  bool_decide ((String_ b).1 ≠ "")
  && negb (ContainsRune (String_ b).1 ":"%char)
  && negb (ContainsRune (Source b) ","%char)
  && negb (ContainsRune (Target b) ","%char)
  && bool_decide (Writable b = ReadOnly ∨ Writable b = ReadWrite).

(** What it means for a sequence of bindings to pass through the
    environment variable: adding them one by one succeeds and leaves in
    the variable their [String] forms joined by colons, and the loop of
    [NewMinijail], run in a process that is started with that
    environment, reads back the bindings (as [String] left them, that is
    with the target filled in). *)
Definition passesThroughEnv (env : list string) (bindings : list Binding) : Prop :=
  ∃ env', addAll env bindings = inl (env', fillTarget <$> bindings)
          ∧ Envutil.Getenv env' BindingsEnvVarName
            = Join ((λ b, (String_ b).1) <$> bindings) ":"
          ∧ additionalBindings (Envutil.Getenv env' BindingsEnvVarName)
            = inl (fillTarget <$> bindings).

(** **** The deprecated way of adding a binding *)

(** [getMinijailBinding]; [EvalSymlinks] is the host's
    [filepath.EvalSymlinks]. *)
Definition getMinijailBinding (EvalSymlinks : string → option string)
    (path : string) (writable : WritableOption) : option string :=
  src ← EvalSymlinks path;
  let writableStr := if decide (writable = ReadWrite) then "1" else "0" in
  Some (src +:+ "," +:+ path +:+ "," +:+ writableStr).

(** The environment of the process, as [os.Getenv] and [os.Setenv] see
    it: a variable that is not set reads as the empty string; setting
    fails for an empty key, a key with [=] or a NUL byte, and a value
    with a NUL byte. *)
Definition osGetenv (procEnv : gmap string string) (key : string) : string :=
  default "" (procEnv !! key).

Definition osSetenv (procEnv : gmap string string) (key value : string)
    : option (gmap string string) :=
  if decide (key = "") then None
  else if ContainsRune key "="%char || ContainsRune key "000"%char
          || ContainsRune value "000"%char then None
  else Some (<[key := value]> procEnv).

Definition AddMinijailBindingDeprecated (EvalSymlinks : string → option string)
    (procEnv : gmap string string) (path : string) (writable : WritableOption)
    : option (gmap string string) :=
  binding ← getMinijailBinding EvalSymlinks path writable;
  let bindings := osGetenv procEnv BindingsEnvVarName in
  let bindings :=
    if decide (bindings = "") then binding else bindings +:+ ":" +:+ binding in
  osSetenv procEnv BindingsEnvVarName bindings.

(** One call of [AddMinijailBindingDeprecated] per path, in order. *)
Fixpoint addAllDeprecated (EvalSymlinks : string → option string)
    (procEnv : gmap string string) (paths : list (string * WritableOption))
    : option (gmap string string) :=
  match paths with
  | [] => Some procEnv
  | (path, writable) :: rest =>
      procEnv ← AddMinijailBindingDeprecated EvalSymlinks procEnv path writable;
      addAllDeprecated EvalSymlinks procEnv rest
  end.

(** A path that the deprecated way can hand over: it resolves, and
    neither the path nor what it resolves to contains a comma, a colon
    or a NUL byte. *)
Definition plainPath (s : string) : bool :=
  negb (ContainsRune s ","%char) && negb (ContainsRune s ":"%char)
  && negb (ContainsRune s "000"%char).

Definition resolvesPlainly (EvalSymlinks : string → option string)
    (pw : string * WritableOption) : bool :=
  match EvalSymlinks pw.1 with
  | Some src => plainPath src && plainPath pw.1
  | None => false
  end.

(** The binding that stands for a path added the deprecated way. *)
Definition deprecatedBinding (EvalSymlinks : string → option string)
    (pw : string * WritableOption) : Binding :=
  mkBinding (default "" (EvalSymlinks pw.1)) pw.1
            (if decide (pw.2 = ReadWrite) then ReadWrite else ReadOnly).

End Minijail.

(** *** Sanitizer options (package runner) *)
Module Runner.
Import GoStrings.

Definition SanitizerErrorExitCode : Z := 78.

(** [term.IsTerminal(int(os.Stderr.Fd()))] is an input of the model. *)
Definition sanitizerOptionsColorValue (stderrIsTerminal : bool) : string :=
  if stderrIsTerminal then "always" else "never".

Definition defaultSanitizerOptions (stderrIsTerminal : bool) : gmap string string :=
  {[ "color" := sanitizerOptionsColorValue stderrIsTerminal ]}.

(** A [for key, val := range m] loop visits every entry of the map once,
    in an order that Go leaves unspecified: [ranges m kvs] says that
    [kvs] is one of the possible visiting orders. *)
Definition ranges (m : gmap string string) (kvs : list (string * string)) : Prop :=
  kvs ≡ₚ map_to_list m.

Definition setDefaultIfNotSetAlready (options : list string) (key value : string) : list string :=
  if existsb (λ option, HasPrefix option (key +:+ "=")) options then options
  else options ++ [key +:+ "=" +:+ value].

Fixpoint overrideOption (options : list string) (key value : string) : list string :=
  match options with
  | [] => [key +:+ "=" +:+ value]
  | option :: rest =>
      if HasPrefix option (key +:+ "=") then (key +:+ "=" +:+ value) :: rest
      else option :: overrideOption rest key value
  end.

(** [SetSanitizerOptions]; the maps are given by the orders in which the
    two [range] loops visit them. *)
Definition SetSanitizerOptions (existingOptionsStr : string)
    (defaults overrides : list (string * string)) : string :=
  let options := Split existingOptionsStr ":"%char in
  let options := foldl (λ options kv, setDefaultIfNotSetAlready options kv.1 kv.2) options defaults in
  let options := foldl (λ options kv, overrideOption options kv.1 kv.2) options overrides in
  Stringutil.JoinNonEmpty options ":".

Definition SetASANOptions (env : list string)
    (defaults overrides : list (string * string)) : option (list string) :=
  let options := Envutil.Getenv env "ASAN_OPTIONS" in
  let options := SetSanitizerOptions options defaults overrides in
  Envutil.Setenv env "ASAN_OPTIONS" options.

(** The two maps that [SetCommonASANOptions] builds; the function
    itself, like [SetSanitizerOptions], takes them by their visiting
    orders. *)
Definition commonASANDefaults (stderrIsTerminal : bool) : gmap string string :=
  defaultSanitizerOptions stderrIsTerminal.

Definition commonASANOverrides : gmap string string :=
  {[ "exitcode" := Itoa SanitizerErrorExitCode; "log_path" := "stderr" ]}.

Definition SetCommonASANOptions (env : list string)
    (defaultOptions overrideOptions : list (string * string)) : option (list string) :=
  SetASANOptions env defaultOptions overrideOptions.

(** The two maps that [SetCommonUBSANOptions] builds: [maps.Copy] writes
    the entries of its second argument over the clone of the defaults. *)
Definition commonUBSANDefaults (stderrIsTerminal : bool) : gmap string string :=
  {[ "print_stacktrace" := "1" ]} ∪ defaultSanitizerOptions stderrIsTerminal.

Definition commonUBSANOverrides : gmap string string :=
  {[ "log_path" := "stderr" ]}.

Definition SetCommonUBSANOptions (env : list string)
    (defaultOptions overrideOptions : list (string * string)) : option (list string) :=
  let options := Envutil.Getenv env "UBSAN_OPTIONS" in
  let options := SetSanitizerOptions options defaultOptions overrideOptions in
  Envutil.Setenv env "UBSAN_OPTIONS" options.

(** What an option string sets: its options are the [:]-separated
    fields, and an option [key=value] sets [key] (the bytes before its
    first [=]). *)
Fixpoint optionKey (opt : string) : option string :=
  match opt with
  | EmptyString => None
  | String c r =>
      if decide (c = "="%char) then Some EmptyString
      else String c <$> optionKey r
  end.

Definition optionsOf (optionsStr : string) : list string := Split optionsStr ":"%char.

Definition keysOf (options : list string) : list string := omap optionKey options.

(** An entry of a defaults or overrides map is plain when its key has
    no [=] and no [:] and its value has no [:]. *)
Definition plainEntry (kv : string * string) : bool :=
  negb (ContainsRune kv.1 "="%char) && negb (ContainsRune kv.1 ":"%char)
  && negb (ContainsRune kv.2 ":"%char).

(** The merge that the specification asks of [SetSanitizerOptions], read
    on the options of the result: overrides win, then what the existing
    string sets, then the defaults; no key is set twice. *)
Definition mergesOptions (existing : string) (defaults overrides : gmap string string)
    (result : string) : Prop :=
  (∀ k v, overrides !! k = Some v → (k +:+ "=" +:+ v) ∈ optionsOf result)
  ∧ (∀ opt k, opt ∈ optionsOf existing → optionKey opt = Some k →
              overrides !! k = None → opt ∈ optionsOf result)
  ∧ (∀ k v, defaults !! k = Some v → overrides !! k = None →
            k ∉ keysOf (optionsOf existing) → (k +:+ "=" +:+ v) ∈ optionsOf result)
  ∧ NoDup (keysOf (optionsOf result)).

(** The sanitizer environment after [SetCommonASANOptions] and
    [SetCommonUBSANOptions]. [mandatoryOptions] is what the
    specification asks of both variables. *)
Definition mandatoryOptions (optionsStr : string) : Prop :=
  "exitcode=78" ∈ optionsOf optionsStr ∧ "log_path=stderr" ∈ optionsOf optionsStr.

(** Replace semantics leaves the other options alone: every option of
    [existing] whose key is not among the [overridden] ones is an option
    of [result]. *)
Definition keepsOptions (existing result : string) (overridden : list string) : Prop :=
  ∀ opt k, opt ∈ optionsOf existing → optionKey opt = Some k → k ∉ overridden →
           opt ∈ optionsOf result.

(** Set-if-missing semantics for one default. *)
Definition setsIfMissing (existing result key value : string) : Prop :=
  key ∉ keysOf (optionsOf existing) → (key +:+ "=" +:+ value) ∈ optionsOf result.

(** No key is set twice in [result] unless [existing] already does. *)
Definition setsOnce (existing result : string) : Prop :=
  NoDup (keysOf (optionsOf existing)) → NoDup (keysOf (optionsOf result)).

(** What the two functions do to the two variables, [env] being the
    environment before and [env'] the one after. *)
Definition sanitizerEnv (stderrIsTerminal : bool) (env env' : list string) : Prop :=
  let color := sanitizerOptionsColorValue stderrIsTerminal in
  let asan := Envutil.Getenv env "ASAN_OPTIONS" in
  let ubsan := Envutil.Getenv env "UBSAN_OPTIONS" in
  let asan' := Envutil.Getenv env' "ASAN_OPTIONS" in
  let ubsan' := Envutil.Getenv env' "UBSAN_OPTIONS" in
  mandatoryOptions asan'
  ∧ "log_path=stderr" ∈ optionsOf ubsan'
  ∧ keepsOptions asan asan' ["exitcode"; "log_path"]
  ∧ keepsOptions ubsan ubsan' ["log_path"]
  ∧ setsIfMissing asan asan' "color" color
  ∧ setsIfMissing ubsan ubsan' "color" color
  ∧ setsIfMissing ubsan ubsan' "print_stacktrace" "1"
  ∧ setsOnce asan asan'
  ∧ setsOnce ubsan ubsan'.

(** **** The rest of the environment set-up *)

(** [AddEnvFlags]: every entry must be of the form [KEY=VAL]; the key is
    what stands before the first [=]. *)
Fixpoint AddEnvFlags (env : list string) (envVars : list string) : option (list string) :=
  match envVars with
  | [] => Some env
  | e :: rest =>
      match SplitN e "="%char 2 with
      | key :: val :: _ =>
          env ← Envutil.Setenv env key val;
          AddEnvFlags env rest
      | _ => None
      end
  end.

(** The host as [FuzzerEnvironment] observes it: the environment of the
    process, the path that the runfiles finder gives for
    [llvm-symbolizer], symlink resolution and whether [os.Stat]
    succeeds. *)
Record EnvHost := mkEnvHost {
  Environ : list string;
  LLVMSymbolizerPath : option string;
  EvalSymlinks : string → option string;
  Stat : string → bool;
}.

Definition FuzzerEnvironment (h : EnvHost) : option (list string) :=
  let env := Environ h in
  llvmSymbolizerPath ← LLVMSymbolizerPath h;
  resolvedLLVMSymbolizerPath ← EvalSymlinks h llvmSymbolizerPath;
  _ ← guard (Stat h resolvedLLVMSymbolizerPath);
  env ← Envutil.Setenv env "ASAN_SYMBOLIZER_PATH" resolvedLLVMSymbolizerPath;
  env ← Envutil.Setenv env "LLVM_SYMBOLIZER_OPTS" "--relativenames";
  Some env.

(** The first option of a list that sets a key. *)
Fixpoint firstOf (key : string) (options : list string) : option string :=
  match options with
  | [] => None
  | opt :: rest =>
      if decide (optionKey opt = Some key) then Some opt else firstOf key rest
  end.

End Runner.

(** *** [path/filepath] on Unix *)
Module Filepath.

(** The lexical processing of [filepath.Clean] on the path's elements:
    empty and [.] elements go, an inner [..] goes with the element
    before it, a [..] at the root goes. [stack] holds the elements kept
    so far, last first. *)
Fixpoint cleanElems (rooted : bool) (stack elems : list string) : list string :=
  match elems with
  | [] => reverse stack
  | e :: rest =>
      if decide (e = "" ∨ e = ".") then cleanElems rooted stack rest
      else if decide (e = "..") then
        match stack with
        | top :: below =>
            if decide (top = "..") then cleanElems rooted (e :: stack) rest
            else cleanElems rooted below rest
        | [] => if rooted then cleanElems rooted [] rest else cleanElems rooted [e] rest
        end
      else cleanElems rooted (e :: stack) rest
  end.

Definition Clean (path : string) : string :=
  let rooted := GoStrings.HasPrefix path "/" in
  let out := (if rooted then "/" else "")
             +:+ GoStrings.Join (cleanElems rooted [] (GoStrings.Split path "/"%char)) "/" in
  if decide (out = "") then "." else out.

(** [filepath.Join]: empty elements are ignored, the result is cleaned,
    and it is empty when there is no non-empty element. *)
Definition Join (elem : list string) : string :=
  match filter (λ e, e ≠ "") elem with
  | [] => ""
  | nonEmpty => Clean (GoStrings.Join nonEmpty "/")
  end.

(** A plain path element: not empty, not [.] or [..], without slash. *)
Definition plainElem (e : string) : bool :=
  bool_decide (e ≠ "" ∧ e ≠ "." ∧ e ≠ "..") && negb (GoStrings.ContainsRune e "/"%char).

(** A clean path: plain elements separated by single slashes, with or
    without a leading slash. *)
Definition cleanPath (path : string) : bool :=
  match GoStrings.Split path "/"%char with
  | "" :: (_ :: _) as elems => forallb plainElem elems
  | elems => forallb plainElem elems
  end.

(** [filepath.Dir]: all but the last element of the path, that is the
    path up to its last slash, cleaned. *)
Fixpoint uptoLastSlash (path : string) : string :=
  match path with
  | EmptyString => ""
  | String c rest =>
      if GoStrings.ContainsRune rest "/"%char then String c (uptoLastSlash rest)
      else if decide (c = "/"%char) then "/" else ""
  end.

Definition Dir (path : string) : string := Clean (uptoLastSlash path).

End Filepath.

(** *** The sandbox in its config-file form (package minijail, the
      variant that writes [minijail.conf]). It declares the same
      [Binding] type and [String] method as above. *)
Module MinijailConfig.
Import GoStrings.
Export Minijail (Binding, mkBinding, Source, Target, Writable, ReadOnly, ReadWrite).

(** What [os.ReadDir] returns for one entry of [/tmp]: its name, whether
    it is a directory, and the result of [entry.Info()] ([None] when the
    entry is not accessible). A [FileInfo] is modelled by the identity of
    the file, which is all that [os.SameFile] compares. *)
Definition FileInfo := Z.

Record DirEntry := mkDirEntry {
  Name : string;
  IsDir : bool;
  Info : option FileInfo;
}.

Definition SameFile (a b : FileInfo) : bool := bool_decide (a = b).

(** The host as [NewMinijail] observes it, one field per call that can
    fail ([None] or [false] is the call returning an error). *)
Record Host := mkHost {
  EvalSymlinks : string → option string;
  MkdirTemp : option string;
  MkdirAll : string → bool;
  Minijail0Path : option string;
  ReadDirTmp : option (list DirEntry);
  Stat : string → option FileInfo;
  Getwd : option string;
  ProcessWrapperPath : option string;
}.

Record Options := mkOptions {
  Args : list string;
  Bindings : list Binding;
  OutputDir : string;
}.

Definition defaultBindings : list Binding :=
  [ mkBinding "/dev/null" "" ReadWrite;
    mkBinding "/dev/urandom" "" ReadWrite ].

(** The loop over the entries of [/tmp]. *)
Fixpoint tmpBindings (entries : list DirEntry) (chrootDirFileInfo : FileInfo) : list Binding :=
  match entries with
  | [] => []
  | entry :: rest =>
      if negb (IsDir entry) then tmpBindings rest chrootDirFileInfo
      else match Info entry with
           | None => tmpBindings rest chrootDirFileInfo
           | Some fileInfo =>
               if SameFile fileInfo chrootDirFileInfo then tmpBindings rest chrootDirFileInfo
               else mkBinding ("/tmp" +:+ Name entry) "" ReadOnly
                      :: tmpBindings rest chrootDirFileInfo
           end
  end.

(** [NewMinijail] up to the point where the slice [bindings] is
    complete (before the loop that writes the config lines): the slice,
    or [None] when one of the calls before that point fails (or when
    [opts.Args] is empty and [opts.Args[0]] panics). *)
Definition NewMinijail_bindings (h : Host) (opts : Options) : option (list Binding) :=
  arg0 ← head (Args opts);
  path ← EvalSymlinks h arg0;
  chrootDir ← MkdirTemp h;
  _ ← guard (MkdirAll h (Filepath.Join [chrootDir; "/proc"]));
  _ ← guard (MkdirAll h (Filepath.Join [chrootDir; "/tmp"]));
  _ ← guard (MkdirAll h (Filepath.Join [chrootDir; "dev"; "shm"]));
  _ ← Minijail0Path h;
  entries ← ReadDirTmp h;
  chrootDirFileInfo ← Stat h chrootDir;
  let bindings := tmpBindings entries chrootDirFileInfo in
  let bindings := bindings ++ Bindings opts in
  let bindings := bindings ++ defaultBindings in
  let bindings :=
    if decide (OutputDir opts ≠ "") then bindings ++ [mkBinding (OutputDir opts) "" ReadWrite]
    else bindings in
  workdir ← Getwd h;
  let bindings := bindings ++ [mkBinding workdir "" ReadWrite] in
  let bindings := bindings ++ [mkBinding path "" ReadOnly] in
  processWrapperPath ← ProcessWrapperPath h;
  Some (bindings ++ [mkBinding processWrapperPath "" ReadOnly]).

(** The entries of [/tmp] that get a binding: directories that are
    accessible and are not the chroot directory. *)
Definition bindable (chrootDirFileInfo : FileInfo) (entry : DirEntry) : bool :=
  IsDir entry
  && match Info entry with
     | Some fileInfo => negb (SameFile fileInfo chrootDirFileInfo)
     | None => false
     end.

(** The binding for the output directory, when one is set. *)
Definition outputDirBinding (opts : Options) : list Binding :=
  if decide (OutputDir opts ≠ "") then [mkBinding (OutputDir opts) "" ReadWrite] else [].

(** The bindings in the order the specification gives: the
    subdirectories of [/tmp] by their paths, the caller's bindings, the
    two defaults, the working directory, the executable, the process
    wrapper. *)
Definition specifiedBindings (h : Host) (opts : Options) : option (list Binding) :=
  arg0 ← head (Args opts);
  path ← EvalSymlinks h arg0;
  chrootDir ← MkdirTemp h;
  entries ← ReadDirTmp h;
  chrootDirFileInfo ← Stat h chrootDir;
  workdir ← Getwd h;
  processWrapperPath ← ProcessWrapperPath h;
  Some (((λ entry, mkBinding ("/tmp/" +:+ Name entry) "" ReadOnly)
           <$> filter (λ entry, bindable chrootDirFileInfo entry) entries)
        ++ Bindings opts
        ++ defaultBindings
        ++ [mkBinding workdir "" ReadWrite; mkBinding path "" ReadOnly;
            mkBinding processWrapperPath "" ReadOnly]).

(** The order of the bindings as the code composes it. *)
Definition bindingOrder (h : Host) (opts : Options) (bindings : list Binding) : Prop :=
  ∃ arg0 path chrootDir entries chrootDirFileInfo workdir processWrapperPath,
    head (Args opts) = Some arg0 ∧ EvalSymlinks h arg0 = Some path
    ∧ MkdirTemp h = Some chrootDir ∧ ReadDirTmp h = Some entries
    ∧ Stat h chrootDir = Some chrootDirFileInfo
    ∧ Getwd h = Some workdir ∧ ProcessWrapperPath h = Some processWrapperPath
    ∧ bindings
      = tmpBindings entries chrootDirFileInfo
        ++ Bindings opts
        ++ [mkBinding "/dev/null" "" ReadWrite; mkBinding "/dev/urandom" "" ReadWrite]
        ++ outputDirBinding opts
        ++ [mkBinding workdir "" ReadWrite; mkBinding path "" ReadOnly;
            mkBinding processWrapperPath "" ReadOnly]
    ∧ Forall2 (λ entry b, Target b = "" ∧ Writable b = ReadOnly)
              (filter (λ entry, bindable chrootDirFileInfo entry) entries)
              (tmpBindings entries chrootDirFileInfo).

(** A host to try the function on: every call succeeds, no path is a
    symlink, the chroot directory is the file 12, and [/tmp] holds the
    given entries. *)
Definition exampleHost (entries : list DirEntry) : Host :=
  mkHost (λ path, Some path) (Some "/tmp/minijail-chroot-1") (λ _, true)
         (Some "/opt/cifuzz/bin/minijail0") (Some entries) (λ _, Some 12)
         (Some "/work") (Some "/opt/cifuzz/lib/process_wrapper").

Definition exampleOptions (outputDir : string) : Options :=
  mkOptions ["/work/fuzz_test"; "-runs=0"] [mkBinding "/build" "" ReadOnly] outputDir.

(** **** The whole of [NewMinijail] *)

Definition MS_RDONLY : Z := 0x1.
Definition MS_NOSUID : Z := 0x2.
Definition MS_NODEV : Z := 0x4.
Definition MS_BIND : Z := 0x1000.
Definition MS_REC : Z := 0x4000.
Definition MS_STRICTATIME : Z := 0x1000000.

Definition fixedMinijailArgs : list string :=
  ["-U"; "-m"; "-M"; "-c"; "0"; "-n"; "-v"; "-p"; "-l"; "-I"].

(** The package-level variable [minijailConfigLines] as the package
    initialises it. [NewMinijail] appends to it, so below it is a piece
    of state that is passed in and handed back. *)
Definition minijailConfigLines : list string :=
  [ "mount=/,/,none," +:+ Itoa (Z.lor (Z.lor MS_RDONLY MS_BIND) MS_REC);
    "mount=proc,/proc,proc," +:+ Itoa MS_RDONLY;
    "mount=tmpfs,/dev/shm,tmpfs,"
      +:+ Itoa (Z.lor (Z.lor MS_NOSUID MS_NODEV) MS_STRICTATIME) +:+ ",mode=1777";
    "mount=tmpfs,/tmp,tmpfs,"
      +:+ Itoa (Z.lor (Z.lor MS_NOSUID MS_NODEV) MS_STRICTATIME) +:+ ",mode=1777";
    "mount=tmpfs,/run,tmpfs,"
      +:+ Itoa (Z.lor (Z.lor MS_NOSUID MS_NODEV) MS_STRICTATIME) +:+ ",mode=1777";
    "mount=tmpfs,/var/run,tmpfs,"
      +:+ Itoa (Z.lor (Z.lor MS_NOSUID MS_NODEV) MS_STRICTATIME) +:+ ",mode=1777";
    "logging=stderr" ].

(** The rest of the host: [fileutil.Exists] (which can fail),
    [fileutil.IsDir], [fileutil.Touch], [os.WriteFile], and the value
    of the variable [CI_DEBUG_MINIJAIL_SLEEP_FOREVER]. *)
Record FileHost := mkFileHost {
  fileutilExists : string → option bool;
  fileutilIsDir : string → bool;
  fileutilTouch : string → bool;
  WriteFile : string → string → bool;
  DebugSleepForever : string;
}.

(** What [NewMinijail] has computed when the slice [bindings] is
    complete. *)
Record setup := mkSetup {
  setupPath : string;
  setupChrootDir : string;
  setupMinijailPath : string;
  setupWorkdir : string;
  setupProcessWrapperPath : string;
  setupBindings : list Binding;
}.

(** [NewMinijail] up to the loop that writes the config lines, with
    everything that the rest of the function uses. *)
Definition NewMinijail_setup (h : Host) (opts : Options) : option setup :=
  arg0 ← head (Args opts);
  path ← EvalSymlinks h arg0;
  chrootDir ← MkdirTemp h;
  _ ← guard (MkdirAll h (Filepath.Join [chrootDir; "/proc"]));
  _ ← guard (MkdirAll h (Filepath.Join [chrootDir; "/tmp"]));
  _ ← guard (MkdirAll h (Filepath.Join [chrootDir; "dev"; "shm"]));
  minijailPath ← Minijail0Path h;
  entries ← ReadDirTmp h;
  chrootDirFileInfo ← Stat h chrootDir;
  let bindings := tmpBindings entries chrootDirFileInfo in
  let bindings := bindings ++ Bindings opts in
  let bindings := bindings ++ defaultBindings in
  let bindings :=
    if decide (OutputDir opts ≠ "") then bindings ++ [mkBinding (OutputDir opts) "" ReadWrite]
    else bindings in
  workdir ← Getwd h;
  let bindings := bindings ++ [mkBinding workdir "" ReadWrite] in
  let bindings := bindings ++ [mkBinding path "" ReadOnly] in
  processWrapperPath ← ProcessWrapperPath h;
  let bindings := bindings ++ [mkBinding processWrapperPath "" ReadOnly] in
  Some (mkSetup path chrootDir minijailPath workdir processWrapperPath bindings).

(** Creating the destination of a binding in the chroot directory. *)
Definition createDestination (h : Host) (f : FileHost) (chrootDir : string)
    (binding : Binding) : bool :=
  if fileutilIsDir f (Source binding) then
    MkdirAll h (Filepath.Join [chrootDir; Target binding])
  else
    MkdirAll h (Filepath.Join [chrootDir; Filepath.Dir (Target binding)])
    && fileutilTouch f (Filepath.Join [chrootDir; Target binding]).

(** The loop over [bindings]: the config lines as the loop leaves them,
    and whether it ran to its end ([false]: it returned an error). *)
Fixpoint configLoop (h : Host) (f : FileHost) (chrootDir : string)
    (bindings : list Binding) (lines : list string) : list string * bool :=
  match bindings with
  | [] => (lines, true)
  | binding :: rest =>
      let binding := Minijail.fillTarget binding in
      match fileutilExists f (Source binding) with
      | None => (lines, false)
      | Some false => configLoop h f chrootDir rest lines
      | Some true =>
          if negb (createDestination h f chrootDir binding) then (lines, false)
          else configLoop h f chrootDir rest
                 (lines ++ ["bind-mount=" +:+ (Minijail.String_ binding).1])
      end
  end.

(** The struct [minijail], together with the config file that
    [NewMinijail] has written for it. [jailOptions] is the embedded
    [*Options]. *)
Record minijail := mkMinijail {
  jailOptions : Options;
  jailArgs : list string;
  jailChrootDir : string;
  configFile : string;
  configFileContent : string;
}.

Definition newline : string := String "010"%char "".

(** [NewMinijail]: the value of [minijailConfigLines] after the call,
    and the result ([None] for an error). [lines] is the value of
    [minijailConfigLines] before the call. [JoinSlices] stands for
    [stringutil.JoinSlices], which is not among the sources at hand.
    The options of the result are the caller's, which the function has
    changed in place: the first argument is resolved and every binding
    has its target filled in. *)
Definition NewMinijail (JoinSlices : string → list (list string) → list string)
    (h : Host) (f : FileHost) (lines : list string) (opts : Options)
    : list string * option minijail :=
  match NewMinijail_setup h opts with
  | None => (lines, None)
  | Some s =>
      let path := setupPath s in
      let chrootDir := setupChrootDir s in
      let workdir := setupWorkdir s in
      let processWrapperPath := setupProcessWrapperPath s in
      let opts := mkOptions (path :: tail (Args opts)) (Bindings opts) (OutputDir opts) in
      let minijailArgs := setupMinijailPath s :: fixedMinijailArgs in
      let minijailArgs := minijailArgs ++ ["-T"; "static"; "--ambient"] in
      let minijailArgs := minijailArgs ++ ["-P"; chrootDir] in
      match configLoop h f chrootDir (setupBindings s) lines with
      | (lines, false) => (lines, None)
      | (lines, true) =>
          let opts :=
            mkOptions (Args opts) (Minijail.fillTarget <$> Bindings opts) (OutputDir opts) in
          let configFile := Filepath.Join [chrootDir; "minijail.conf"] in
          let configFileContent :=
            Join ("% minijail-config-file v0" :: lines) newline in
          if negb (WriteFile f configFile configFileContent) then (lines, None)
          else
            let minijailArgs := minijailArgs ++ ["--config"; configFile] in
            let processWrapperArgs := [processWrapperPath; workdir] in
            let args := JoinSlices "--" [minijailArgs; processWrapperArgs; Args opts] in
            let args :=
              if decide (DebugSleepForever f ≠ "") then
                let minijailArgs := minijailArgs ++ ["-b"; "/bin"] in
                let processWrapperArgs :=
                  processWrapperArgs ++ ["CMD=" +:+ Join (Args opts) " "] in
                JoinSlices "--" [minijailArgs; processWrapperArgs; ["/bin/sh"]]
              else args in
            (lines, Some (mkMinijail opts args chrootDir configFile configFileContent))
      end
  end.

(** The config line of a binding, and the bindings that get one. *)
Definition bindMountLine (binding : Binding) : string :=
  "bind-mount=" +:+ (Minijail.String_ (Minijail.fillTarget binding)).1.

Definition sourceExists (f : FileHost) (binding : Binding) : bool :=
  bool_decide (fileutilExists f (Source binding) = Some true).

(** What is assumed of [stringutil.JoinSlices] where its result
    matters: three slices are concatenated with the delimiter between
    them. *)
Definition joinsWithDelimiter (JoinSlices : string → list (list string) → list string) : Prop :=
  ∀ delim a b c, JoinSlices delim [a; b; c] = a ++ delim :: b ++ delim :: c.

(** A function with that property, to try [NewMinijail] with. *)
Definition exampleJoinSlices (delim : string) (slices : list (list string)) : list string :=
  match slices with
  | [] => []
  | first :: rest => first ++ concat ((λ slice, delim :: slice) <$> rest)
  end.

(** A host on which every file but [/dev/urandom] exists, [/build] and
    [/work] being directories, and on which every call succeeds;
    [debug] is the value of [CI_DEBUG_MINIJAIL_SLEEP_FOREVER]. *)
Definition exampleFileHost (debug : string) : FileHost :=
  mkFileHost (λ path, Some (bool_decide (path ≠ "/dev/urandom")))
             (λ path, bool_decide (path = "/build" ∨ path = "/work"))
             (λ _, true) (λ _ _, true) debug.

End MinijailConfig.

(** *** The CMake adapter (package cmake) *)
Module Cmake.

Record BuilderOptions := mkBuilderOptions {
  ProjectDir : string;
  Engine : string;
  Sanitizers : list string;
}.

Definition BuildDir (b : BuilderOptions) : string :=
  let sanitizersSegment := GoStrings.Join (Sanitizers b) "+" in
  let sanitizersSegment :=
    if decide (sanitizersSegment = "") then "none" else sanitizersSegment in
  Filepath.Join [ProjectDir b; ".cifuzz-build"; Engine b; sanitizersSegment].

(** The last path segment: the sanitizers joined with [+], or [none]
    when that is empty. *)
Definition sanitizersSegment (b : BuilderOptions) : string :=
  let segment := GoStrings.Join (Sanitizers b) "+" in
  if decide (segment = "") then "none" else segment.

(** The build directory as the specification writes it. *)
Definition specBuildDir (b : BuilderOptions) : string :=
  ProjectDir b +:+ "/.cifuzz-build/" +:+ Engine b +:+ "/" +:+ GoStrings.Join (Sanitizers b) "+".

(** **** [getRuntimeDeps] *)

Definition cmakeBuildConfiguration : string := "RelWithDebInfo".

(** [strings.TrimPrefix]. *)
Definition TrimPrefix (s prefix : string) : string :=
  default s (Envutil.CutPrefix s prefix).

(** [strings.Index(s, " ")] together with the two slices that the code
    takes around the index, [s[:i]] and [s[i+1:]]; [None] is the index
    -1. *)
Fixpoint cutAtSpace (s : string) : option (string * string) :=
  match s with
  | EmptyString => None
  | String c r =>
      if decide (c = " "%char) then Some (EmptyString, r)
      else match cutAtSpace r with
           | Some (status, dep) => Some (String c status, dep)
           | None => None
           end
  end.

Inductive depsError :=
| ErrSilent                                   (* the install command failed *)
| InvalidLine (line : string)
| InvalidStatus (status line : string)
| CanonicalPathError (dep : string).

(** The three slices that the loop fills. *)
Record depLists := mkDepLists {
  resolvedDeps : list string;
  unresolvedDeps : list string;
  conflictingDeps : list string;
}.

(** The loop over the lines of the command's output, [CanonicalPath]
    being [fileutil.CanonicalPath]. *)
Fixpoint scanLines (CanonicalPath : string → option string) (lines : list string)
    (deps : depLists) : depLists + depsError :=
  match lines with
  | [] => inl deps
  | line :: rest =>
      if negb (GoStrings.HasPrefix line "-- CIFUZZ ") then scanLines CanonicalPath rest deps
      else
        let statusAndDep := TrimPrefix line "-- CIFUZZ " in
        match cutAtSpace statusAndDep with
        | None => inr (InvalidLine line)
        | Some (status, dep) =>
            match CanonicalPath dep with
            | None => inr (CanonicalPathError dep)
            | Some dep =>
                if decide (status = "UNRESOLVED") then
                  scanLines CanonicalPath rest
                    (mkDepLists (resolvedDeps deps) (unresolvedDeps deps ++ [dep])
                                (conflictingDeps deps))
                else if decide (status = "CONFLICTING") then
                  scanLines CanonicalPath rest
                    (mkDepLists (resolvedDeps deps) (unresolvedDeps deps)
                                (conflictingDeps deps ++ [dep]))
                else if decide (status = "RESOLVED") then
                  scanLines CanonicalPath rest
                    (mkDepLists (resolvedDeps deps ++ [dep]) (unresolvedDeps deps)
                                (conflictingDeps deps))
                else inr (InvalidStatus status line)
            end
        end
  end.

(** The host of [getRuntimeDeps]: [cmakeInstall dir component] is the
    run of [cmake --install dir --config RelWithDebInfo --component
    component], giving the lines of its standard output as the scanner
    yields them, or [None] when the command fails. *)
Record DepsHost := mkDepsHost {
  cmakeInstall : string → string → option (list string);
  CanonicalPath : string → option string;
}.

(** [getRuntimeDeps]: the resolved dependencies, and whether the
    warning about unresolved or conflicting ones is logged. *)
Definition getRuntimeDeps (h : DepsHost) (b : BuilderOptions) (fuzzTest : string)
    : list string * bool + depsError :=
  match cmakeInstall h (BuildDir b) ("cifuzz_internal_deps_" +:+ fuzzTest) with
  | None => inr ErrSilent
  | Some lines =>
      match scanLines (CanonicalPath h) lines (mkDepLists [] [] []) with
      | inr e => inr e
      | inl deps =>
          inl (resolvedDeps deps,
               bool_decide (unresolvedDeps deps ≠ [] ∨ conflictingDeps deps ≠ []))
      end
  end.

(** The line that reports a dependency, and reading one back: the
    canonical path of the dependency that [line] reports with [status]. *)
Definition depLine (status dep : string) : string :=
  "-- CIFUZZ " +:+ status +:+ " " +:+ dep.

Definition depOfLine (CanonicalPath : string → option string) (status line : string)
    : option string :=
  dep ← Envutil.CutPrefix line ("-- CIFUZZ " +:+ status +:+ " "); CanonicalPath dep.

(** A line that the loop accepts: other output of CMake, or the report
    of a dependency with one of the three statuses and a path that can
    be made canonical. *)
Definition acceptedLine (CanonicalPath : string → option string) (line : string) : bool :=
  negb (GoStrings.HasPrefix line "-- CIFUZZ ")
  || bool_decide (is_Some (depOfLine CanonicalPath "UNRESOLVED" line))
  || bool_decide (is_Some (depOfLine CanonicalPath "CONFLICTING" line))
  || bool_decide (is_Some (depOfLine CanonicalPath "RESOLVED" line)).

Definition warnedLine (CanonicalPath : string → option string) (line : string) : bool :=
  bool_decide (is_Some (depOfLine CanonicalPath "UNRESOLVED" line))
  || bool_decide (is_Some (depOfLine CanonicalPath "CONFLICTING" line)).

(** **** Options that keep the build directories apart *)

Definition plainSanitizer (s : string) : bool :=
  Filepath.plainElem s && bool_decide (s ≠ "none") && negb (GoStrings.ContainsRune s "+"%char).

Definition plainOptions (b : BuilderOptions) : bool :=
  Filepath.cleanPath (ProjectDir b) && Filepath.plainElem (Engine b)
  && forallb plainSanitizer (Sanitizers b).

End Cmake.

(** *** The Maven adapter (package maven) *)
Module Maven.
Import GoStrings.

Record ParallelOptions := mkParallelOptions {
  Enabled : bool;
  NumJobs : Z;
}.

Record BuilderOptions := mkBuilderOptions {
  ProjectDir : string;
  Parallel : ParallelOptions;
}.

(** The fields of [build.Result] that the adapter fills. *)
Record Result := mkResult {
  ResultName : string;
  BuildDir : string;
  ResultProjectDir : string;
  GeneratedCorpus : string;
  SeedCorpus : string;
  RuntimeDeps : list string;
}.

(** The part of the project model that [getLocalDependencies] reads from
    the XML that [mvn help:evaluate -Dexpression=project] prints. *)
Record Project := mkProject {
  OutputDirectory : string;
  TestOutputDirectory : string;
  Resources : list string;
  TestResources : list string;
}.

(** The host as the adapter observes it. [mvn dir args] is a run of
    Maven in directory [dir]: its standard output when it exits with
    status 0. [parseXML] (same package) and the two [cmdutils] functions
    are not among the sources at hand and are taken as given. [EvalSymlinks] is only
    used to state what a symlink-free path is. *)
Record Host := mkHost {
  mvn : string → list string → option string;
  MkdirTemp : option string;
  ReadFile : string → option string;
  parseXML : string → option Project;
  JazzerSeedCorpus : string → string → string;
  JazzerGeneratedCorpus : string → string → string;
  EvalSymlinks : string → option string;
}.

Definition PathListSeparator : ascii := ":"%char.

Definition runMaven (h : Host) (b : BuilderOptions) (args : list string) : option string :=
  mvn h (ProjectDir b) (args ++ ["-Pcifuzz"]).

Definition getExternalDependencies (h : Host) (b : BuilderOptions) : option (list string) :=
  tempDir ← MkdirTemp h;
  let outputPath := Filepath.Join [tempDir; "cp"] in
  let outputFlag := "-Dmdep.outputFile=" +:+ outputPath in
  _ ← runMaven h b ["dependency:build-classpath"; outputFlag];
  output ← ReadFile h outputPath;
  Some (Split (TrimSpace output) PathListSeparator).

Definition getLocalDependencies (h : Host) (b : BuilderOptions) : option (list string) :=
  stdout ← runMaven h b ["help:evaluate"; "-Dexpression=project"; "-DforceStdout"; "--quiet"];
  project ← parseXML h stdout;
  Some ([OutputDirectory project; TestOutputDirectory project]
          ++ Resources project ++ TestResources project).

Definition GetBuildDirectory (h : Host) (projectDir : string) : option string :=
  mvn h projectDir
    ["help:evaluate"; "-Dexpression=project.build.directory"; "--quiet"; "-DforceStdout"].

Definition Build (h : Host) (b : BuilderOptions) (targetClass : string) : option Result :=
  let flags :=
    if Enabled (Parallel b) then
      "-T" :: (if decide (NumJobs (Parallel b) ≠ 0) then [Itoa (NumJobs (Parallel b))]
               else ["1C"])
    else [] in
  let args := flags ++ ["test-compile"] in
  _ ← runMaven h b args;
  deps ← getExternalDependencies h b;
  localDeps ← getLocalDependencies h b;
  let deps := deps ++ localDeps in
  let seedCorpus := JazzerSeedCorpus h targetClass (ProjectDir b) in
  let generatedCorpus := JazzerGeneratedCorpus h targetClass (ProjectDir b) in
  buildDir ← GetBuildDirectory h (ProjectDir b);
  Some {| ResultName := targetClass;
          BuildDir := buildDir;
          ResultProjectDir := ProjectDir b;
          GeneratedCorpus := generatedCorpus;
          SeedCorpus := seedCorpus;
          RuntimeDeps := deps |}.

(** A path is absolute and symlink-free on host [h] when it starts at
    the root and resolving symlinks leaves it as it is. *)
Definition canonical (h : Host) (path : string) : bool :=
  HasPrefix path "/" && bool_decide (EvalSymlinks h path = Some path).

Definition allPathsCanonical (h : Host) (r : Result) : bool :=
  canonical h (BuildDir r) && canonical h (SeedCorpus r)
  && canonical h (GeneratedCorpus r) && forallb (canonical h) (RuntimeDeps r).

(** The same host with another symlink resolution. *)
Definition withEvalSymlinks (h : Host) (f : string → option string) : Host :=
  mkHost (mvn h) (MkdirTemp h) (ReadFile h) (parseXML h)
         (JazzerSeedCorpus h) (JazzerGeneratedCorpus h) f.

(** The result made of what Maven reports, as it is: the build
    directory printed by [mvn help:evaluate], the entries of the
    classpath file followed by the directories of the project model, and
    the two corpus directories that [cmdutils] derives from the project
    directory. *)
Definition reportedByMaven (h : Host) (b : BuilderOptions) (targetClass : string)
    (r : Result) : Prop :=
  ∃ tempDir classpath stdout project buildDir,
    MkdirTemp h = Some tempDir
    ∧ ReadFile h (Filepath.Join [tempDir; "cp"]) = Some classpath
    ∧ runMaven h b ["help:evaluate"; "-Dexpression=project"; "-DforceStdout"; "--quiet"]
      = Some stdout
    ∧ parseXML h stdout = Some project
    ∧ GetBuildDirectory h (ProjectDir b) = Some buildDir
    ∧ r = {| ResultName := targetClass;
             BuildDir := buildDir;
             ResultProjectDir := ProjectDir b;
             GeneratedCorpus := JazzerGeneratedCorpus h targetClass (ProjectDir b);
             SeedCorpus := JazzerSeedCorpus h targetClass (ProjectDir b);
             RuntimeDeps := Split (TrimSpace classpath) PathListSeparator
                            ++ [OutputDirectory project; TestOutputDirectory project]
                            ++ Resources project ++ TestResources project |}.

(** A host to try the adapter on: the home directory [/home/user] is a
    symlink to [/data/user], the project lives in [/home/user/proj], and
    Maven reports paths below [/home/user]. *)
Definition exampleHost : Host :=
  {| mvn := λ dir args,
       if decide ("-Dexpression=project.build.directory" ∈ args)
       then Some "/home/user/proj/target" else Some "";
     MkdirTemp := Some "/tmp/cifuzz-maven-dependencies-1";
     ReadFile := λ _, Some "/home/user/.m2/junit.jar:/home/user/.m2/jazzer.jar
";
     parseXML := λ _, Some {| OutputDirectory := "/home/user/proj/target/classes";
                              TestOutputDirectory := "/home/user/proj/target/test-classes";
                              Resources := ["/home/user/proj/src/main/resources"];
                              TestResources := ["/home/user/proj/src/test/resources"] |};
     JazzerSeedCorpus := λ targetClass projectDir,
       projectDir +:+ "/src/test/resources/" +:+ targetClass +:+ "SeedCorpus";
     JazzerGeneratedCorpus := λ targetClass projectDir,
       projectDir +:+ "/.cifuzz-corpus/" +:+ targetClass;
     EvalSymlinks := λ path,
       match Envutil.CutPrefix path "/home/user" with
       | Some rest => Some ("/data/user" +:+ rest)
       | None => Some path
       end |}.

Definition exampleOptions : BuilderOptions :=
  mkBuilderOptions "/home/user/proj" (mkParallelOptions false 0).

Definition exampleResult : Result :=
  {| ResultName := "com.example.FuzzTestCase";
     BuildDir := "/home/user/proj/target";
     ResultProjectDir := "/home/user/proj";
     GeneratedCorpus := "/home/user/proj/.cifuzz-corpus/com.example.FuzzTestCase";
     SeedCorpus := "/home/user/proj/src/test/resources/com.example.FuzzTestCaseSeedCorpus";
     RuntimeDeps := ["/home/user/.m2/junit.jar"; "/home/user/.m2/jazzer.jar";
                     "/home/user/proj/target/classes";
                     "/home/user/proj/target/test-classes";
                     "/home/user/proj/src/main/resources";
                     "/home/user/proj/src/test/resources"] |}.

(** A string of ASCII white space only. *)
Fixpoint onlySpace (s : string) : bool :=
  match s with
  | EmptyString => true
  | String c r => Ascii.is_space c && onlySpace r
  end.

End Maven.

(** *** The run command (package run) *)
Module Run.

(** **** [countCorpusEntries] *)

(** What [filepath.WalkDir] finds at a root and below it: a file with
    its size, a directory with its entries (names play no role in the
    count), or an entry on which the walk reports an error that
    [os.IsNotExist] does not accept: [ReadDir] or [Info] failing, or,
    at the root, [Lstat] failing (a path that leads through a file, a
    directory that may not be searched). The file system stays as it is
    during the walk: no entry goes away between [ReadDir] and [Info]. *)
Inductive tree :=
| File (size : Z)
| Dir (entries : list tree)
| Failing.

Inductive walkError := ErrNotExist | ErrOther.

Definition uintMod : Z := 2 ^ 64.

(** The walk with the callback of [countCorpusEntries] inlined:
    [seedsInDir] is the captured counter, an error returned by the
    callback stops the walk. *)
Fixpoint walk (seedsInDir : Z) (t : tree) : Z + walkError :=
  match t with
  | File size =>
      inl (if decide (size ≠ 0) then (seedsInDir + 1) mod uintMod else seedsInDir)
  | Dir entries =>
      (fix walkEntries (seedsInDir : Z) (entries : list tree) : Z + walkError :=
         match entries with
         | [] => inl seedsInDir
         | e :: rest =>
             match walk seedsInDir e with
             | inl seedsInDir => walkEntries seedsInDir rest
             | inr err => inr err
             end
         end) seedsInDir entries
  | Failing => inr ErrOther
  end.

(** The file system maps a root to what [WalkDir] finds there. [None]
    is a root on which [Lstat] fails with an error that [os.IsNotExist]
    accepts: [WalkDir] passes the error to the callback, which returns
    it. A root on which [Lstat] fails in another way is [Some Failing]:
    the callback returns that error as well, and [os.IsNotExist] does
    not accept it. *)
Definition WalkDir (fs : string → option tree) (root : string) : Z + walkError :=
  match fs root with
  | None => inr ErrNotExist
  | Some t => walk 0 t
  end.

(** The [for] loop of [countCorpusEntries], [numSeeds] being the
    accumulator. *)
Fixpoint countLoop (fs : string → option tree) (numSeeds : Z) (seedCorpusDirs : list string)
    : Z + walkError :=
  match seedCorpusDirs with
  | [] => inl numSeeds
  | dir :: rest =>
      match WalkDir fs dir with
      | inr ErrNotExist => inl 0
      | inr err => inr err
      | inl seedsInDir => countLoop fs ((numSeeds + seedsInDir) mod uintMod) rest
      end
  end.

Definition countCorpusEntries (fs : string → option tree) (seedCorpusDirs : list string)
    : Z + walkError :=
  countLoop fs 0 seedCorpusDirs.

(** The number of files of non-zero size below a root, and in a list of
    directories of which the missing ones count for nothing: what the
    counter is meant to compute. *)
Fixpoint nonEmptyFiles (t : tree) : Z :=
  match t with
  | File size => if decide (size ≠ 0) then 1 else 0
  | Dir entries => foldr (λ e n, nonEmptyFiles e + n) 0 entries
  | Failing => 0
  end.

Definition corpusEntries (fs : string → option tree) (dirs : list string) : Z :=
  foldr (λ dir n, from_option nonEmptyFiles 0 (fs dir) + n) 0 dirs.

(** A tree on which no entry makes the walk fail. *)
Fixpoint walkable (t : tree) : bool :=
  match t with
  | File _ => true
  | Dir entries => forallb walkable entries
  | Failing => false
  end.

(** **** [executeRunner] *)

Inductive Signal := SIGINT | SIGTERM | SIGQUIT.

(** Errors as [executeRunner] tells them apart: the [SignalError] made
    by [cmdutils.NewSignalError], an [ExecError], any other error, and
    an error wrapped by [cmdutils.WrapSilentError]. *)
Inductive error :=
| SignalError (s : Signal)
| ExecError (msg : string)
| OtherError (msg : string)
| SilentError (err : error).

(** [errors.As(err, &execErr)] looks through the wrappers. *)
Fixpoint isExecError (err : error) : bool :=
  match err with
  | ExecError _ => true
  | SilentError err => isExecError err
  | _ => false
  end.

(** Where the signal-handler goroutine stands. *)
Inductive handlerPC :=
| HSelect                (* blocked in the select *)
| HReceived (s : Signal) (* took [s := <-sigs]; next: [signalErr = NewSignalError(s)] *)
| HCleanup (s : Signal)  (* next: [runner.Cleanup(routinesCtx)] *)
| HReturn (s : Signal)   (* next: [return signalErr] *)
| HExited.

(** Where the runner goroutine stands. *)
Inductive runnerPC :=
| RRun                          (* inside [runner.Run(routinesCtx)] *)
| RDeferred (err : option error) (* [Run] returned; next: the deferred [cancelSignalHandler()] *)
| RReturn (err : option error)   (* next: hand [err] to the errgroup *)
| RExited.

Record state := mkState {
  sigs : option Signal;        (* the channel of capacity 1 *)
  handler : handlerPC;
  runnerAt : runnerPC;
  signalErr : option error;    (* the variable shared with the handler *)
  ctxDone : bool;              (* [routinesCtx] is cancelled *)
  groupErr : option error;     (* the first non-nil error the errgroup saw *)
  cleanups : nat;              (* calls of [runner.Cleanup] so far *)
  received : option Signal;    (* history: the signal the handler took *)
}.

Definition initial : state :=
  mkState None HSelect RRun None false None 0 None.

(** The atomic steps whose interleaving makes a run. *)
Inductive action :=
| Deliver (s : Signal)          (* [signal.Notify] forwards a signal: a non-blocking send *)
| SelectDone                    (* the select takes [<-routinesCtx.Done()] *)
| SelectSignal                  (* the select takes [s := <-sigs] *)
| HandlerNext                   (* the handler's next statement *)
| RunReturns (err : option error) (* [runner.Run] returns *)
| RunnerNext.                   (* the runner goroutine's next statement *)

(** A goroutine of the errgroup returns [err]: the first non-nil error
    is kept and cancels the group's context. *)
Definition groupReturn (err : option error) (st : state) : state :=
  match err, groupErr st with
  | Some e, None =>
      mkState (sigs st) (handler st) (runnerAt st) (signalErr st) true (Some e)
              (cleanups st) (received st)
  | _, _ => st
  end.

Definition step (a : action) (st : state) : option state :=
  match a, handler st, runnerAt st with
  | Deliver s, _, _ =>
      Some (mkState (if sigs st is None then Some s else sigs st) (handler st) (runnerAt st)
                    (signalErr st) (ctxDone st) (groupErr st) (cleanups st) (received st))
  | SelectDone, HSelect, _ =>
      if ctxDone st then
        Some (groupReturn None
                (mkState (sigs st) HExited (runnerAt st) (signalErr st) (ctxDone st)
                         (groupErr st) (cleanups st) (received st)))
      else None
  | SelectSignal, HSelect, _ =>
      s ← sigs st;
      Some (mkState None (HReceived s) (runnerAt st) (signalErr st) (ctxDone st)
                    (groupErr st) (cleanups st) (Some s))
  | HandlerNext, HReceived s, _ =>
      Some (mkState (sigs st) (HCleanup s) (runnerAt st) (Some (SignalError s)) (ctxDone st)
                    (groupErr st) (cleanups st) (received st))
  | HandlerNext, HCleanup s, _ =>
      Some (mkState (sigs st) (HReturn s) (runnerAt st) (signalErr st) (ctxDone st)
                    (groupErr st) (S (cleanups st)) (received st))
  | HandlerNext, HReturn s, _ =>
      Some (groupReturn (signalErr st)
              (mkState (sigs st) HExited (runnerAt st) (signalErr st) (ctxDone st)
                       (groupErr st) (cleanups st) (received st)))
  | RunReturns err, _, RRun =>
      Some (mkState (sigs st) (handler st) (RDeferred err) (signalErr st) (ctxDone st)
                    (groupErr st) (cleanups st) (received st))
  | RunnerNext, _, RDeferred err =>
      Some (mkState (sigs st) (handler st) (RReturn err) (signalErr st) true
                    (groupErr st) (cleanups st) (received st))
  | RunnerNext, _, RReturn err =>
      Some (groupReturn err
              (mkState (sigs st) (handler st) RExited (signalErr st) (ctxDone st)
                       (groupErr st) (cleanups st) (received st)))
  | _, _, _ => None
  end.

Fixpoint run (acts : list action) (st : state) : option state :=
  match acts with
  | [] => Some st
  | a :: rest => st ← step a st; run rest st
  end.

(** [routines.Wait()] returns once both goroutines have returned; what
    follows it decides the error of [executeRunner] ([None] is [nil]).
    The outer [option] is [None] while [Wait] still blocks. *)
Definition executeRunner (st : state) : option (option error) :=
  match handler st, runnerAt st with
  | HExited, RExited =>
      let err := groupErr st in
      match signalErr st with
      | Some signalErr => Some (Some (SilentError signalErr))
      | None =>
          match err with
          | Some e => if isExecError e then Some (Some (SilentError e)) else Some err
          | None => Some err
          end
      end
  | _, _ => None
  end.

(** An interleaving, seen from outside: the error that [executeRunner]
    returns after it (when both goroutines have returned by then), and
    the signal that the handler took from the channel during it. *)
Definition outcome (acts : list action) : option (option error) :=
  st ← run acts initial; executeRunner st.

Definition receivedSignal (acts : list action) : option Signal :=
  st ← run acts initial; received st.

(** What holds of the handler once it has taken a signal. *)
Definition signalRecorded (st : state) : Prop :=
  ∀ s, received st = Some s →
    match handler st with
    | HSelect => False
    | HReceived s' => s' = s
    | HCleanup s' | HReturn s' => s' = s ∧ signalErr st = Some (SignalError s)
    | HExited => signalErr st = Some (SignalError s)
    end.

(** The context is cancelled once the runner goroutine has run its
    deferred call. *)
Definition cancelledAfterRun (st : state) : Prop :=
  match runnerAt st with
  | RReturn _ | RExited => ctxDone st = true
  | _ => True
  end.

(** The calls of [runner.Cleanup] follow the handler: none before it
    has taken a signal, one once it has made the call. *)
Definition cleanupOnce (st : state) : Prop :=
  match handler st with
  | HSelect => cleanups st = 0%nat ∧ received st = None
  | HReceived _ | HCleanup _ => cleanups st = 0%nat ∧ is_Some (received st)
  | HReturn _ => cleanups st = 1%nat ∧ is_Some (received st)
  | HExited =>
      (cleanups st = 0%nat ∧ received st = None)
      ∨ (cleanups st = 1%nat ∧ is_Some (received st))
  end.

(** The errors that [runner.Run] returned in an interleaving, and what
    [executeRunner] makes of such an error when no signal came in. *)
Definition runErrors (acts : list action) : list (option error) :=
  omap (λ a, match a with RunReturns err => Some err | _ => None end) acts.

Definition silenceExecError (err : option error) : option error :=
  match err with
  | Some e => if isExecError e then Some (SilentError e) else Some e
  | None => None
  end.

(** The state after the interleaving [acts] keeps the error of [Run]:
    [Run] returns once, and as long as the handler has taken no signal
    it stores no error and the errgroup holds at most the error of
    [Run]. *)
Definition runnerErrorKept (acts : list action) (st : state) : Prop :=
  match runnerAt st with
  | RRun => runErrors acts = []
  | RDeferred err | RReturn err => runErrors acts = [err]
  | RExited => ∃ err, runErrors acts = [err] ∧ (received st = None → groupErr st = err)
  end
  ∧ (received st = None →
     signalErr st = None
     ∧ (handler st = HSelect ∨ handler st = HExited)
     ∧ (runnerAt st ≠ RExited → groupErr st = None)).

End Run.

(** *** The process wrapper (process_wrapper.c) *)
Module ProcessWrapper.

(** A [char *]: the null pointer or a string. *)
Inductive ptr := NULL | Ptr (s : string).

(** [argv[i]]: the arguments, then the null pointer that ends the
    vector at index [argc]; beyond that there is nothing to read. *)
Definition argvAt (argv : list string) (i : nat) : option ptr :=
  match argv !! i with
  | Some s => Some (Ptr s)
  | None => if decide (i = length argv) then Some NULL else None
  end.

(** The system calls the program makes, and how it ends: [main]
    returns a status, or [execv] replaces the process image. *)
Inductive call :=
| Chdir (dir : string)
| Execv (path : ptr) (args : list string).

Inductive outcome :=
| Returns (status : Z)
| Replaced (path : string) (args : list string).

(** The host: whether [chdir] to a directory succeeds and whether
    [execv] of a path succeeds. *)
Record Host := mkHost {
  chdir : string → bool;
  execv : string → list string → bool;
}.

(** [main]: the calls made, in order, and the outcome. A null path
    makes [execv] fail. [None] is a read outside of [argv], which cannot
    happen after the argument-count check. *)
Definition main (h : Host) (argv : list string) : option (list call * outcome) :=
  let argc := Z.of_nat (length argv) in
  if decide (argc < 3) then Some ([], Returns 1)
  else
    match argvAt argv 1 with
    | Some (Ptr dir) =>
        if negb (chdir h dir) then Some ([Chdir dir], Returns 1)
        else
          match argvAt argv 3 with
          | Some (Ptr path) =>
              if execv h path (drop 3 argv)
              then Some ([Chdir dir; Execv (Ptr path) (drop 3 argv)], Replaced path (drop 3 argv))
              else Some ([Chdir dir; Execv (Ptr path) (drop 3 argv)], Returns 1)
          | Some NULL => Some ([Chdir dir; Execv NULL (drop 3 argv)], Returns 1)
          | None => None
          end
    | _ => None
    end.

End ProcessWrapper.

(** ** Part II: the properties *)

(** [String.append] does not unfold under [simpl]; these two equations
    push a literal prefix through it. *)
Lemma append_String c s x : String c s +:+ x = String c (s +:+ x).
Proof. done. Qed.

Lemma append_empty x : "" +:+ x = x.
Proof. done. Qed.

Ltac string_app := repeat (rewrite append_String || rewrite append_empty).

Section GoStringsFacts.
Import GoStrings.

Lemma SplitN_no_sep s sep n :
  ContainsRune s sep = false → SplitN s sep (S n) = [s].
Proof.
  revert n. induction s as [|c r IH]; intros n H; simpl in *.
  - by destruct n.
  - destruct n as [|n]; [done|].
    case_decide; [done|]. by rewrite IH.
Qed.

Lemma SplitN_app s sep r n :
  ContainsRune s sep = false →
  SplitN (s +:+ String sep r) sep (S (S n)) = s :: SplitN r sep (S n).
Proof.
  induction s as [|c s IH]; intros H; simpl in *.
  - by rewrite decide_True.
  - case_decide; [done|]. by rewrite IH.
Qed.

Lemma append_assoc' (a b c : string) : (a +:+ b) +:+ c = a +:+ b +:+ c.
Proof. induction a as [|x a IH]; [done|]. string_app. by rewrite IH. Qed.

Lemma append_nonempty_r (a b : string) : b ≠ "" → a +:+ b ≠ "".
Proof. destruct a; [done|]. by string_app. Qed.

Lemma ContainsRune_app a b c :
  ContainsRune (a +:+ b) c = ContainsRune a c || ContainsRune b c.
Proof.
  induction a as [|x a IH]; [done|]. string_app. simpl.
  by case_decide.
Qed.

Lemma Split_no_sep s sep : ContainsRune s sep = false → Split s sep = [s].
Proof.
  induction s as [|c r IH]; intros H; simpl in *; [done|].
  case_decide; [done|]. by rewrite IH.
Qed.

Lemma Split_app s sep r :
  ContainsRune s sep = false → Split (s +:+ String sep r) sep = s :: Split r sep.
Proof.
  induction s as [|c s IH]; intros H; simpl in *.
  - string_app. simpl. by rewrite decide_True.
  - string_app. simpl. case_decide; [done|]. by rewrite IH.
Qed.

(** No field of a split contains the separator. *)
Lemma Split_fields s sep :
  Forall (λ f, ContainsRune f sep = false) (Split s sep).
Proof.
  induction s as [|c r IH]; simpl; [by repeat constructor|].
  case_decide; [by constructor|].
  destruct (Split r sep) as [|h t]; [repeat constructor; simpl; by rewrite decide_False|].
  inversion_clear IH. constructor; [|done]. simpl. by rewrite decide_False.
Qed.

(** Splitting undoes joining when no element contains the separator. *)
Lemma Split_Join l sep :
  l ≠ [] → Forall (λ f, ContainsRune f sep = false) l →
  Split (Join l (String sep "")) sep = l.
Proof.
  induction l as [|e l IH]; [done|]. intros _ H. inversion_clear H.
  destruct l as [|e' l]; simpl.
  - by apply Split_no_sep.
  - string_app. rewrite Split_app by done. f_equal. by apply IH.
Qed.

End GoStringsFacts.

Section EnvutilFacts.
Import GoStrings Envutil.

Lemma CutPrefix_HasPrefix s p : HasPrefix s p = bool_decide (is_Some (CutPrefix s p)).
Proof.
  revert s. induction p as [|c p IH]; intros [|x s]; simpl.
  - done.
  - done.
  - done.
  - by case_decide.
Qed.

Lemma CutPrefix_app p v : CutPrefix (p +:+ v) p = Some v.
Proof.
  induction p as [|c p IH]; [reflexivity|].
  string_app. simpl. by rewrite decide_True.
Qed.

Lemma HasPrefix_app p v : HasPrefix (p +:+ v) p = true.
Proof. rewrite CutPrefix_HasPrefix, CutPrefix_app. by apply bool_decide_eq_true. Qed.

(** Reading a variable back after setting it. *)
Lemma Getenv_setEntry env key value :
  Getenv (setEntry env key value) key = value.
Proof.
  induction env as [|e env IH]; simpl.
  - by rewrite <-append_assoc', CutPrefix_app.
  - rewrite CutPrefix_HasPrefix.
    destruct (CutPrefix e (key +:+ "=")) as [v|] eqn:He; simpl.
    + by rewrite <-append_assoc', CutPrefix_app.
    + by rewrite He.
Qed.

Lemma Getenv_Setenv env key value env' :
  Setenv env key value = Some env' → Getenv env' key = value.
Proof.
  unfold Setenv. repeat case_match; try done. intros [= <-]. apply Getenv_setEntry.
Qed.

End EnvutilFacts.

(** *** Bindings survive serialisation *)
Section BindingRoundTrip.
Import GoStrings Minijail.

Lemma fillTarget_Source b : Source (fillTarget b) = Source b.
Proof. unfold fillTarget. by case_decide. Qed.

Lemma fillTarget_Writable b : Writable (fillTarget b) = Writable b.
Proof. unfold fillTarget. by case_decide. Qed.

Lemma fillTarget_Target b :
  Target (fillTarget b) = if decide (Target b = "") then Source b else Target b.
Proof. unfold fillTarget. by case_decide. Qed.

Lemma String_snd b : (String_ b).2 = fillTarget b.
Proof. done. Qed.

(** The three shapes of a serialised binding, parsed back. *)
Lemma BindingFromString_three src tgt w :
  ContainsRune src "," = false → ContainsRune tgt "," = false →
  ContainsRune w "," = false →
  BindingFromString (src +:+ "," +:+ tgt +:+ "," +:+ w)
  = match Atoi w with
    | Some n => inl (mkBinding src tgt n)
    | None => inr (AtoiError w)
    end.
Proof.
  intros Hs Ht Hw. unfold BindingFromString.
  string_app.
  rewrite (SplitN_app src), (SplitN_app tgt) by done.
  by rewrite SplitN_no_sep.
Qed.

Lemma BindingFromString_two src tgt :
  ContainsRune src "," = false → ContainsRune tgt "," = false →
  BindingFromString (src +:+ "," +:+ tgt) = inl (mkBinding src tgt 0).
Proof.
  intros Hs Ht. unfold BindingFromString.
  string_app.
  rewrite (SplitN_app src) by done.
  by rewrite SplitN_no_sep.
Qed.

Lemma BindingFromString_one src :
  ContainsRune src "," = false →
  BindingFromString src = inl (mkBinding src src 0).
Proof. intros Hs. unfold BindingFromString. by rewrite SplitN_no_sep. Qed.

(** A binding without commas and with a declared writable option is
    parsed back as [String] left it. *)
Lemma BindingFromString_fillTarget (b : Binding) :
  ContainsRune (Source b) "," = false →
  ContainsRune (Target b) "," = false →
  Writable b = ReadOnly ∨ Writable b = ReadWrite →
  BindingFromString (String_ b).1 = inl (fillTarget b).
Proof.
  intros Hs Ht Hw.
  assert (Ht' : ContainsRune (Target (fillTarget b)) "," = false).
  { rewrite fillTarget_Target. by case_decide. }
  unfold String_. cbn [fst].
  destruct (fillTarget b) as [src tgt w] eqn:Hb.
  assert (src = Source b) as -> by (by rewrite <-fillTarget_Source, Hb).
  assert (w = Writable b) as -> by (by rewrite <-fillTarget_Writable, Hb).
  cbn [Source Target Writable] in *.
  destruct Hw as [Hw|Hw]; rewrite Hw.
  - rewrite decide_False by done. rewrite Hs, Ht'. cbn [orb].
    case_decide as Hne.
    + by apply BindingFromString_two.
    + rewrite <-Hne. by apply BindingFromString_one.
  - rewrite decide_True by done.
    by apply (BindingFromString_three _ _ "1").
Qed.

(** C2, as the code has it: a binding whose source and target contain no
    comma and whose writable option is [ReadOnly] or [ReadWrite] is
    parsed back from its [String] form, with the same source, the
    effective target (the source when the target is empty) and the same
    writable option. *)
Theorem BindingFromString_String (b : Binding) :
  ContainsRune (Source b) "," = false →
  ContainsRune (Target b) "," = false →
  Writable b = ReadOnly ∨ Writable b = ReadWrite →
  roundTrips b.
Proof.
  intros Hs Ht Hw. exists (fillTarget b).
  split; [by apply BindingFromString_fillTarget|].
  by rewrite fillTarget_Source, fillTarget_Target, fillTarget_Writable.
Qed.

(** The theorem at a read-write binding without a target. *)
Lemma BindingFromString_String_witness :
  roundTrips (mkBinding "/tmp/out" "" ReadWrite).
Proof. apply BindingFromString_String; [reflexivity | reflexivity | by right]. Defined.

(** C2 as stated fails: a source with a comma forces the three-field
    form, whose third field is then not a number. *)
Lemma BindingFromString_String_comma :
  BindingFromString (String_ (mkBinding "a,b" "c" ReadOnly)).1 = inr (AtoiError "c,0")
  ∧ ¬ roundTrips (mkBinding "a,b" "c" ReadOnly).
Proof.
  split; [reflexivity|].
  intros (b' & H & _). vm_compute in H. discriminate.
Qed.

(** A writable option outside the two declared constants is lost. *)
Example BindingFromString_String_writable :
  BindingFromString (String_ (mkBinding "a" "" 2)).1 = inl (mkBinding "a" "a" 0).
Proof. reflexivity. Qed.

End BindingRoundTrip.

(** *** Bindings handed over in the environment *)
Section BindingsInEnv.
Import GoStrings Envutil Minijail.

Lemma Setenv_bindings env value :
  Setenv env BindingsEnvVarName value = Some (setEntry env BindingsEnvVarName value).
Proof. reflexivity. Qed.

Lemma addAll_Getenv bindings : ∀ env,
  ∃ env', addAll env bindings = inl (env', fillTarget <$> bindings)
          ∧ Getenv env' BindingsEnvVarName
            = foldl extendBindings (Getenv env BindingsEnvVarName)
                    ((λ b, (String_ b).1) <$> bindings).
Proof.
  induction bindings as [|b bindings IH]; intros env; [by exists env|].
  cbn [addAll]. unfold AddMinijailBindingToEnv.
  destruct (String_ b) as [str b'] eqn:Hb.
  assert (b' = fillTarget b) as -> by (by rewrite <-String_snd, Hb).
  rewrite Setenv_bindings.
  destruct (IH (setEntry env BindingsEnvVarName
                  (extendBindings (Getenv env BindingsEnvVarName) str)))
    as (env' & -> & Hget).
  exists env'. split; [done|].
  rewrite Hget, Getenv_setEntry. cbn [fmap list_fmap foldl]. by rewrite Hb.
Qed.

Lemma foldl_extendBindings strs : ∀ acc,
  acc ≠ "" → Forall (λ s, s ≠ "") strs →
  foldl extendBindings acc strs = Join (acc :: strs) ":".
Proof.
  induction strs as [|s strs IH]; intros acc Hacc Hstrs; [done|].
  inversion_clear Hstrs as [|? ? Hs Hrest].
  cbn [foldl]. unfold extendBindings at 2. rewrite decide_False by done.
  rewrite IH; [|by apply append_nonempty_r, append_nonempty_r|done].
  destruct strs as [|s' strs]; [done|].
  cbn [Join]. by rewrite !append_assoc'.
Qed.

Lemma foldl_extendBindings_empty strs :
  Forall (λ s, s ≠ "") strs → foldl extendBindings "" strs = Join strs ":".
Proof.
  destruct strs as [|s strs]; [done|]. intros H. inversion_clear H.
  cbn [foldl]. unfold extendBindings at 2. rewrite decide_True by done.
  by apply foldl_extendBindings.
Qed.

Lemma passable_spec b :
  passable b = true →
  (String_ b).1 ≠ "" ∧ ContainsRune (String_ b).1 ":" = false
  ∧ BindingFromString (String_ b).1 = inl (fillTarget b).
Proof.
  unfold passable. rewrite !andb_true_iff, !negb_true_iff, !bool_decide_eq_true.
  intros ((((? & ?) & ?) & ?) & ?).
  split_and!; [done..|]. by apply BindingFromString_fillTarget.
Qed.

Lemma additionalBindingsLoop_String bindings :
  forallb passable bindings = true →
  additionalBindingsLoop ((λ b, (String_ b).1) <$> bindings) = inl (fillTarget <$> bindings).
Proof.
  induction bindings as [|b bindings IH]; [done|].
  cbn [forallb]. rewrite andb_true_iff. intros [Hb Hrest].
  destruct (passable_spec b Hb) as (Hne & _ & Hparse).
  cbn [fmap list_fmap additionalBindingsLoop].
  rewrite decide_False by done. rewrite Hparse.
  change (list_fmap _ _ ?f ?l) with (f <$> l). by rewrite IH.
Qed.

(** C10, as the code has it: when the variable is unset or empty to
    begin with and every binding is passable, adding the bindings leaves
    their [String] forms joined by colons in the variable, and the loop
    of [NewMinijail] reads the same bindings back. *)
Theorem AddMinijailBindingToEnv_NewMinijail (env : list string) (bindings : list Binding) :
  Getenv env BindingsEnvVarName = "" →
  forallb passable bindings = true →
  passesThroughEnv env bindings.
Proof.
  intros Henv Hok.
  assert (Hall : Forall (λ b, passable b = true) bindings).
  { apply Forall_forall. intros b Hb. by apply (proj1 (forallb_forall _ _) Hok), list_elem_of_In. }
  destruct (addAll_Getenv bindings env) as (env' & Hadd & Hget).
  rewrite Henv, foldl_extendBindings_empty in Hget; last first.
  { apply Forall_fmap. eapply Forall_impl; [done|]. intros b Hb. by apply passable_spec. }
  exists env'. split_and!; [done..|].
  rewrite Hget. unfold additionalBindings.
  destruct bindings as [|b bindings]; [done|].
  rewrite (Split_Join _ ":"); [by apply additionalBindingsLoop_String|done|].
  apply Forall_fmap. eapply Forall_impl; [done|]. intros b' Hb'. by apply passable_spec.
Qed.

(** The theorem at three bindings of the three serialised shapes, added
    to an environment that holds an unrelated variable. *)
Lemma AddMinijailBindingToEnv_NewMinijail_witness :
  passesThroughEnv ["PATH=/bin"]
    [mkBinding "/build" "" ReadOnly; mkBinding "/src" "/dst" ReadOnly;
     mkBinding "/out" "" ReadWrite].
Proof. apply AddMinijailBindingToEnv_NewMinijail; reflexivity. Defined.

(** C10 as stated fails: a value already in the variable stays in front
    of the added bindings and is read back with them. *)
Lemma AddMinijailBindingToEnv_keeps_old_value :
  ¬ passesThroughEnv ["CIFUZZ_MINIJAIL_BINDINGS=/x"] [mkBinding "/a" "" ReadOnly].
Proof.
  intros (env' & Hadd & Hget & _). vm_compute in Hadd.
  injection Hadd as <-. vm_compute in Hget. discriminate.
Qed.

(** A binding whose [String] form is empty leaves no trace. *)
Example AddMinijailBindingToEnv_empty_binding :
  ¬ passesThroughEnv [] [mkBinding "" "" ReadOnly].
Proof.
  intros (env' & Hadd & _ & Hparse). vm_compute in Hadd.
  injection Hadd as <-. vm_compute in Hparse. discriminate.
Qed.

End BindingsInEnv.

(** *** Merging sanitizer options *)
Section SanitizerOptions.
Import GoStrings Runner.

(** For a key without [=], the prefix test of the two loops asks whether
    the option sets that key. *)
Lemma HasPrefix_optionKey k : ∀ opt,
  ContainsRune k "=" = false →
  HasPrefix opt (k +:+ "=") = bool_decide (optionKey opt = Some k).
Proof.
  induction k as [|x k IH]; intros opt Hk.
  - string_app. destruct opt as [|c r]; simpl; [done|].
    case_decide; [done|]. by destruct (optionKey r).
  - simpl in Hk. case_decide as Hx; [done|]. string_app.
    destruct opt as [|c r]; simpl; [done|].
    destruct (decide (c = x)) as [->|Hc].
    + rewrite decide_False by done. rewrite IH by done.
      destruct (optionKey r) as [k'|]; simpl; [|done].
      apply bool_decide_ext. naive_solver.
    + symmetry. apply bool_decide_eq_false. case_decide; [naive_solver|].
      destruct (optionKey r); naive_solver.
Qed.

Lemma optionKey_entry k v :
  ContainsRune k "=" = false → optionKey (k +:+ "=" +:+ v) = Some k.
Proof.
  induction k as [|x k IH]; intros Hk; [reflexivity|].
  rewrite append_String. simpl in *.
  destruct (decide (x = "="%char)); [done|]. by rewrite IH.
Qed.

Lemma existsb_optionKey options k :
  ContainsRune k "=" = false →
  existsb (λ opt, HasPrefix opt (k +:+ "=")) options = bool_decide (k ∈ keysOf options).
Proof.
  intros Hk. induction options as [|opt options IH]; simpl; [done|].
  rewrite IH, HasPrefix_optionKey by done. unfold keysOf. cbn [omap list_omap].
  destruct (optionKey opt) as [k'|] eqn:Hopt; simpl.
  - destruct (decide (k' = k)) as [->|Hne].
    + rewrite bool_decide_eq_true_2 by done. simpl.
      symmetry. apply bool_decide_eq_true. by left.
    + rewrite bool_decide_eq_false_2 by congruence. simpl.
      apply bool_decide_ext. rewrite elem_of_cons.
      split; [by right|]. intros [->|?]; done.
  - done.
Qed.

Lemma keysOf_app l1 l2 : keysOf (l1 ++ l2) = keysOf l1 ++ keysOf l2.
Proof. apply omap_app. Qed.

Lemma elem_of_keysOf k options :
  k ∈ keysOf options ↔ ∃ opt, opt ∈ options ∧ optionKey opt = Some k.
Proof. apply list_elem_of_omap. Qed.

(** **** One default *)

Lemma setDefault_keys options k v :
  ContainsRune k "=" = false →
  keysOf (setDefaultIfNotSetAlready options k v)
  = if bool_decide (k ∈ keysOf options) then keysOf options else keysOf options ++ [k].
Proof.
  intros Hk. unfold setDefaultIfNotSetAlready. rewrite existsb_optionKey by done.
  case_bool_decide; [done|].
  rewrite keysOf_app. unfold keysOf at 2. cbn [omap list_omap].
  by rewrite optionKey_entry.
Qed.

Lemma setDefault_incl options k v opt :
  opt ∈ options → opt ∈ setDefaultIfNotSetAlready options k v.
Proof.
  unfold setDefaultIfNotSetAlready. case_match; [done|]. set_solver.
Qed.

Lemma setDefault_new options k v :
  ContainsRune k "=" = false → k ∉ keysOf options →
  (k +:+ "=" +:+ v) ∈ setDefaultIfNotSetAlready options k v.
Proof.
  intros Hk Hnot. unfold setDefaultIfNotSetAlready. rewrite existsb_optionKey by done.
  rewrite bool_decide_eq_false_2 by done. set_solver.
Qed.

(** **** One override *)

Lemma override_keys options k v :
  ContainsRune k "=" = false →
  keysOf (overrideOption options k v)
  = if bool_decide (k ∈ keysOf options) then keysOf options else keysOf options ++ [k].
Proof.
  intros Hk. induction options as [|opt options IH]; simpl.
  - unfold keysOf. cbn [omap list_omap]. by rewrite optionKey_entry.
  - rewrite HasPrefix_optionKey by done. unfold keysOf in *.
    destruct (decide (optionKey opt = Some k)) as [Hopt|Hopt].
    + rewrite (bool_decide_eq_true_2 _ Hopt).
      cbn [omap list_omap]. rewrite optionKey_entry, Hopt by done.
      rewrite bool_decide_eq_true_2; [done|by left].
    + rewrite (bool_decide_eq_false_2 _ Hopt).
      cbn [omap list_omap]. rewrite IH.
      destruct (optionKey opt) as [k'|]; [|done].
      rewrite (bool_decide_ext (k ∈ k' :: _) (k ∈ omap optionKey options)).
      * by case_bool_decide.
      * rewrite elem_of_cons. split; [|by right]. intros [->|?]; done.
Qed.

Lemma override_set options k v :
  (k +:+ "=" +:+ v) ∈ overrideOption options k v.
Proof.
  induction options as [|opt options IH]; simpl; [set_solver|].
  case_match; set_solver.
Qed.

Lemma override_other options k v opt :
  ContainsRune k "=" = false → opt ∈ options → optionKey opt ≠ Some k →
  opt ∈ overrideOption options k v.
Proof.
  intros Hk Hin Hopt. induction options as [|o options IH]; simpl.
  { by apply elem_of_nil in Hin. }
  rewrite HasPrefix_optionKey by done.
  apply elem_of_cons in Hin as [<-|Hin].
  - rewrite bool_decide_eq_false_2 by done. by left.
  - case_bool_decide; right; auto.
Qed.

End SanitizerOptions.

Section SanitizerMerge.
Import GoStrings Runner.

Local Abbreviation applyDefaults :=
  (foldl (λ options kv, setDefaultIfNotSetAlready options kv.1 kv.2)).
Local Abbreviation applyOverrides :=
  (foldl (λ options kv, overrideOption options kv.1 kv.2)).
Local Abbreviation colonFree := (λ s : string, ContainsRune s ":" = false).

Lemma plainEntry_spec kv :
  plainEntry kv = true →
  ContainsRune kv.1 "=" = false ∧ ContainsRune kv.1 ":" = false
  ∧ ContainsRune kv.2 ":" = false.
Proof.
  unfold plainEntry. rewrite !andb_true_iff, !negb_true_iff. tauto.
Qed.

Lemma plainEntries_Forall kvs :
  forallb plainEntry kvs = true → Forall (λ kv, plainEntry kv = true) kvs.
Proof.
  intros H. apply Forall_forall. intros kv Hkv.
  by apply (proj1 (forallb_forall _ _) H), list_elem_of_In.
Qed.

Lemma entry_colonFree kv :
  plainEntry kv = true → ContainsRune (kv.1 +:+ "=" +:+ kv.2) ":" = false.
Proof.
  intros (_ & Hk & Hv)%plainEntry_spec.
  by rewrite !ContainsRune_app, Hk, Hv.
Qed.

Lemma entry_nonempty k v : k +:+ "=" +:+ v ≠ "".
Proof. by apply append_nonempty_r. Qed.

(** Adding a key that is not there keeps the keys distinct. *)
Lemma NoDup_add_key (keys : list string) k :
  NoDup keys → NoDup (if bool_decide (k ∈ keys) then keys else keys ++ [k]).
Proof.
  intros Hnd. case_bool_decide; [done|].
  apply NoDup_app. split_and!; [done| |apply NoDup_singleton].
  intros x Hx ->%list_elem_of_singleton. done.
Qed.

Lemma not_elem_of_add_key (keys : list string) k k' :
  k' ≠ k → k' ∉ keys → k' ∉ (if bool_decide (k ∈ keys) then keys else keys ++ [k]).
Proof.
  intros Hne Hnot. case_bool_decide; [done|].
  rewrite elem_of_app, list_elem_of_singleton. tauto.
Qed.

(** **** The loop over the defaults *)

Lemma applyDefaults_incl ds : ∀ options opt,
  opt ∈ options → opt ∈ applyDefaults options ds.
Proof.
  induction ds as [|[k v] ds IH]; intros options opt Hin; [done|].
  apply IH. by apply setDefault_incl.
Qed.

Lemma applyDefaults_NoDup ds : ∀ options,
  Forall (λ kv, plainEntry kv = true) ds →
  NoDup (keysOf options) → NoDup (keysOf (applyDefaults options ds)).
Proof.
  induction ds as [|[k v] ds IH]; intros options Hds Hnd; [done|].
  inversion_clear Hds as [|? ? (Hk & _)%plainEntry_spec Hrest].
  apply IH; [done|]. cbn [fst snd]. rewrite setDefault_keys by done.
  by apply NoDup_add_key.
Qed.

Lemma applyDefaults_colonFree ds : ∀ options,
  Forall (λ kv, plainEntry kv = true) ds →
  Forall colonFree options → Forall colonFree (applyDefaults options ds).
Proof.
  induction ds as [|[k v] ds IH]; intros options Hds Hopts; [done|].
  inversion_clear Hds as [|? ? Hkv Hrest].
  apply IH; [done|]. cbn [fst snd]. unfold setDefaultIfNotSetAlready.
  case_match; [done|]. apply Forall_app. split; [done|].
  constructor; [|done]. by apply (entry_colonFree (k, v)).
Qed.

Lemma applyDefaults_new ds : ∀ options k v,
  Forall (λ kv, plainEntry kv = true) ds → NoDup ds.*1 →
  (k, v) ∈ ds → k ∉ keysOf options →
  (k +:+ "=" +:+ v) ∈ applyDefaults options ds.
Proof.
  induction ds as [|[k1 v1] ds IH]; intros options k v Hds Hnd Hin Hnot.
  { by apply elem_of_nil in Hin. }
  inversion_clear Hds as [|? ? (Hk1 & _)%plainEntry_spec Hrest].
  cbn [fmap list_fmap fst] in Hnd. apply NoDup_cons in Hnd as [Hk1not Hnd].
  apply elem_of_cons in Hin as [[= -> ->]|Hin]; cbn [foldl fst snd].
  - apply applyDefaults_incl. by apply setDefault_new.
  - apply IH; [done..|]. rewrite setDefault_keys by done.
    apply not_elem_of_add_key; [|done]. intros ->. apply Hk1not.
    by apply (list_elem_of_fmap_2 fst _ (k1, v)).
Qed.

(** **** The loop over the overrides *)

Lemma applyOverrides_NoDup os : ∀ options,
  Forall (λ kv, plainEntry kv = true) os →
  NoDup (keysOf options) → NoDup (keysOf (applyOverrides options os)).
Proof.
  induction os as [|[k v] os IH]; intros options Hos Hnd; [done|].
  inversion_clear Hos as [|? ? (Hk & _)%plainEntry_spec Hrest].
  apply IH; [done|]. cbn [fst snd]. rewrite override_keys by done.
  by apply NoDup_add_key.
Qed.

Lemma overrideOption_colonFree options k v :
  plainEntry (k, v) = true →
  Forall colonFree options → Forall colonFree (overrideOption options k v).
Proof.
  intros Hkv%entry_colonFree. induction 1 as [|opt options Hopt Hrest IH]; simpl.
  - by repeat constructor.
  - case_match; constructor; done.
Qed.

Lemma applyOverrides_colonFree os : ∀ options,
  Forall (λ kv, plainEntry kv = true) os →
  Forall colonFree options → Forall colonFree (applyOverrides options os).
Proof.
  induction os as [|[k v] os IH]; intros options Hos Hopts; [done|].
  inversion_clear Hos as [|? ? Hkv Hrest].
  apply IH; [done|]. by apply overrideOption_colonFree.
Qed.

Lemma applyOverrides_other os : ∀ options opt k,
  Forall (λ kv, plainEntry kv = true) os →
  opt ∈ options → optionKey opt = Some k → k ∉ os.*1 →
  opt ∈ applyOverrides options os.
Proof.
  induction os as [|[k1 v1] os IH]; intros options opt k Hos Hin Hkey Hnot; [done|].
  inversion_clear Hos as [|? ? (Hk1 & _)%plainEntry_spec Hrest].
  cbn [fmap list_fmap fst] in Hnot. apply not_elem_of_cons in Hnot as [Hne Hnot].
  cbn [foldl fst snd]. eapply IH; [done| |done..].
  apply override_other; [done..|]. congruence.
Qed.

Lemma applyOverrides_set os : ∀ options k v,
  Forall (λ kv, plainEntry kv = true) os → NoDup os.*1 →
  (k, v) ∈ os → (k +:+ "=" +:+ v) ∈ applyOverrides options os.
Proof.
  induction os as [|[k1 v1] os IH]; intros options k v Hos Hnd Hin.
  { by apply elem_of_nil in Hin. }
  inversion_clear Hos as [|? ? (Hk1 & _)%plainEntry_spec Hrest].
  cbn [fmap list_fmap fst] in Hnd. apply NoDup_cons in Hnd as [Hk1not Hnd].
  apply elem_of_cons in Hin as [[= -> ->]|Hin]; cbn [foldl fst snd].
  - eapply applyOverrides_other; [done|apply override_set| |done].
    by apply optionKey_entry.
  - by apply IH.
Qed.

(** **** Joining the options and reading them back *)

Lemma keysOf_nonEmpty options : keysOf (filter (λ e, e ≠ "") options) = keysOf options.
Proof.
  induction options as [|opt options IH]; [done|].
  unfold keysOf in *. destruct (decide (opt = "")) as [->|Hne].
  - by rewrite filter_cons_False by naive_solver.
  - rewrite filter_cons_True by done. cbn [omap list_omap]. by rewrite IH.
Qed.

Lemma optionsOf_JoinNonEmpty options :
  Forall colonFree options →
  optionsOf (Stringutil.JoinNonEmpty options ":") =
    match filter (λ e, e ≠ "") options with
    | [] => [""]
    | nonEmpty => nonEmpty
    end.
Proof.
  intros Hopts. unfold optionsOf, Stringutil.JoinNonEmpty.
  assert (Forall colonFree (filter (λ e, e ≠ "") options)) as Hfiltered.
  { apply Forall_forall. intros opt [_ Hin]%list_elem_of_filter.
    by apply (proj1 (Forall_forall _ _) Hopts). }
  destruct (filter _ options) as [|opt rest] eqn:Hf; [done|].
  by apply (Split_Join _ ":").
Qed.

Lemma optionsOf_JoinNonEmpty_elem options opt :
  Forall colonFree options → opt ≠ "" → opt ∈ options →
  opt ∈ optionsOf (Stringutil.JoinNonEmpty options ":").
Proof.
  intros Hopts Hne Hin. rewrite optionsOf_JoinNonEmpty by done.
  assert (opt ∈ filter (λ e, e ≠ "") options) as Hf by (by apply list_elem_of_filter).
  destruct (filter _ options); [by apply elem_of_nil in Hf|done].
Qed.

Lemma keysOf_JoinNonEmpty options :
  Forall colonFree options →
  keysOf (optionsOf (Stringutil.JoinNonEmpty options ":")) = keysOf options.
Proof.
  intros Hopts. rewrite optionsOf_JoinNonEmpty, <-(keysOf_nonEmpty options) by done.
  by destruct (filter _ options).
Qed.

(** **** Visiting orders of a map *)

Lemma ranges_NoDup m kvs : ranges m kvs → NoDup kvs.*1.
Proof. intros ->. apply NoDup_fst_map_to_list. Qed.

Lemma ranges_elem m kvs k v : ranges m kvs → (k, v) ∈ kvs ↔ m !! k = Some v.
Proof. intros ->. apply elem_of_map_to_list. Qed.

Lemma ranges_not_elem m kvs k : ranges m kvs → m !! k = None → k ∉ kvs.*1.
Proof.
  intros Hr Hk ([k' v] & -> & Hin)%list_elem_of_fmap.
  apply (ranges_elem m) in Hin; [|done]. simpl in Hk. congruence.
Qed.

(** **** The whole function, on given visiting orders *)

Lemma SetSanitizerOptions_spec (existing : string) (ds os : list (string * string)) :
  Forall (λ kv, plainEntry kv = true) ds → Forall (λ kv, plainEntry kv = true) os →
  NoDup ds.*1 → NoDup os.*1 →
  let result := SetSanitizerOptions existing ds os in
  (∀ k v, (k, v) ∈ os → (k +:+ "=" +:+ v) ∈ optionsOf result)
  ∧ (∀ opt k, opt ∈ optionsOf existing → optionKey opt = Some k → k ∉ os.*1 →
              opt ∈ optionsOf result)
  ∧ (∀ k v, (k, v) ∈ ds → k ∉ os.*1 → k ∉ keysOf (optionsOf existing) →
            (k +:+ "=" +:+ v) ∈ optionsOf result)
  ∧ (NoDup (keysOf (optionsOf existing)) → NoDup (keysOf (optionsOf result))).
Proof.
  intros Hds Hos Hndd Hndo. unfold SetSanitizerOptions. fold (optionsOf existing).
  set (E := optionsOf existing) in *.
  assert (Forall colonFree E) as HE by apply Split_fields.
  assert (Forall colonFree (applyOverrides (applyDefaults E ds) os)) as Hfree.
  { by apply applyOverrides_colonFree, applyDefaults_colonFree. }
  cbn zeta. split_and!.
  - intros k v Hk.
    apply optionsOf_JoinNonEmpty_elem; [done|apply entry_nonempty|].
    by apply applyOverrides_set.
  - intros opt k Hin Hkey Hk.
    apply optionsOf_JoinNonEmpty_elem; [done|by intros ->|].
    eapply applyOverrides_other; [done| |done..].
    by apply applyDefaults_incl.
  - intros k v Hk HkO Hnot.
    assert (plainEntry (k, v) = true) as (Hkeq & _)%plainEntry_spec.
    { by apply (proj1 (Forall_forall _ _) Hds). }
    apply optionsOf_JoinNonEmpty_elem; [done|apply entry_nonempty|].
    eapply applyOverrides_other; [done| |by apply optionKey_entry|done].
    by apply applyDefaults_new.
  - intros Hnd. rewrite keysOf_JoinNonEmpty by done.
    by apply applyOverrides_NoDup, applyDefaults_NoDup.
Qed.

(** C1, as the code has it: when the existing string sets no key twice
    and the entries of both maps are plain (no [=] or [:] in a key, no
    [:] in a value), then whatever the orders in which the two loops
    visit the maps, the result of [SetSanitizerOptions] sets every
    override, keeps every existing option whose key is not overridden,
    sets every default whose key is neither overridden nor set already,
    and sets no key twice. *)
Theorem SetSanitizerOptions_merge (existing : string) (D O : gmap string string)
    (ds os : list (string * string)) :
  ranges D ds → ranges O os →
  forallb plainEntry ds = true → forallb plainEntry os = true →
  NoDup (keysOf (optionsOf existing)) →
  mergesOptions existing D O (SetSanitizerOptions existing ds os).
Proof.
  intros HD HO Hds%plainEntries_Forall Hos%plainEntries_Forall Hnd.
  destruct (SetSanitizerOptions_spec existing ds os) as (Hset & Hkeep & Hdef & Honce);
    [done..|by eapply ranges_NoDup|by eapply ranges_NoDup|].
  split_and!.
  - intros k v Hk%(ranges_elem O os); [|done]. by apply Hset.
  - intros opt k Hin Hkey Hk. eapply Hkeep; [done..|]. by eapply ranges_not_elem.
  - intros k v Hk%(ranges_elem D ds) HkO Hnot; [|done].
    apply Hdef; [done| |done]. by eapply ranges_not_elem.
  - by apply Honce.
Qed.

(** The theorem at an existing string with two options, one of them
    overridden, and a default that is missing. *)
Lemma SetSanitizerOptions_merge_witness :
  mergesOptions "exitcode=1:detect_leaks=0"
    {[ "color" := "never" ]} {[ "exitcode" := "78" ]}
    (SetSanitizerOptions "exitcode=1:detect_leaks=0"
       (map_to_list {[ "color" := "never" ]}) (map_to_list {[ "exitcode" := "78" ]})).
Proof.
  apply SetSanitizerOptions_merge;
    [by unfold ranges | by unfold ranges | reflexivity | reflexivity |].
  compute_done.
Defined.

(** Why the entries have to be plain: a key with [=] is taken for
    another key followed by a value, and a value with [:] reads back as
    two options. *)
Example SetSanitizerOptions_key_with_equals :
  SetSanitizerOptions "" [("a", "b=1"); ("a=b", "2")] [] = "a=b=1".
Proof. reflexivity. Qed.

Example SetSanitizerOptions_value_with_colon :
  keysOf (optionsOf (SetSanitizerOptions "" [] [("a", "1:a=2")])) = ["a"; "a"].
Proof. reflexivity. Qed.

(** An override replaces the first option that sets its key and leaves
    a later one for the same key in place. *)
Example SetSanitizerOptions_overrides_first :
  SetSanitizerOptions "exitcode=1:exitcode=2" [] [("exitcode", "78")]
  = "exitcode=78:exitcode=2".
Proof. reflexivity. Qed.

(** C1 as stated fails: a key that the existing string sets twice is
    still set twice in the result. *)
Lemma SetSanitizerOptions_keeps_duplicates :
  SetSanitizerOptions "a=1:a=2" (map_to_list ∅) (map_to_list ∅) = "a=1:a=2"
  ∧ ¬ mergesOptions "a=1:a=2" ∅ ∅
        (SetSanitizerOptions "a=1:a=2" (map_to_list ∅) (map_to_list ∅)).
Proof.
  split; [reflexivity|]. intros (_ & _ & _ & Hnd).
  vm_compute in Hnd. apply NoDup_cons in Hnd as [Hnd _]. apply Hnd. by left.
Qed.

End SanitizerMerge.

(** *** The sanitizer environment *)
Section SanitizerEnv.
Import GoStrings Envutil Runner.

Lemma CutPrefix_other_key e key :
  ContainsRune key "=" = false → optionKey e ≠ Some key →
  CutPrefix e (key +:+ "=") = None.
Proof.
  intros Hkey He.
  assert (HasPrefix e (key +:+ "=") = false) as Hpre.
  { rewrite HasPrefix_optionKey by done. by apply bool_decide_eq_false. }
  rewrite CutPrefix_HasPrefix in Hpre. apply bool_decide_eq_false in Hpre.
  destruct (CutPrefix e (key +:+ "=")); [|done]. by destruct Hpre.
Qed.

(** Setting one variable leaves the others as they are. *)
Lemma Getenv_setEntry_other env key key' value :
  key ≠ key' → ContainsRune key "=" = false → ContainsRune key' "=" = false →
  Getenv (setEntry env key value) key' = Getenv env key'.
Proof.
  intros Hne Hkey Hkey'. induction env as [|e env IH]; simpl.
  - rewrite CutPrefix_other_key; [done..|]. rewrite optionKey_entry by done. congruence.
  - rewrite HasPrefix_optionKey by done. case_bool_decide as He; simpl.
    + rewrite !CutPrefix_other_key; [done|done| |done|].
      * congruence.
      * rewrite optionKey_entry by done. congruence.
    + by rewrite IH.
Qed.

Lemma ranges_plain m kvs :
  ranges m kvs → forallb plainEntry (map_to_list m) = true →
  Forall (λ kv, plainEntry kv = true) kvs.
Proof. intros -> H. by apply plainEntries_Forall. Qed.

(** C5, as the code has it: after [SetCommonASANOptions] and
    [SetCommonUBSANOptions], whatever the environment was, [ASAN_OPTIONS]
    contains [exitcode=78] and [log_path=stderr] and [UBSAN_OPTIONS]
    contains [log_path=stderr] (it gets no [exitcode]); the other
    options of both variables are kept; [color] (and for UBSan
    [print_stacktrace=1]) is added when the variable did not set it; and
    a variable that set no key twice still sets no key twice, so that a
    replaced value is gone and a default never doubles an option. *)
Theorem SetCommonSanitizerOptions_env (stderrIsTerminal : bool) (env : list string)
    (asanDefaults asanOverrides ubsanDefaults ubsanOverrides : list (string * string)) :
  ranges (commonASANDefaults stderrIsTerminal) asanDefaults →
  ranges commonASANOverrides asanOverrides →
  ranges (commonUBSANDefaults stderrIsTerminal) ubsanDefaults →
  ranges commonUBSANOverrides ubsanOverrides →
  ∃ env1 env2,
    SetCommonASANOptions env asanDefaults asanOverrides = Some env1
    ∧ SetCommonUBSANOptions env1 ubsanDefaults ubsanOverrides = Some env2
    ∧ sanitizerEnv stderrIsTerminal env env2.
Proof.
  intros HAd HAo HUd HUo.
  unfold SetCommonASANOptions, SetASANOptions, SetCommonUBSANOptions.
  set (asan := Getenv env "ASAN_OPTIONS").
  set (ubsan := Getenv env "UBSAN_OPTIONS").
  set (env1 := setEntry env "ASAN_OPTIONS" (SetSanitizerOptions asan asanDefaults asanOverrides)).
  assert (Getenv env1 "UBSAN_OPTIONS" = ubsan) as Hubsan by (by apply Getenv_setEntry_other).
  set (env2 := setEntry env1 "UBSAN_OPTIONS"
                 (SetSanitizerOptions ubsan ubsanDefaults ubsanOverrides)).
  exists env1, env2. split; [done|]. split; [by rewrite Hubsan|].
  assert (Getenv env2 "ASAN_OPTIONS" = SetSanitizerOptions asan asanDefaults asanOverrides)
    as Hasan'.
  { unfold env2. rewrite Getenv_setEntry_other by done. apply Getenv_setEntry. }
  assert (Getenv env2 "UBSAN_OPTIONS" = SetSanitizerOptions ubsan ubsanDefaults ubsanOverrides)
    as Hubsan' by apply Getenv_setEntry.
  destruct (SetSanitizerOptions_spec asan asanDefaults asanOverrides)
    as (HAset & HAkeep & HAdef & HAonce);
    [ apply (ranges_plain (commonASANDefaults stderrIsTerminal));
        [done|by destruct stderrIsTerminal]
    | by apply (ranges_plain commonASANOverrides)
    | by eapply ranges_NoDup | by eapply ranges_NoDup |].
  destruct (SetSanitizerOptions_spec ubsan ubsanDefaults ubsanOverrides)
    as (HUset & HUkeep & HUdef & HUonce);
    [ apply (ranges_plain (commonUBSANDefaults stderrIsTerminal));
        [done|by destruct stderrIsTerminal]
    | by apply (ranges_plain commonUBSANOverrides)
    | by eapply ranges_NoDup | by eapply ranges_NoDup |].
  unfold sanitizerEnv, mandatoryOptions, keepsOptions, setsIfMissing, setsOnce.
  fold asan ubsan. rewrite Hasan', Hubsan'.
  split_and!.
  - by apply (HAset "exitcode" "78"), (ranges_elem commonASANOverrides).
  - by apply (HAset "log_path" "stderr"), (ranges_elem commonASANOverrides).
  - by apply (HUset "log_path" "stderr"), (ranges_elem commonUBSANOverrides).
  - intros opt k Hin Hkey Hk. eapply HAkeep; [done..|].
    eapply ranges_not_elem; [done|]. unfold commonASANOverrides.
    rewrite lookup_insert_ne, lookup_singleton_ne; set_solver.
  - intros opt k Hin Hkey Hk. eapply HUkeep; [done..|].
    eapply ranges_not_elem; [done|]. unfold commonUBSANOverrides.
    rewrite lookup_singleton_ne; set_solver.
  - intros Hnot. apply HAdef; [|by eapply ranges_not_elem|done].
    by apply (ranges_elem (commonASANDefaults stderrIsTerminal)).
  - intros Hnot. apply HUdef; [|by eapply ranges_not_elem|done].
    apply (ranges_elem (commonUBSANDefaults stderrIsTerminal)); [done|].
    by destruct stderrIsTerminal.
  - intros Hnot. apply HUdef; [|by eapply ranges_not_elem|done].
    apply (ranges_elem (commonUBSANDefaults stderrIsTerminal)); [done|].
    by destruct stderrIsTerminal.
  - done.
  - done.
Qed.

(** The theorem at an environment in which the user has set both
    variables. *)
Lemma SetCommonSanitizerOptions_env_witness :
  ∃ env1 env2,
    SetCommonASANOptions
      ["ASAN_OPTIONS=exitcode=1:color=auto"; "UBSAN_OPTIONS=log_path=/tmp/x"]
      (map_to_list (commonASANDefaults false)) (map_to_list commonASANOverrides) = Some env1
    ∧ SetCommonUBSANOptions env1
        (map_to_list (commonUBSANDefaults false)) (map_to_list commonUBSANOverrides) = Some env2
    ∧ sanitizerEnv false
        ["ASAN_OPTIONS=exitcode=1:color=auto"; "UBSAN_OPTIONS=log_path=/tmp/x"] env2.
Proof. apply SetCommonSanitizerOptions_env; by unfold ranges. Defined.

(** C5 as stated fails: from the empty environment, [UBSAN_OPTIONS]
    ends up without [exitcode=78]. *)
Lemma SetCommonUBSANOptions_no_exitcode :
  ∃ env1 env2,
    SetCommonASANOptions []
      (map_to_list (commonASANDefaults false)) (map_to_list commonASANOverrides) = Some env1
    ∧ SetCommonUBSANOptions env1
        (map_to_list (commonUBSANDefaults false)) (map_to_list commonUBSANOverrides) = Some env2
    ∧ env2 = ["ASAN_OPTIONS=color=never:exitcode=78:log_path=stderr";
              "UBSAN_OPTIONS=color=never:print_stacktrace=1:log_path=stderr"]
    ∧ ¬ mandatoryOptions (Getenv env2 "UBSAN_OPTIONS").
Proof.
  do 2 eexists. split_and!; [reflexivity..|].
  intros [H _]. vm_compute in H.
  repeat (apply elem_of_cons in H as [H|H]; [discriminate|]).
  by apply elem_of_nil in H.
Qed.

End SanitizerEnv.

(** *** The CMake build directory *)
Section CmakeBuildDir.
Import GoStrings.

Lemma Join_cons e l sep : l ≠ [] → Join (e :: l) sep = e +:+ sep +:+ Join l sep.
Proof. by destruct l. Qed.

Lemma Join_app l1 l2 sep :
  l1 ≠ [] → l2 ≠ [] → Join (l1 ++ l2) sep = Join l1 sep +:+ sep +:+ Join l2 sep.
Proof.
  intros H1 H2. induction l1 as [|e l1 IH]; [done|].
  destruct l1 as [|e' l1].
  - simpl app. by rewrite Join_cons.
  - change (Join ((e :: e' :: l1) ++ l2) sep)
      with (e +:+ sep +:+ Join ((e' :: l1) ++ l2) sep).
    rewrite IH by done. cbn [Join]. by rewrite !append_assoc'.
Qed.

Lemma Split_nonempty s sep : Split s sep ≠ [].
Proof. destruct s; simpl; [done|]. by repeat case_match. Qed.

Lemma Join_String_head c h t sep :
  Join (String c h :: t) sep = String c (Join (h :: t) sep).
Proof. by destruct t. Qed.

Lemma Split_sep_head r sep : Split (String sep r) sep = "" :: Split r sep.
Proof. simpl. by rewrite decide_True. Qed.

(** Joining undoes splitting. *)
Lemma Join_Split s sep : Join (Split s sep) (String sep "") = s.
Proof.
  induction s as [|c r IH]; [done|]. simpl.
  pose proof (Split_nonempty r sep) as Hne. case_decide as Hc.
  - subst c. rewrite Join_cons by done. by rewrite IH.
  - destruct (Split r sep) as [|h t]; [done|].
    by rewrite Join_String_head, IH.
Qed.

Lemma plainElem_spec e :
  Filepath.plainElem e = true →
  e ≠ "" ∧ e ≠ "." ∧ e ≠ ".." ∧ ContainsRune e "/" = false.
Proof.
  unfold Filepath.plainElem. rewrite andb_true_iff, negb_true_iff, bool_decide_eq_true. tauto.
Qed.

(** Plain elements go through [Clean] untouched. *)
Lemma cleanElems_plain rooted elems : ∀ stack,
  forallb Filepath.plainElem elems = true →
  Filepath.cleanElems rooted stack elems = reverse stack ++ elems.
Proof.
  induction elems as [|e elems IH]; intros stack Hall; simpl.
  - by rewrite app_nil_r.
  - cbn [forallb] in Hall. apply andb_true_iff in Hall as [(? & ? & ? & _)%plainElem_spec Hall].
    rewrite decide_False by (by intros [?|?]). rewrite decide_False by done.
    rewrite IH by done. by rewrite reverse_cons, <-app_assoc.
Qed.

Lemma Join_plain_nonempty elems :
  elems ≠ [] → forallb Filepath.plainElem elems = true → Join elems "/" ≠ "".
Proof.
  destruct elems as [|e elems]; [done|]. intros _ Hall. cbn [forallb] in Hall.
  apply andb_true_iff in Hall as [(? & _)%plainElem_spec _].
  destruct elems; [done|]. cbn [Join]. by destruct e.
Qed.

Lemma HasPrefix_Join_plain elems :
  forallb Filepath.plainElem elems = true → HasPrefix (Join elems "/") "/" = false.
Proof.
  destruct elems as [|e elems]; [done|]. intros Hall. cbn [forallb] in Hall.
  apply andb_true_iff in Hall as [(? & _ & _ & Hslash)%plainElem_spec _].
  destruct e as [|c e]; [done|]. simpl in Hslash. case_decide; [done|].
  destruct elems; cbn [Join]; string_app; simpl; by rewrite decide_False.
Qed.

(** [Clean] is the identity on a path made of plain elements. *)
Lemma Clean_plain (rooted : bool) elems :
  elems ≠ [] → forallb Filepath.plainElem elems = true →
  Filepath.Clean ((if rooted then "/" else "") +:+ Join elems "/")
  = (if rooted then "/" else "") +:+ Join elems "/".
Proof.
  intros Hne Hall. unfold Filepath.Clean.
  assert (Forall (λ f, ContainsRune f "/" = false) elems) as Hfree.
  { apply Forall_forall. intros e He.
    by apply plainElem_spec, (proj1 (forallb_forall _ _) Hall), list_elem_of_In. }
  destruct rooted; string_app.
  - change (HasPrefix (String "/" (Join elems "/")) "/") with true.
    rewrite Split_sep_head, (Split_Join _ "/") by done. simpl.
    rewrite cleanElems_plain by done. by string_app.
  - rewrite HasPrefix_Join_plain, (Split_Join _ "/") by done.
    rewrite cleanElems_plain by done. string_app. simpl.
    by rewrite decide_False by (by apply Join_plain_nonempty).
Qed.

(** A clean path is a join of plain elements, after a slash when it is
    absolute. *)
Lemma cleanPath_elems path :
  Filepath.cleanPath path = true →
  ∃ (rooted : bool) elems,
    elems ≠ [] ∧ forallb Filepath.plainElem elems = true
    ∧ path = (if rooted then "/" else "") +:+ Join elems "/".
Proof.
  unfold Filepath.cleanPath. intros H.
  pose proof (Join_Split path "/") as Hjoin.
  destruct (Split path "/") as [|e elems] eqn:Hsplit; [by apply Split_nonempty in Hsplit|].
  destruct (decide (e = "")) as [->|He].
  - destruct elems as [|e' elems]; [done|].
    exists true, (e' :: elems). split_and!; [done..|].
    by rewrite <-Hjoin, Join_cons.
  - exists false, (e :: elems). split_and!; [done| |by rewrite <-Hjoin].
    destruct e; [done|]. done.
Qed.

(** C8, as the code has it: for a clean project directory and an engine
    and a sanitizers segment that are plain path elements, the build
    directory is [<project>/.cifuzz-build/<engine>/<segment>], where the
    segment is the sanitizers joined with [+], or [none] when that is
    empty. *)
Theorem BuildDir_path (b : Cmake.BuilderOptions) :
  Filepath.cleanPath (Cmake.ProjectDir b) = true →
  Filepath.plainElem (Cmake.Engine b) = true →
  Filepath.plainElem (Cmake.sanitizersSegment b) = true →
  Cmake.BuildDir b
  = Cmake.ProjectDir b +:+ "/.cifuzz-build/" +:+ Cmake.Engine b +:+ "/"
    +:+ Cmake.sanitizersSegment b.
Proof.
  intros (rooted & elems & Hne & Hall & Hp)%cleanPath_elems He Hs.
  change (Cmake.BuildDir b) with
    (Filepath.Join [Cmake.ProjectDir b; ".cifuzz-build"; Cmake.Engine b;
                    Cmake.sanitizersSegment b]).
  set (seg := Cmake.sanitizersSegment b) in *.
  destruct (plainElem_spec _ He) as (HeNe & _), (plainElem_spec _ Hs) as (HsNe & _).
  assert (Cmake.ProjectDir b ≠ "") as HpNe.
  { rewrite Hp. by apply append_nonempty_r, Join_plain_nonempty. }
  unfold Filepath.Join. rewrite !filter_cons_True, filter_nil by done.
  assert (Join [Cmake.ProjectDir b; ".cifuzz-build"; Cmake.Engine b; seg] "/"
          = (if rooted then "/" else "")
            +:+ Join (elems ++ [".cifuzz-build"; Cmake.Engine b; seg]) "/") as ->.
  { rewrite Join_app by done. rewrite <-append_assoc', <-Hp. done. }
  rewrite Clean_plain.
  - rewrite Join_app by done. rewrite <-append_assoc', <-Hp. cbn [Join]. by string_app.
  - by destruct elems.
  - rewrite forallb_app, Hall. cbn [forallb]. by rewrite He, Hs.
Qed.

(** The theorem at an address-and-undefined build. *)
Lemma BuildDir_path_witness :
  Cmake.BuildDir (Cmake.mkBuilderOptions "/home/user/proj" "libfuzzer" ["address"; "undefined"])
  = "/home/user/proj/.cifuzz-build/libfuzzer/address+undefined".
Proof.
  apply (BuildDir_path
           (Cmake.mkBuilderOptions "/home/user/proj" "libfuzzer" ["address"; "undefined"]));
    reflexivity.
Defined.

(** C8 as stated fails: without sanitizers the last segment is [none],
    not the empty join. *)
Lemma BuildDir_no_sanitizers :
  Cmake.BuildDir (Cmake.mkBuilderOptions "/proj" "libfuzzer" [])
  = "/proj/.cifuzz-build/libfuzzer/none"
  ∧ Cmake.BuildDir (Cmake.mkBuilderOptions "/proj" "libfuzzer" [])
    ≠ Cmake.specBuildDir (Cmake.mkBuilderOptions "/proj" "libfuzzer" []).
Proof. split; [reflexivity|]. vm_compute. discriminate. Qed.

(** [filepath.Join] cleans: a trailing slash of the project directory
    does not show in the build directory. *)
Example BuildDir_cleans :
  Cmake.BuildDir (Cmake.mkBuilderOptions "/proj/" "libfuzzer" ["address"])
  = "/proj/.cifuzz-build/libfuzzer/address".
Proof. reflexivity. Qed.

End CmakeBuildDir.

(** *** Counting corpus entries *)
Section CorpusEntries.
Import Run.

Lemma uintMod_pos : 0 < uintMod.
Proof. done. Qed.

(** On a walkable tree the walk adds the number of non-empty files to
    the counter, in 64-bit arithmetic. *)
Lemma walk_nonEmptyFiles : ∀ t seedsInDir,
  walkable t = true → 0 ≤ seedsInDir < uintMod →
  walk seedsInDir t = inl ((seedsInDir + nonEmptyFiles t) mod uintMod).
Proof.
  fix IH 1. intros [size|entries|] seeds Hw Hseeds; simpl in *.
  - case_decide; [done|]. rewrite Z.add_0_r, Z.mod_small; done.
  - revert seeds Hseeds. induction entries as [|e entries IHe]; intros seeds Hseeds; simpl.
    + rewrite Z.add_0_r, Z.mod_small; done.
    + apply andb_true_iff in Hw as [He Hrest].
      rewrite (IH e) by done. rewrite IHe; [|done|by apply Z.mod_pos_bound].
      f_equal. rewrite Z.add_mod_idemp_l by done. f_equal. lia.
  - done.
Qed.

(** When every directory exists and is walkable, the count is the
    number of non-empty files below them, in 64-bit arithmetic. *)
Lemma countLoop_all_exist fs dirs : ∀ numSeeds,
  Forall (λ dir, ∃ t, fs dir = Some t ∧ walkable t = true) dirs →
  0 ≤ numSeeds < uintMod →
  countLoop fs numSeeds dirs = inl ((numSeeds + corpusEntries fs dirs) mod uintMod).
Proof.
  induction dirs as [|dir dirs IH]; intros numSeeds Hall Hn; simpl.
  - rewrite Z.add_0_r, Z.mod_small; done.
  - inversion_clear Hall as [|? ? (t & Ht & Hw) Hrest].
    unfold WalkDir, corpusEntries. cbn [foldr]. fold (corpusEntries fs dirs).
    rewrite Ht, walk_nonEmptyFiles by done. cbn [from_option].
    rewrite IH; [|done|by apply Z.mod_pos_bound].
    f_equal. rewrite Z.add_0_l, Z.add_mod_idemp_r, Z.add_mod_idemp_l by done.
    f_equal. lia.
Qed.

(** C4 fails on the code: a corpus directory with two non-empty files
    followed by a directory that does not exist. The missing directory
    makes [countCorpusEntries] return 0 for the whole list, although the
    first directory alone counts 2 and the list holds 2 entries. *)
Theorem countCorpusEntries_missing_dir :
  let fs := λ dir : string,
    if decide (dir = "/seeds") then Some (Dir [File 3; File 0; Dir [File 1]]) else None in
  countCorpusEntries fs ["/seeds"; "/missing"] = inl 0
  ∧ countCorpusEntries fs ["/seeds"] = inl 2
  ∧ corpusEntries fs ["/seeds"; "/missing"] = 2.
Proof. done. Qed.

(** The same list the other way round: the directories after the
    missing one are not even visited. *)
Example countCorpusEntries_missing_dir_first :
  let fs := λ dir : string,
    if decide (dir = "/seeds") then Some (Dir [File 3; File 0; Dir [File 1]]) else None in
  countCorpusEntries fs ["/missing"; "/seeds"] = inl 0.
Proof. done. Qed.

End CorpusEntries.

(** *** The process wrapper *)
Section ProcessWrapperFacts.
Import ProcessWrapper.

(** Fewer than three arguments: the usage error, no call made. *)
Lemma main_usage h argv :
  (length argv < 3)%nat → main h argv = Some ([], Returns 1).
Proof. intros H. unfold main. rewrite decide_True by lia. done. Qed.

(** With four arguments or more, [main] changes to [argv[1]] and then
    executes [argv[3]] with the arguments from [argv[3]] on. *)
Lemma main_executes h w dir sep path args :
  main h (w :: dir :: sep :: path :: args) =
    Some (if chdir h dir then
            ([Chdir dir; Execv (Ptr path) (path :: args)],
             if execv h path (path :: args) then Replaced path (path :: args) else Returns 1)
          else ([Chdir dir], Returns 1)).
Proof.
  destruct h as [chdir execv]. unfold main.
  rewrite decide_False by (cbn [length]; lia). cbn. by repeat case_match.
Qed.

(** C9 fails on the code: with exactly three arguments (the wrapper, a
    directory and one more) the argument-count check passes, and after
    the change of directory [execv] is called with [argv[3]], which is
    the null pointer that ends the argument vector. *)
Theorem main_execv_null (h : Host) (w dir sep : string) :
  chdir h dir = true →
  main h [w; dir; sep] = Some ([Chdir dir; Execv NULL []], Returns 1).
Proof.
  destruct h as [chdir execv]. intros H. cbn in H. unfold main.
  rewrite decide_False by (cbn [length]; lia). cbn. by rewrite H.
Qed.

(** The theorem at the invocation [process_wrapper /work --]. *)
Lemma main_execv_null_witness :
  main (mkHost (λ _, true) (λ _ _, true)) ["process_wrapper"; "/work"; "--"]
  = Some ([Chdir "/work"; Execv NULL []], Returns 1).
Proof. by apply main_execv_null. Defined.

End ProcessWrapperFacts.

(** *** The order of the sandbox bindings *)
Section BindingOrder.
Import MinijailConfig.

Lemma tmpBindings_bindable entries chrootDirFileInfo :
  Forall2 (λ entry b, Target b = "" ∧ Writable b = ReadOnly)
          (filter (λ entry, bindable chrootDirFileInfo entry) entries)
          (tmpBindings entries chrootDirFileInfo).
Proof.
  induction entries as [|[name isDir info] entries IH]; [constructor|].
  cbn [tmpBindings IsDir Info Name].
  destruct isDir; cbn [negb].
  - destruct info as [fileInfo|].
    + destruct (SameFile fileInfo chrootDirFileInfo) eqn:Hsame.
      * rewrite filter_cons_False; [done|]. unfold bindable. cbn. rewrite Hsame. cbn. tauto.
      * rewrite filter_cons_True; [by constructor|]. unfold bindable. cbn. by rewrite Hsame.
    + rewrite filter_cons_False; [done|]. unfold bindable. cbn. tauto.
  - rewrite filter_cons_False; [done|]. unfold bindable. cbn. tauto.
Qed.

(** C6, as the code has it: when [NewMinijail] gets as far as the
    complete slice of bindings, the slice holds, in this order, one
    read-only binding per accessible subdirectory of [/tmp] other than
    the chroot directory, the caller's bindings, [/dev/null] and
    [/dev/urandom] read-write, the output directory read-write when one
    is set, the working directory read-write, the executable with its
    symlinks resolved, and the process wrapper. *)
Theorem NewMinijail_binding_order (h : Host) (opts : Options) (bindings : list Binding) :
  NewMinijail_bindings h opts = Some bindings → bindingOrder h opts bindings.
Proof.
  unfold NewMinijail_bindings, bindingOrder. intros H.
  simplify_option_eq;
    (eexists _, _, _, _, _, _, _; split_and!; [done..| |apply tmpBindings_bindable]);
    unfold outputDirBinding, defaultBindings; case_decide; try done;
    by rewrite <-?app_assoc.
Qed.

(** The theorem on a host whose [/tmp] holds a project directory, the
    chroot directory and a file, with an output directory set. *)
Lemma NewMinijail_binding_order_witness :
  bindingOrder
    (exampleHost [mkDirEntry "proj" true (Some 11);
                  mkDirEntry "minijail-chroot-1" true (Some 12);
                  mkDirEntry "x.pid" false (Some 13)])
    (exampleOptions "/out")
    [mkBinding "/tmpproj" "" ReadOnly; mkBinding "/build" "" ReadOnly;
     mkBinding "/dev/null" "" ReadWrite; mkBinding "/dev/urandom" "" ReadWrite;
     mkBinding "/out" "" ReadWrite; mkBinding "/work" "" ReadWrite;
     mkBinding "/work/fuzz_test" "" ReadOnly;
     mkBinding "/opt/cifuzz/lib/process_wrapper" "" ReadOnly].
Proof. apply NewMinijail_binding_order. reflexivity. Defined.

(** C6 as stated fails: when an output directory is set, its binding
    stands between the defaults and the working directory. *)
Lemma NewMinijail_output_dir_binding :
  NewMinijail_bindings (exampleHost []) (exampleOptions "/out")
  = Some [mkBinding "/build" "" ReadOnly;
          mkBinding "/dev/null" "" ReadWrite; mkBinding "/dev/urandom" "" ReadWrite;
          mkBinding "/out" "" ReadWrite; mkBinding "/work" "" ReadWrite;
          mkBinding "/work/fuzz_test" "" ReadOnly;
          mkBinding "/opt/cifuzz/lib/process_wrapper" "" ReadOnly]
  ∧ NewMinijail_bindings (exampleHost []) (exampleOptions "/out")
    ≠ specifiedBindings (exampleHost []) (exampleOptions "/out").
Proof. split; [reflexivity|]. vm_compute. discriminate. Qed.

(** The source of a binding for a subdirectory of [/tmp] is ["/tmp"]
    followed by the entry's name, without a slash in between: for the
    subdirectory [/tmp/proj] it is [/tmpproj]. *)
Example tmpBindings_source :
  tmpBindings [mkDirEntry "proj" true (Some 11)] 12 = [mkBinding "/tmpproj" "" ReadOnly].
Proof. reflexivity. Qed.

End BindingOrder.

(** *** The paths of the Maven adapter *)
Section MavenPaths.
Import Maven.

(** The adapter never looks at the symlinks of the host. *)
Lemma Build_withEvalSymlinks h f b targetClass :
  Build (withEvalSymlinks h f) b targetClass = Build h b targetClass.
Proof. done. Qed.

(** C7, as the code has it: the Maven adapter hands on the paths that
    Maven reports without resolving anything. The build directory is the
    output of [mvn help:evaluate -Dexpression=project.build.directory],
    the runtime dependencies are the entries of the classpath file
    followed by the output, test output and resource directories of the
    project model, and the result is the same whatever the symlinks of
    the host are. *)
Theorem Build_reports_maven_paths (h : Host) (b : BuilderOptions) (targetClass : string)
    (r : Result) :
  Build h b targetClass = Some r →
  reportedByMaven h b targetClass r
  ∧ ∀ f, Build (withEvalSymlinks h f) b targetClass = Some r.
Proof.
  intros H. split; [|by intros f; rewrite Build_withEvalSymlinks].
  unfold Build, getExternalDependencies, getLocalDependencies, reportedByMaven in *.
  simplify_option_eq; eexists _, _, _, _, _; by split_and!.
Qed.

(** The theorem on the example host. *)
Lemma Build_reports_maven_paths_witness :
  reportedByMaven exampleHost exampleOptions "com.example.FuzzTestCase" exampleResult
  ∧ ∀ f, Build (withEvalSymlinks exampleHost f) exampleOptions "com.example.FuzzTestCase"
         = Some exampleResult.
Proof. apply Build_reports_maven_paths. reflexivity. Defined.

(** C7 as stated fails: on the example host the build succeeds and
    returns the build directory [/home/user/proj/target], which goes
    through the symlink [/home/user]. *)
Lemma Build_not_canonical :
  Build exampleHost exampleOptions "com.example.FuzzTestCase" = Some exampleResult
  ∧ EvalSymlinks exampleHost (BuildDir exampleResult) = Some "/data/user/proj/target"
  ∧ canonical exampleHost (BuildDir exampleResult) = false
  ∧ allPathsCanonical exampleHost exampleResult = false.
Proof. by split_and!. Qed.

End MavenPaths.

(** *** Signals and the error of [executeRunner] *)
Section SignalPrecedence.
Import Run.

Lemma step_signalRecorded a st st' :
  signalRecorded st → step a st = Some st' → signalRecorded st'.
Proof.
  unfold signalRecorded. intros Hinv Hstep s.
  destruct st as [sigs h r sErr done gErr n rcv]. specialize (Hinv s).
  destruct a, h, r; simpl in *; unfold groupReturn in *; simpl in *;
    try destruct sigs; repeat case_match; simplify_eq/=; intuition congruence.
Qed.

Lemma run_signalRecorded acts : ∀ st st',
  signalRecorded st → run acts st = Some st' → signalRecorded st'.
Proof.
  induction acts as [|a acts IH]; intros st st' Hinv Hrun; simpl in Hrun.
  - by simplify_eq.
  - destruct (step a st) as [st1|] eqn:Hstep; [|done].
    eapply IH; [|done]. by eapply step_signalRecorded.
Qed.

Lemma initial_signalRecorded : signalRecorded initial.
Proof. by intros s. Qed.

(** What the code keeps of the precedence of the signal: in every
    interleaving of the signal deliveries, the handler goroutine and the
    runner goroutine after which [executeRunner] returns, if the handler
    took a signal from the channel, the error returned is the
    [SignalError] of that signal wrapped as a silent error, whatever
    [runner.Run] returned and whichever goroutine handed its error to
    the errgroup first. *)
Theorem executeRunner_signal_first (acts : list action) (s : Signal) :
  receivedSignal acts = Some s → is_Some (outcome acts) →
  outcome acts = Some (Some (SilentError (SignalError s))).
Proof.
  unfold receivedSignal, outcome. intros Hrcv [r Hr].
  destruct (run acts initial) as [st|] eqn:Hrun; [|done]. simpl in *.
  pose proof (run_signalRecorded acts _ _ initial_signalRecorded Hrun s Hrcv) as Hinv.
  unfold executeRunner in *.
  destruct (handler st); try done. destruct (runnerAt st); try done.
  by rewrite Hinv.
Qed.

(** The theorem on the race that the source comments on: SIGINT is
    taken, the handler calls [Cleanup], [Run] returns an [ExecError] and
    hands it to the errgroup before the handler returns. *)
Lemma executeRunner_signal_first_witness :
  outcome [Deliver SIGINT; SelectSignal; HandlerNext; HandlerNext;
           RunReturns (Some (ExecError "exit status 1")); RunnerNext; RunnerNext;
           HandlerNext]
  = Some (Some (SilentError (SignalError SIGINT))).
Proof. apply executeRunner_signal_first; [reflexivity|by eexists]. Defined.

(** In both orders of the two returns the errgroup keeps a different
    first error, and the outcome is the same. *)
Example executeRunner_handler_returns_first :
  outcome [Deliver SIGTERM; SelectSignal; HandlerNext; HandlerNext; HandlerNext;
           RunReturns (Some (ExecError "exit status 1")); RunnerNext; RunnerNext]
  = Some (Some (SilentError (SignalError SIGTERM))).
Proof. reflexivity. Qed.

(** Without a signal the error of the runner comes through, an
    [ExecError] as a silent error. *)
Example executeRunner_no_signal :
  outcome [RunReturns (Some (ExecError "exit status 1")); RunnerNext; RunnerNext; SelectDone]
  = Some (Some (SilentError (ExecError "exit status 1"))).
Proof. reflexivity. Qed.

(** C3 fails on the code: SIGINT is delivered to the channel while
    [runner.Run] is still running and the handler is still in its
    select. [Run] then returns an [ExecError], the deferred call cancels
    the context and the runner goroutine returns. The select now has
    both of its cases ready; when it takes the cancelled context, the
    signal is never taken, [signalErr] stays [nil] and [executeRunner]
    returns the [ExecError] of the child as a silent error, against the
    source's own comment that the signal error is always the one wanted
    in this race. When the select takes the signal, the same deliveries
    and the same return of [Run] give the [SignalError]. *)
Theorem executeRunner_signal_lost :
  let delivered := [Deliver SIGINT] in
  let returned := [RunReturns (Some (ExecError "exit status 1")); RunnerNext; RunnerNext] in
  (λ st, (sigs st, handler st, runnerAt st)) <$> run delivered initial
  = Some (Some SIGINT, HSelect, RRun)
  ∧ outcome (delivered ++ returned ++ [SelectDone])
    = Some (Some (SilentError (ExecError "exit status 1")))
  ∧ outcome (delivered ++ returned ++ [SelectSignal; HandlerNext; HandlerNext; HandlerNext])
    = Some (Some (SilentError (SignalError SIGINT))).
Proof. by vm_compute. Qed.

(** A signal that is delivered to the channel but that the handler does
    not take, because the select finds the context cancelled as well and
    takes that case, is not received: the error is the runner's. *)
Example executeRunner_signal_not_taken :
  let acts := [Deliver SIGINT; RunReturns (Some (ExecError "exit status 1"));
               RunnerNext; RunnerNext; SelectDone] in
  receivedSignal acts = None
  ∧ outcome acts = Some (Some (SilentError (ExecError "exit status 1"))).
Proof. done. Qed.

(** Every interleaving can be completed: once [Run] returns, both
    goroutines return and [executeRunner] returns with them. *)
Lemma step_cancelledAfterRun a st st' :
  cancelledAfterRun st → step a st = Some st' → cancelledAfterRun st'.
Proof.
  unfold cancelledAfterRun. intros Hinv Hstep.
  destruct st as [sigs h r sErr done gErr n rcv].
  destruct a, h, r; simpl in *; unfold groupReturn in *; simpl in *;
    try destruct sigs; repeat case_match; simplify_eq/=; done.
Qed.

Lemma run_cancelledAfterRun acts : ∀ st st',
  cancelledAfterRun st → run acts st = Some st' → cancelledAfterRun st'.
Proof.
  induction acts as [|a acts IH]; intros st st' Hinv Hrun; simpl in Hrun.
  - by simplify_eq.
  - destruct (step a st) as [st1|] eqn:Hstep; [|done].
    eapply IH; [|done]. by eapply step_cancelledAfterRun.
Qed.

Lemma run_app acts1 acts2 st :
  run (acts1 ++ acts2) st = st' ← run acts1 st; run acts2 st'.
Proof.
  revert st. induction acts1 as [|a acts1 IH]; intros st; simpl; [done|].
  destruct (step a st); simpl; [apply IH|done].
Qed.

Lemma executeRunner_can_finish acts st :
  run acts initial = Some st → ∃ acts', is_Some (outcome (acts ++ acts')).
Proof.
  intros Hrun.
  assert (cancelledAfterRun initial) as Hinit by done.
  pose proof (run_cancelledAfterRun acts _ _ Hinit Hrun) as Hc.
  unfold outcome. setoid_rewrite run_app. rewrite Hrun. simpl.
  destruct st as [sigs h r sErr done gErr n rcv]. unfold cancelledAfterRun in Hc.
  simpl in Hc.
  assert (∃ accR, ∃ st1, run accR (mkState sigs h r sErr done gErr n rcv) = Some st1
            ∧ handler st1 = h ∧ runnerAt st1 = RExited ∧ ctxDone st1 = true)
    as (accR & st1 & Hrun1 & Hh & Hr & Hd).
  { destruct r as [|err|err|].
    - exists [RunReturns None; RunnerNext; RunnerNext]. destruct h; by eexists.
    - exists [RunnerNext; RunnerNext]. destruct h, err, gErr; by eexists.
    - exists [RunnerNext]. subst done. destruct h, err, gErr; by eexists.
    - exists []. by eexists. }
  destruct st1 as [sigs1 h1 r1 sErr1 done1 gErr1 n1 rcv1]. simpl in *. subst.
  assert (∃ accH, ∃ st2, run accH (mkState sigs1 h RExited sErr1 true gErr1 n1 rcv1) = Some st2
            ∧ handler st2 = HExited ∧ runnerAt st2 = RExited)
    as (accH & st2 & Hrun2 & Hh2 & Hr2).
  { destruct h as [|s|s|s|].
    - exists [SelectDone]. by eexists.
    - exists [HandlerNext; HandlerNext; HandlerNext]. destruct gErr1; by eexists.
    - exists [HandlerNext; HandlerNext]. destruct sErr1, gErr1; by eexists.
    - exists [HandlerNext]. destruct sErr1, gErr1; by eexists.
    - exists []. by eexists. }
  exists (accR ++ accH). rewrite run_app, Hrun1. simpl. rewrite Hrun2. simpl.
  unfold executeRunner. rewrite Hh2, Hr2. by repeat case_match.
Qed.

End SignalPrecedence.

(** ** Part III: further properties of the code *)

(** *** More on merging sanitizer options *)
Section SanitizerOptionsMore.
Import GoStrings Runner.

Local Abbreviation applyDefaults :=
  (foldl (λ options kv, setDefaultIfNotSetAlready options kv.1 kv.2)).
Local Abbreviation applyOverrides :=
  (foldl (λ options kv, overrideOption options kv.1 kv.2)).
Local Abbreviation nonEmpty := (filter (λ e : string, e ≠ "")).
Local Abbreviation colonFree := (λ s : string, ContainsRune s ":" = false).

Lemma HasPrefix_empty_entry k : HasPrefix "" (k +:+ "=") = false.
Proof. by destruct k. Qed.

(** Empty options play no role in the two loops. *)
Lemma setDefault_nonEmpty options k v :
  nonEmpty (setDefaultIfNotSetAlready options k v)
  = setDefaultIfNotSetAlready (nonEmpty options) k v.
Proof.
  unfold setDefaultIfNotSetAlready.
  assert (existsb (λ opt, HasPrefix opt (k +:+ "=")) (nonEmpty options)
          = existsb (λ opt, HasPrefix opt (k +:+ "=")) options) as ->.
  { induction options as [|opt options IH]; [done|].
    destruct (decide (opt = "")) as [->|Hne].
    - rewrite filter_cons_False by naive_solver. simpl.
      by rewrite HasPrefix_empty_entry.
    - rewrite filter_cons_True by done. simpl. by rewrite IH. }
  case_match; [done|].
  rewrite filter_app. f_equal.
  rewrite filter_cons_True by apply entry_nonempty. done.
Qed.

Lemma override_nonEmpty options k v :
  nonEmpty (overrideOption options k v) = overrideOption (nonEmpty options) k v.
Proof.
  induction options as [|opt options IH]; simpl.
  - by rewrite filter_cons_True by apply entry_nonempty.
  - destruct (decide (opt = "")) as [->|Hne].
    + rewrite HasPrefix_empty_entry.
      rewrite !filter_cons_False by naive_solver. done.
    + rewrite (filter_cons_True _ opt) by done. simpl.
      case_match.
      * by rewrite filter_cons_True by apply entry_nonempty.
      * rewrite filter_cons_True by done. by rewrite IH.
Qed.

Lemma applyDefaults_nonEmpty ds : ∀ options,
  nonEmpty (applyDefaults options ds) = applyDefaults (nonEmpty options) ds.
Proof.
  induction ds as [|[k v] ds IH]; intros options; [done|].
  cbn [foldl]. by rewrite IH, setDefault_nonEmpty.
Qed.

Lemma applyOverrides_nonEmpty os : ∀ options,
  nonEmpty (applyOverrides options os) = applyOverrides (nonEmpty options) os.
Proof.
  induction os as [|[k v] os IH]; intros options; [done|].
  cbn [foldl]. by rewrite IH, override_nonEmpty.
Qed.

(** The non-empty options of the result are the non-empty options of
    the input after the two loops. *)
Lemma SetSanitizerOptions_nonEmpty existing ds os :
  Forall (λ kv, plainEntry kv = true) ds → Forall (λ kv, plainEntry kv = true) os →
  nonEmpty (optionsOf (SetSanitizerOptions existing ds os))
  = applyOverrides (applyDefaults (nonEmpty (optionsOf existing)) ds) os.
Proof.
  intros Hds Hos. unfold SetSanitizerOptions. fold (optionsOf existing).
  rewrite optionsOf_JoinNonEmpty;
    [|by apply applyOverrides_colonFree, applyDefaults_colonFree; [| |apply Split_fields]].
  rewrite <-applyDefaults_nonEmpty, <-applyOverrides_nonEmpty.
  destruct (nonEmpty (applyOverrides _ os)) as [|opt rest] eqn:Hf; [done|].
  rewrite <-Hf. apply list_filter_filter_l. done.
Qed.

(** **** Running the loops a second time *)

Lemma setDefault_same options k v :
  ContainsRune k "=" = false → k ∈ keysOf options →
  setDefaultIfNotSetAlready options k v = options.
Proof.
  intros Hk Hin. unfold setDefaultIfNotSetAlready.
  by rewrite existsb_optionKey, bool_decide_eq_true_2.
Qed.

Lemma add_key_incl (keys : list string) k k' :
  k' ∈ keys → k' ∈ (if bool_decide (k ∈ keys) then keys else keys ++ [k]).
Proof. intros H. case_bool_decide; [done|]. apply elem_of_app. by left. Qed.

Lemma add_key_elem (keys : list string) k :
  k ∈ (if bool_decide (k ∈ keys) then keys else keys ++ [k]).
Proof.
  case_bool_decide; [done|]. apply elem_of_app. right. by apply list_elem_of_singleton.
Qed.

Lemma applyDefaults_keys_incl ds : ∀ options k,
  Forall (λ kv, plainEntry kv = true) ds →
  k ∈ keysOf options → k ∈ keysOf (applyDefaults options ds).
Proof.
  induction ds as [|[k1 v1] ds IH]; intros options k Hds Hin; [done|].
  inversion_clear Hds as [|? ? (Hk1 & _)%plainEntry_spec Hrest].
  apply IH; [done|]. cbn [fst snd]. rewrite setDefault_keys by done.
  by apply add_key_incl.
Qed.

Lemma applyDefaults_keys ds : ∀ options k v,
  Forall (λ kv, plainEntry kv = true) ds →
  (k, v) ∈ ds → k ∈ keysOf (applyDefaults options ds).
Proof.
  induction ds as [|[k1 v1] ds IH]; intros options k v Hds Hin.
  { by apply elem_of_nil in Hin. }
  pose proof Hds as Hds'.
  inversion_clear Hds as [|? ? (Hk1 & _)%plainEntry_spec Hrest].
  apply elem_of_cons in Hin as [[= -> ->]|Hin]; cbn [foldl fst snd].
  - apply applyDefaults_keys_incl; [done|].
    rewrite setDefault_keys by done. apply add_key_elem.
  - by eapply IH.
Qed.

Lemma applyOverrides_keys_incl os : ∀ options k,
  Forall (λ kv, plainEntry kv = true) os →
  k ∈ keysOf options → k ∈ keysOf (applyOverrides options os).
Proof.
  induction os as [|[k1 v1] os IH]; intros options k Hos Hin; [done|].
  inversion_clear Hos as [|? ? (Hk1 & _)%plainEntry_spec Hrest].
  apply IH; [done|]. cbn [fst snd]. rewrite override_keys by done.
  by apply add_key_incl.
Qed.

Lemma applyDefaults_same ds : ∀ options,
  Forall (λ kv, plainEntry kv = true) ds →
  (∀ k v, (k, v) ∈ ds → k ∈ keysOf options) →
  applyDefaults options ds = options.
Proof.
  induction ds as [|[k v] ds IH]; intros options Hds Hall; [done|].
  inversion_clear Hds as [|? ? (Hk & _)%plainEntry_spec Hrest].
  cbn [foldl fst snd]. rewrite setDefault_same; [|done|].
  - apply IH; [done|]. intros k' v' Hin. eapply Hall. by right.
  - eapply Hall. by left.
Qed.

(** The first option that sets a key, across an override. *)
Lemma firstOf_override options k v :
  ContainsRune k "=" = false →
  firstOf k (overrideOption options k v) = Some (k +:+ "=" +:+ v).
Proof.
  intros Hk. induction options as [|opt options IH]; simpl.
  - by rewrite optionKey_entry, decide_True.
  - rewrite HasPrefix_optionKey by done. case_bool_decide as Hopt; simpl.
    + by rewrite optionKey_entry, decide_True.
    + by rewrite decide_False.
Qed.

Lemma firstOf_override_other options k k' v' :
  ContainsRune k' "=" = false → k ≠ k' →
  firstOf k (overrideOption options k' v') = firstOf k options.
Proof.
  intros Hk' Hne. induction options as [|opt options IH]; simpl.
  - rewrite optionKey_entry by done. rewrite decide_False; [done|congruence].
  - rewrite HasPrefix_optionKey by done. case_bool_decide as Hopt; simpl.
    + rewrite optionKey_entry, Hopt by done. rewrite !decide_False; [done|congruence..].
    + by rewrite IH.
Qed.

Lemma override_same options k v :
  ContainsRune k "=" = false →
  firstOf k options = Some (k +:+ "=" +:+ v) →
  overrideOption options k v = options.
Proof.
  intros Hk. induction options as [|opt options IH]; simpl; [done|].
  rewrite HasPrefix_optionKey by done. case_decide as Hopt.
  - intros [= ->]. by rewrite bool_decide_eq_true_2.
  - intros Hfirst. rewrite bool_decide_eq_false_2 by done. by rewrite IH.
Qed.

Lemma applyOverrides_firstOf_other os : ∀ options k,
  Forall (λ kv, plainEntry kv = true) os → k ∉ os.*1 →
  firstOf k (applyOverrides options os) = firstOf k options.
Proof.
  induction os as [|[k1 v1] os IH]; intros options k Hos Hnot; [done|].
  inversion_clear Hos as [|? ? (Hk1 & _)%plainEntry_spec Hrest].
  cbn [fmap list_fmap fst] in Hnot. apply not_elem_of_cons in Hnot as [Hne Hnot].
  cbn [foldl fst snd]. rewrite IH by done. by apply firstOf_override_other.
Qed.

Lemma applyOverrides_firstOf os : ∀ options k v,
  Forall (λ kv, plainEntry kv = true) os → NoDup os.*1 →
  (k, v) ∈ os → firstOf k (applyOverrides options os) = Some (k +:+ "=" +:+ v).
Proof.
  induction os as [|[k1 v1] os IH]; intros options k v Hos Hnd Hin.
  { by apply elem_of_nil in Hin. }
  pose proof Hos as Hos'.
  inversion_clear Hos as [|? ? (Hk1 & _)%plainEntry_spec Hrest].
  cbn [fmap list_fmap fst] in Hnd. apply NoDup_cons in Hnd as [Hk1not Hnd].
  apply elem_of_cons in Hin as [[= -> ->]|Hin]; cbn [foldl fst snd].
  - rewrite applyOverrides_firstOf_other by done. by apply firstOf_override.
  - by apply IH.
Qed.

Lemma applyOverrides_same os : ∀ options,
  Forall (λ kv, plainEntry kv = true) os →
  (∀ k v, (k, v) ∈ os → firstOf k options = Some (k +:+ "=" +:+ v)) →
  applyOverrides options os = options.
Proof.
  induction os as [|[k v] os IH]; intros options Hos Hall; [done|].
  inversion_clear Hos as [|? ? (Hk & _)%plainEntry_spec Hrest].
  cbn [foldl fst snd]. rewrite override_same; [|done|].
  - apply IH; [done|]. intros k' v' Hin. apply Hall. by right.
  - apply Hall. by left.
Qed.

Lemma ranges_same_plain m kvs kvs' :
  ranges m kvs → ranges m kvs' →
  Forall (λ kv, plainEntry kv = true) kvs → Forall (λ kv, plainEntry kv = true) kvs'.
Proof. unfold ranges. intros H1 H2. by rewrite H1, <-H2. Qed.

(** X1. [SetSanitizerOptions] is idempotent: for plain maps, applying it
    to its own result gives the same string again, whatever the orders
    in which the four loops visit the maps. *)
Theorem SetSanitizerOptions_idempotent (existing : string) (D O : gmap string string)
    (ds os ds' os' : list (string * string)) :
  ranges D ds → ranges O os → ranges D ds' → ranges O os' →
  forallb plainEntry ds = true → forallb plainEntry os = true →
  SetSanitizerOptions (SetSanitizerOptions existing ds os) ds' os'
  = SetSanitizerOptions existing ds os.
Proof.
  intros HD HO HD' HO' Hds%plainEntries_Forall Hos%plainEntries_Forall.
  assert (Forall (λ kv, plainEntry kv = true) ds') as Hds'
    by by apply (ranges_same_plain D ds ds').
  assert (Forall (λ kv, plainEntry kv = true) os') as Hos'
    by by apply (ranges_same_plain O os os').
  set (r := SetSanitizerOptions existing ds os).
  unfold SetSanitizerOptions at 1. fold (optionsOf r).
  unfold Stringutil.JoinNonEmpty.
  rewrite applyOverrides_nonEmpty, applyDefaults_nonEmpty.
  unfold r at 1. rewrite SetSanitizerOptions_nonEmpty by done.
  set (Y := applyOverrides (applyDefaults (nonEmpty (optionsOf existing)) ds) os).
  rewrite (applyDefaults_same ds' Y); [|done|].
  - rewrite (applyOverrides_same os' Y); [|done|].
    + unfold r, SetSanitizerOptions, Stringutil.JoinNonEmpty. fold (optionsOf existing).
      by rewrite applyOverrides_nonEmpty, applyDefaults_nonEmpty.
    + intros k v Hin. apply applyOverrides_firstOf; [done|by eapply ranges_NoDup|].
      apply (ranges_elem O); [done|]. by apply (ranges_elem O os').
  - intros k v Hin. apply applyOverrides_keys_incl; [done|].
    eapply applyDefaults_keys; [done|].
    apply (ranges_elem D); [done|]. by apply (ranges_elem D ds').
Qed.

(** The theorem at the maps of the address sanitizer and a user
    setting. *)
Lemma SetSanitizerOptions_idempotent_witness :
  SetSanitizerOptions
    (SetSanitizerOptions "exitcode=1::detect_leaks=0"
       (map_to_list (commonASANDefaults false)) (map_to_list commonASANOverrides))
    (map_to_list (commonASANDefaults false)) (reverse (map_to_list commonASANOverrides))
  = SetSanitizerOptions "exitcode=1::detect_leaks=0"
      (map_to_list (commonASANDefaults false)) (map_to_list commonASANOverrides).
Proof.
  apply (SetSanitizerOptions_idempotent _ (commonASANDefaults false) commonASANOverrides);
    [by unfold ranges | by unfold ranges | by unfold ranges
    | unfold ranges; apply reverse_Permutation | reflexivity | reflexivity].
Defined.

(** X2. For plain defaults and overrides (no [=] and no [:] in a key,
    no [:] in a value) the result of [SetSanitizerOptions] has no empty
    option: unless it is the empty string, it neither starts nor ends
    with a colon and has no two colons in a row, whatever the existing
    string looked like. *)
Theorem SetSanitizerOptions_no_empty_option (existing : string)
    (ds os : list (string * string)) :
  forallb plainEntry ds = true → forallb plainEntry os = true →
  SetSanitizerOptions existing ds os ≠ "" →
  "" ∉ optionsOf (SetSanitizerOptions existing ds os).
Proof.
  intros Hds%plainEntries_Forall Hos%plainEntries_Forall Hne.
  unfold SetSanitizerOptions in *. fold (optionsOf existing) in *.
  rewrite optionsOf_JoinNonEmpty;
    [|by apply applyOverrides_colonFree, applyDefaults_colonFree; [| |apply Split_fields]].
  unfold Stringutil.JoinNonEmpty in Hne.
  destruct (nonEmpty (applyOverrides _ os)) as [|opt rest] eqn:Hf; [done|].
  rewrite <-Hf. intros [? _]%list_elem_of_filter. done.
Qed.

(** The theorem at a string with empty fields. *)
Lemma SetSanitizerOptions_no_empty_option_witness :
  "" ∉ optionsOf (SetSanitizerOptions ":a=1::b=2:" [("color", "never")] [("a", "3")]).
Proof. by apply SetSanitizerOptions_no_empty_option. Defined.

(** **** Options stay where they are *)

Lemma setDefault_lookup options k v (i : nat) opt :
  options !! i = Some opt → setDefaultIfNotSetAlready options k v !! i = Some opt.
Proof.
  intros H. unfold setDefaultIfNotSetAlready. case_match; [done|].
  by apply lookup_app_l_Some.
Qed.

Lemma override_lookup options k v : ∀ (i : nat) opt,
  ContainsRune k "=" = false →
  options !! i = Some opt → optionKey opt ≠ Some k →
  overrideOption options k v !! i = Some opt.
Proof.
  induction options as [|o options IH]; intros i opt Hk Hi Hopt; [done|]. simpl.
  rewrite HasPrefix_optionKey by done. destruct i as [|i]; simpl in *.
  - injection Hi as ->. by rewrite bool_decide_eq_false_2.
  - case_bool_decide; simpl; [done|]. by apply IH.
Qed.

Lemma applyDefaults_lookup ds : ∀ options (i : nat) opt,
  options !! i = Some opt → applyDefaults options ds !! i = Some opt.
Proof.
  induction ds as [|[k v] ds IH]; intros options i opt Hi; [done|].
  cbn [foldl]. by apply IH, setDefault_lookup.
Qed.

Lemma applyOverrides_lookup os : ∀ options (i : nat) opt,
  Forall (λ kv, plainEntry kv = true) os →
  options !! i = Some opt → (∀ k, optionKey opt = Some k → k ∉ os.*1) →
  applyOverrides options os !! i = Some opt.
Proof.
  induction os as [|[k v] os IH]; intros options i opt Hos Hi Hopt; [done|].
  inversion_clear Hos as [|? ? (Hk & _)%plainEntry_spec Hrest].
  cbn [foldl fst snd]. apply IH; [done| |].
  - apply override_lookup; [done..|]. intros Hkey.
    apply (Hopt _ Hkey). by left.
  - intros k' Hkey Hin. apply (Hopt _ Hkey). by right.
Qed.

(** X3. For plain defaults and overrides (no [=] and no [:] in a key,
    no [:] in a value), visited in any order, [SetSanitizerOptions]
    leaves the existing options where they stand: the i-th non-empty
    option of the existing string, when no override has its key, is the
    i-th option of the result. *)
Theorem SetSanitizerOptions_keeps_position (existing : string) (D O : gmap string string)
    (ds os : list (string * string)) (i : nat) (opt : string) :
  ranges D ds → ranges O os →
  forallb plainEntry ds = true → forallb plainEntry os = true →
  nonEmpty (optionsOf existing) !! i = Some opt →
  (∀ k, optionKey opt = Some k → O !! k = None) →
  optionsOf (SetSanitizerOptions existing ds os) !! i = Some opt.
Proof.
  intros HD HO Hds%plainEntries_Forall Hos%plainEntries_Forall Hi Hopt.
  assert (applyOverrides (applyDefaults (nonEmpty (optionsOf existing)) ds) os !! i
          = Some opt) as Hres.
  { apply applyOverrides_lookup; [done|by apply applyDefaults_lookup|].
    intros k Hkey. eapply ranges_not_elem; [done|]. by apply Hopt. }
  rewrite <-SetSanitizerOptions_nonEmpty in Hres by done.
  unfold SetSanitizerOptions in *. fold (optionsOf existing) in *.
  rewrite optionsOf_JoinNonEmpty in *;
    try (by apply applyOverrides_colonFree, applyDefaults_colonFree; [| |apply Split_fields]).
  destruct (nonEmpty (applyOverrides _ os)) as [|o rest] eqn:Hf; [done|].
  rewrite <-Hf in Hres. rewrite list_filter_filter_l in Hres by done.
  by rewrite Hf in Hres.
Qed.

(** The theorem at the second option of a string whose first option is
    overridden. *)
Lemma SetSanitizerOptions_keeps_position_witness :
  optionsOf (SetSanitizerOptions "exitcode=1::detect_leaks=0"
               (map_to_list (commonASANDefaults false)) (map_to_list commonASANOverrides))
    !! 1%nat = Some "detect_leaks=0".
Proof.
  apply (SetSanitizerOptions_keeps_position _ (commonASANDefaults false) commonASANOverrides);
    [by unfold ranges | by unfold ranges | reflexivity | reflexivity | reflexivity |].
  intros k [= <-]. reflexivity.
Defined.

End SanitizerOptionsMore.

(** *** Environment flags and the fuzzer environment *)
Section RunnerEnvironment.
Import GoStrings Envutil Runner.

Lemma AddEnvFlags_app flags1 : ∀ env flags2,
  AddEnvFlags env (flags1 ++ flags2) = env1 ← AddEnvFlags env flags1; AddEnvFlags env1 flags2.
Proof.
  induction flags1 as [|e flags1 IH]; intros env flags2; [done|]. simpl.
  destruct (SplitN e "=" 2) as [|key [|val rest]]; [done..|].
  destruct (Setenv env key val) as [env1|]; simpl; [apply IH|done].
Qed.

Lemma SplitN_one s sep : SplitN s sep 1 = [s].
Proof. by destruct s. Qed.

Lemma SplitN_entry k v :
  ContainsRune k "=" = false → SplitN (k +:+ "=" +:+ v) "=" 2 = [k; v].
Proof.
  intros Hk. string_app. rewrite SplitN_app by done. by rewrite SplitN_one.
Qed.

(** What a successful split into key and value says about the entry. *)
Lemma SplitN_key e : ∀ key val rest,
  SplitN e "=" 2 = key :: val :: rest →
  e = key +:+ "=" +:+ val ∧ ContainsRune key "=" = false ∧ rest = [].
Proof.
  induction e as [|c e IH]; intros key val rest; simpl; [done|].
  case_decide as Hc.
  - rewrite SplitN_one. intros [= <- <- <-]. by subst c.
  - destruct (SplitN e "=" 2) as [|h t] eqn:He; [done|].
    intros [= <- ->]. destruct (IH h val rest eq_refl) as (-> & Hh & ->).
    split_and!; [done| |done]. simpl. by rewrite decide_False.
Qed.

Lemma Setenv_Some env key value env' :
  Setenv env key value = Some env' →
  env' = setEntry env key value ∧ key ≠ "" ∧ ContainsRune key "=" = false.
Proof. unfold Setenv. repeat case_match; naive_solver. Qed.

(** X4. [AddEnvFlags] fails as soon as one of the flags has no [=],
    wherever it stands in the list. *)
Theorem AddEnvFlags_invalid (env envVars : list string) (e : string) :
  e ∈ envVars → ContainsRune e "=" = false → AddEnvFlags env envVars = None.
Proof.
  intros Hin He. revert env.
  induction envVars as [|e' envVars IH]; intros env.
  { by apply elem_of_nil in Hin. }
  simpl. apply elem_of_cons in Hin as [<-|Hin].
  - by rewrite SplitN_no_sep.
  - destruct (SplitN e' "=" 2) as [|key [|val rest]]; [done..|].
    destruct (Setenv env key val); simpl; [by apply IH|done].
Qed.

(** The theorem at a list whose second flag is only a name. *)
Lemma AddEnvFlags_invalid_witness :
  AddEnvFlags ["PATH=/bin"] ["FOO=foo"; "BAR"; "BAZ=baz"] = None.
Proof. apply (AddEnvFlags_invalid _ _ "BAR"); [|reflexivity]. set_solver. Defined.

(** Flags for other variables leave a variable as it is. *)
Lemma AddEnvFlags_other envVars : ∀ env env' key,
  AddEnvFlags env envVars = Some env' →
  ContainsRune key "=" = false → key ∉ keysOf envVars →
  Getenv env' key = Getenv env key.
Proof.
  induction envVars as [|e envVars IH]; intros env env' key Hadd Hkey Hnot.
  { by injection Hadd as <-. }
  simpl in Hadd.
  destruct (SplitN e "=" 2) as [|k [|v rest]] eqn:He; [done..|].
  destruct (SplitN_key _ _ _ _ He) as (-> & Hk & ->).
  destruct (Setenv env k v) as [env1|] eqn:Hset; [|done]. simpl in Hadd.
  apply Setenv_Some in Hset as (-> & _ & _).
  unfold keysOf in Hnot. cbn [omap list_omap] in Hnot.
  rewrite optionKey_entry in Hnot by done. apply not_elem_of_cons in Hnot as [Hne Hnot].
  rewrite (IH _ _ _ Hadd) by done. by apply Getenv_setEntry_other.
Qed.

(** X5. In [AddEnvFlags] the last flag for a variable wins, and its
    value is everything after the first [=]: after a successful call,
    the variable of a flag [key=value] that no later flag sets again has
    that value. *)
Theorem AddEnvFlags_last_wins (env env' before after : list string) (key value : string) :
  AddEnvFlags env (before ++ (key +:+ "=" +:+ value) :: after) = Some env' →
  ContainsRune key "=" = false → key ∉ keysOf after →
  Getenv env' key = value.
Proof.
  intros Hadd Hkey Hnot. rewrite AddEnvFlags_app in Hadd.
  destruct (AddEnvFlags env before) as [env1|]; [|done]. simpl in Hadd.
  rewrite SplitN_entry in Hadd by done.
  destruct (Setenv env1 key value) as [env2|] eqn:Hset; [|done]. simpl in Hadd.
  rewrite (AddEnvFlags_other _ _ _ _ Hadd) by done.
  by eapply Getenv_Setenv.
Qed.

(** The theorem at a variable that is set twice, with a value that
    contains [=]. *)
Lemma AddEnvFlags_last_wins_witness :
  Getenv ["PATH=/bin"; "FOO=b=c"; "BAR=bar"] "FOO" = "b=c".
Proof.
  apply (AddEnvFlags_last_wins ["PATH=/bin"] _ ["FOO=a"] ["BAR=bar"] "FOO" "b=c");
    [reflexivity | reflexivity | compute_done].
Defined.

(** X6. [AddEnvFlags] touches only the variables it is asked to set:
    after a successful call, a variable that none of the flags names has
    the value it had before. *)
Theorem AddEnvFlags_frame (env env' envVars : list string) (key : string) :
  AddEnvFlags env envVars = Some env' →
  ContainsRune key "=" = false → key ∉ keysOf envVars →
  Getenv env' key = Getenv env key.
Proof. apply AddEnvFlags_other. Qed.

(** The theorem at the search path, which the flags do not name. *)
Lemma AddEnvFlags_frame_witness :
  Getenv ["PATH=/bin"; "FOO=foo"; "BAR=bar"] "PATH" = Getenv ["PATH=/bin"] "PATH".
Proof.
  apply (AddEnvFlags_frame ["PATH=/bin"] _ ["FOO=foo"; "BAR=bar"] "PATH");
    [reflexivity | reflexivity | compute_done].
Defined.

(** X7. [FuzzerEnvironment] succeeds exactly when the symbolizer is
    found, its path resolves and the resolved path exists; the result
    then is the environment of the process with [ASAN_SYMBOLIZER_PATH]
    set to the resolved path and [LLVM_SYMBOLIZER_OPTS] set to
    [--relativenames], every other variable being as it was. *)
Theorem FuzzerEnvironment_env (h : EnvHost) :
  match FuzzerEnvironment h with
  | Some env =>
      ∃ path resolved,
        LLVMSymbolizerPath h = Some path ∧ EvalSymlinks h path = Some resolved
        ∧ Stat h resolved = true
        ∧ Getenv env "ASAN_SYMBOLIZER_PATH" = resolved
        ∧ Getenv env "LLVM_SYMBOLIZER_OPTS" = "--relativenames"
        ∧ ∀ key, ContainsRune key "=" = false →
                 key ≠ "ASAN_SYMBOLIZER_PATH" → key ≠ "LLVM_SYMBOLIZER_OPTS" →
                 Getenv env key = Getenv (Environ h) key
  | None =>
      ∀ path resolved,
        LLVMSymbolizerPath h = Some path → EvalSymlinks h path = Some resolved →
        Stat h resolved = false
  end.
Proof.
  unfold FuzzerEnvironment.
  destruct (LLVMSymbolizerPath h) as [path|]; simpl; [|done].
  destruct (EvalSymlinks h path) as [resolved|] eqn:Hresolved; simpl;
    [|intros ? ? [= <-] ?; congruence].
  destruct (Stat h resolved) eqn:Hstat; simpl.
  - exists path, resolved. split_and!; [done..| | |].
    + by rewrite Getenv_setEntry_other, Getenv_setEntry.
    + apply Getenv_setEntry.
    + intros key Hkey Hne1 Hne2. by rewrite !Getenv_setEntry_other.
  - intros ? ? [= <-] ?. congruence.
Qed.

(** X8. [SetCommonASANOptions] and [SetCommonUBSANOptions] never fail
    and change no variable but their own, whatever maps they are
    given. *)
Theorem SetCommonOptions_frame (env : list string) (ds os : list (string * string)) :
  (∃ env', SetCommonASANOptions env ds os = Some env'
           ∧ ∀ key, ContainsRune key "=" = false → key ≠ "ASAN_OPTIONS" →
                    Getenv env' key = Getenv env key)
  ∧ (∃ env', SetCommonUBSANOptions env ds os = Some env'
             ∧ ∀ key, ContainsRune key "=" = false → key ≠ "UBSAN_OPTIONS" →
                      Getenv env' key = Getenv env key).
Proof.
  split; eexists; (split; [reflexivity|]);
    intros key Hkey Hne; by apply Getenv_setEntry_other.
Qed.

End RunnerEnvironment.

(** *** More on bindings and their serialised form *)
Section BindingsMore.
Import GoStrings Minijail.

Lemma SplitN_nonempty s sep n : SplitN s sep (S n) ≠ [].
Proof.
  destruct s, n; simpl; try done. case_decide; [done|]. by case_match.
Qed.

Lemma SplitN_length s sep : ∀ n, (length (SplitN s sep n) ≤ n)%nat.
Proof.
  induction s as [|c s IH]; intros [|[|n]]; simpl; try lia.
  case_decide.
  - specialize (IH (S n)). simpl. lia.
  - specialize (IH (S (S n))). destruct (SplitN s sep (S (S n))); simpl in *; lia.
Qed.

(** What the first field of a split says about the string. *)
Lemma SplitN_cons_inv s sep : ∀ n h t,
  SplitN s sep (S (S n)) = h :: t →
  ContainsRune h sep = false
  ∧ match t with
    | [] => s = h
    | _ => ∃ rest, s = h +:+ String sep rest ∧ t = SplitN rest sep (S n)
    end.
Proof.
  induction s as [|c s IH]; intros n h t; simpl.
  - by intros [= <- <-].
  - case_decide as Hc.
    + intros [= <- <-]. subst c. split; [done|].
      pose proof (SplitN_nonempty s sep n).
      destruct (SplitN s sep (S n)) eqn:Hs; [done|]. rewrite <-Hs. by exists s.
    + destruct (SplitN s sep (S (S n))) as [|h' t'] eqn:Hs.
      { by apply SplitN_nonempty in Hs. }
      intros [= <- <-]. destruct (IH _ _ _ Hs) as [Hh Ht].
      split; [simpl; by rewrite decide_False|].
      destruct t' as [|x t']; [by subst|].
      destruct Ht as (rest & -> & Ht). by exists rest.
Qed.

(** X9. [BindingFromString] fails in one way only: the string has at
    least two commas and what follows the second comma is not an
    integer. Its last return statement, the "Bad binding" error, is
    never reached. *)
Theorem BindingFromString_error (s : string) (e : error) :
  BindingFromString s = inr e →
  ∃ t0 t1 t2,
    s = t0 +:+ "," +:+ t1 +:+ "," +:+ t2
    ∧ ContainsRune t0 "," = false ∧ ContainsRune t1 "," = false
    ∧ Atoi t2 = None ∧ e = AtoiError t2.
Proof.
  unfold BindingFromString.
  pose proof (SplitN_length s "," 3) as Hlen.
  destruct (SplitN s "," 3) as [|t0 [|t1 [|t2 [|t3 rest]]]] eqn:Hs; try done.
  - by apply SplitN_nonempty in Hs.
  - destruct (Atoi t2) eqn:Hatoi; [done|]. intros [= <-].
    apply SplitN_cons_inv in Hs as (H0 & rest & -> & Hs). symmetry in Hs.
    apply SplitN_cons_inv in Hs as (H1 & rest2 & -> & Hs).
    rewrite SplitN_one in Hs. injection Hs as ->.
    exists t0, t1, rest2. by string_app.
  - simpl in Hlen. lia.
Qed.

(** The theorem at a binding with a word for its writable option. *)
Lemma BindingFromString_error_witness :
  ∃ t0 t1 t2,
    "/src,/dst,rw" = t0 +:+ "," +:+ t1 +:+ "," +:+ t2
    ∧ ContainsRune t0 "," = false ∧ ContainsRune t1 "," = false
    ∧ Atoi t2 = None ∧ AtoiError "rw" = AtoiError t2.
Proof. apply BindingFromString_error. reflexivity. Defined.

(** X10. [String] tells bindings apart: two bindings without commas and
    with declared writable options that have the same [String] form are
    the same binding, up to an empty target standing for the source. *)
Theorem String_injective (b1 b2 : Binding) :
  ContainsRune (Source b1) "," = false → ContainsRune (Target b1) "," = false →
  Writable b1 = ReadOnly ∨ Writable b1 = ReadWrite →
  ContainsRune (Source b2) "," = false → ContainsRune (Target b2) "," = false →
  Writable b2 = ReadOnly ∨ Writable b2 = ReadWrite →
  (String_ b1).1 = (String_ b2).1 → fillTarget b1 = fillTarget b2.
Proof.
  intros Hs1 Ht1 Hw1 Hs2 Ht2 Hw2 Heq.
  pose proof (BindingFromString_fillTarget b1 Hs1 Ht1 Hw1) as H1.
  pose proof (BindingFromString_fillTarget b2 Hs2 Ht2 Hw2) as H2.
  rewrite Heq, H2 in H1. by injection H1.
Qed.

(** The theorem at a binding without target and the same binding with
    its target spelled out. *)
Lemma String_injective_witness :
  fillTarget (mkBinding "/build" "" ReadOnly) = fillTarget (mkBinding "/build" "/build" ReadOnly).
Proof. apply String_injective; try reflexivity; by left. Defined.

Lemma plainPath_spec s :
  plainPath s = true →
  ContainsRune s "," = false ∧ ContainsRune s ":" = false ∧ ContainsRune s "000" = false.
Proof. unfold plainPath. rewrite !andb_true_iff, !negb_true_iff. tauto. Qed.

(** X11. What [getMinijailBinding] writes, [BindingFromString] reads:
    for a path that resolves, without commas on either side, the string
    parses to the binding from the resolved path to the path itself,
    read-write exactly when [ReadWrite] was asked for. *)
Theorem getMinijailBinding_parses (EvalSymlinks : string → option string)
    (path src : string) (writable : WritableOption) :
  EvalSymlinks path = Some src →
  ContainsRune src "," = false → ContainsRune path "," = false →
  ∃ str, getMinijailBinding EvalSymlinks path writable = Some str
         ∧ BindingFromString str
           = inl (mkBinding src path
                    (if decide (writable = ReadWrite) then ReadWrite else ReadOnly)).
Proof.
  intros Hsrc Hs Hp. unfold getMinijailBinding. rewrite Hsrc. simpl.
  eexists. split; [done|]. rewrite BindingFromString_three by (by try case_decide).
  by case_decide.
Qed.

(** The theorem at a symlinked build directory and a writable option
    outside the declared constants. *)
Lemma getMinijailBinding_parses_witness :
  ∃ str, getMinijailBinding (λ _, Some "/data/build") "/home/build" 7 = Some str
         ∧ BindingFromString str = inl (mkBinding "/data/build" "/home/build" ReadOnly).
Proof. apply (getMinijailBinding_parses _ "/home/build" "/data/build" 7); reflexivity. Defined.

End BindingsMore.

(** *** Bindings added the deprecated way *)
Section DeprecatedBindings.
Import GoStrings Minijail.

Local Abbreviation NUL := ("000"%char).

Lemma resolvesPlainly_spec EvalSymlinks pw :
  resolvesPlainly EvalSymlinks pw = true →
  ∃ src, EvalSymlinks pw.1 = Some src ∧ plainPath src = true ∧ plainPath pw.1 = true.
Proof.
  unfold resolvesPlainly. destruct (EvalSymlinks pw.1) as [src|]; [|done].
  rewrite andb_true_iff. intros [??]. by exists src.
Qed.

(** The string of a path that resolves plainly. *)
Lemma getMinijailBinding_plain EvalSymlinks pw :
  resolvesPlainly EvalSymlinks pw = true →
  ∃ str, getMinijailBinding EvalSymlinks pw.1 pw.2 = Some str
         ∧ str ≠ "" ∧ ContainsRune str ":" = false ∧ ContainsRune str NUL = false
         ∧ BindingFromString str = inl (deprecatedBinding EvalSymlinks pw).
Proof.
  intros (src & Hsrc & Hs & Hp)%resolvesPlainly_spec.
  apply plainPath_spec in Hs as (Hs1 & Hs2 & Hs3).
  apply plainPath_spec in Hp as (Hp1 & Hp2 & Hp3).
  unfold getMinijailBinding, deprecatedBinding. rewrite Hsrc. simpl.
  eexists. split; [done|]. split_and!.
  - apply append_nonempty_r. by string_app.
  - rewrite !ContainsRune_app, Hs2, Hp2. case_decide; reflexivity.
  - rewrite !ContainsRune_app, Hs3, Hp3. case_decide; reflexivity.
  - rewrite BindingFromString_three by (by try case_decide). by case_decide.
Qed.

Lemma osGetenv_osSetenv procEnv key value procEnv' :
  osSetenv procEnv key value = Some procEnv' →
  osGetenv procEnv' key = value ∧ ∀ k, k ≠ key → procEnv' !! k = procEnv !! k.
Proof.
  unfold osSetenv, osGetenv. case_decide; [done|]. case_match; [done|].
  intros [= <-]. split; [by rewrite lookup_insert_eq|].
  intros k Hk. by rewrite lookup_insert_ne.
Qed.

Lemma osSetenv_bindings procEnv value :
  ContainsRune value NUL = false →
  osSetenv procEnv BindingsEnvVarName value = Some (<[BindingsEnvVarName := value]> procEnv).
Proof.
  intros Hvalue. unfold osSetenv. rewrite Hvalue.
  assert (ContainsRune BindingsEnvVarName "=" || ContainsRune BindingsEnvVarName NUL || false
          = false) as -> by reflexivity.
  by rewrite decide_False.
Qed.

Lemma addAllDeprecated_Getenv EvalSymlinks paths : ∀ procEnv,
  forallb (resolvesPlainly EvalSymlinks) paths = true →
  ContainsRune (osGetenv procEnv BindingsEnvVarName) NUL = false →
  ∃ procEnv',
    addAllDeprecated EvalSymlinks procEnv paths = Some procEnv'
    ∧ osGetenv procEnv' BindingsEnvVarName
      = foldl extendBindings (osGetenv procEnv BindingsEnvVarName)
          ((λ pw, default "" (getMinijailBinding EvalSymlinks pw.1 pw.2)) <$> paths)
    ∧ ∀ k, k ≠ BindingsEnvVarName → procEnv' !! k = procEnv !! k.
Proof.
  induction paths as [|[path writable] paths IH]; intros procEnv Hok Hnul.
  { by exists procEnv. }
  cbn [forallb] in Hok. apply andb_true_iff in Hok as [Hpw Hrest].
  destruct (getMinijailBinding_plain _ _ Hpw) as (str & Hstr & Hne & _ & Hnul' & _).
  cbn [fst snd] in Hstr.
  cbn [addAllDeprecated]. unfold AddMinijailBindingDeprecated. rewrite Hstr.
  cbn [mbind option_bind].
  change (if decide (osGetenv procEnv BindingsEnvVarName = "") then str
          else osGetenv procEnv BindingsEnvVarName +:+ ":" +:+ str)
    with (extendBindings (osGetenv procEnv BindingsEnvVarName) str).
  set (value := extendBindings _ _).
  assert (Hvalue : ContainsRune value NUL = false).
  { unfold value, extendBindings. case_decide; [done|].
    by rewrite !ContainsRune_app, Hnul, Hnul'. }
  destruct (osSetenv procEnv BindingsEnvVarName value) as [procEnv1|] eqn:Hset; last first.
  { by rewrite osSetenv_bindings in Hset. }
  apply osGetenv_osSetenv in Hset as [Hget Hother].
  destruct (IH procEnv1 Hrest) as (procEnv' & Hadd & Hget' & Hother').
  { by rewrite Hget. }
  exists procEnv'. split_and!; [done | |].
  - rewrite Hget', Hget. cbn [fmap list_fmap foldl fst snd]. by rewrite Hstr.
  - intros k Hk. by rewrite Hother', Hother.
Qed.

(** X12. Paths added with [AddMinijailBindingDeprecated] reach the
    sandbox: when the variable is unset or empty to begin with and every
    path resolves, with no comma, colon or NUL byte in the path or in
    what it resolves to, then all the calls succeed, no other variable
    of the process changes, and the loop of [NewMinijail] reads back,
    in order, one binding per path from the resolved path to the path
    itself. *)
Theorem AddMinijailBindingDeprecated_NewMinijail
    (EvalSymlinks : string → option string) (procEnv : gmap string string)
    (paths : list (string * WritableOption)) :
  osGetenv procEnv BindingsEnvVarName = "" →
  forallb (resolvesPlainly EvalSymlinks) paths = true →
  ∃ procEnv',
    addAllDeprecated EvalSymlinks procEnv paths = Some procEnv'
    ∧ additionalBindings (osGetenv procEnv' BindingsEnvVarName)
      = inl (deprecatedBinding EvalSymlinks <$> paths)
    ∧ ∀ k, k ≠ BindingsEnvVarName → procEnv' !! k = procEnv !! k.
Proof.
  intros Henv Hok.
  assert (Hall : Forall (λ pw, resolvesPlainly EvalSymlinks pw = true) paths).
  { apply Forall_forall. intros pw Hpw.
    by apply (proj1 (forallb_forall _ _) Hok), list_elem_of_In. }
  destruct (addAllDeprecated_Getenv EvalSymlinks paths procEnv Hok)
    as (procEnv' & Hadd & Hget & Hother); [by rewrite Henv|].
  exists procEnv'. split_and!; [done| |done].
  rewrite Hget, Henv, foldl_extendBindings_empty; last first.
  { apply Forall_fmap. eapply Forall_impl; [done|]. intros pw Hpw. simpl.
    destruct (getMinijailBinding_plain _ _ Hpw) as (str & -> & ? & _). done. }
  unfold additionalBindings.
  destruct paths as [|pw paths]; [done|].
  rewrite (Split_Join _ ":"); [|done|]; last first.
  { apply Forall_fmap. eapply Forall_impl; [done|]. intros pw' Hpw'. simpl.
    destruct (getMinijailBinding_plain _ _ Hpw') as (str & -> & _ & ? & _). done. }
  clear Hadd Hget Hok. induction Hall as [|pw' paths' Hpw' _ IH]; [done|].
  destruct (getMinijailBinding_plain _ _ Hpw') as (str & Hstr & Hne & _ & _ & Hparse).
  cbn [fmap list_fmap additionalBindingsLoop]. rewrite Hstr.
  change (default "" (Some str)) with str.
  rewrite decide_False by done. rewrite Hparse.
  change (list_fmap _ _ ?f ?l) with (f <$> l) in *. by rewrite IH.
Qed.

(** The theorem at a read-write output directory behind a symlink and a
    read-only source directory, in a process with an unrelated variable. *)
Lemma AddMinijailBindingDeprecated_NewMinijail_witness :
  let EvalSymlinks path := if decide (path = "/out") then Some "/mnt/out" else Some path in
  ∃ procEnv',
    addAllDeprecated EvalSymlinks {[ "HOME" := "/root" ]} [("/out", ReadWrite); ("/src", ReadOnly)]
    = Some procEnv'
    ∧ additionalBindings (osGetenv procEnv' BindingsEnvVarName)
      = inl [mkBinding "/mnt/out" "/out" ReadWrite; mkBinding "/src" "/src" ReadOnly]
    ∧ ∀ k, k ≠ BindingsEnvVarName → procEnv' !! k = ({[ "HOME" := "/root" ]} : gmap string string) !! k.
Proof.
  intros EvalSymlinks.
  apply (AddMinijailBindingDeprecated_NewMinijail EvalSymlinks {[ "HOME" := "/root" ]}
           [("/out", ReadWrite); ("/src", ReadOnly)]); reflexivity.
Defined.

End DeprecatedBindings.

(** *** The config file and the arguments of the sandbox *)
Section MinijailConfigFile.
Import GoStrings MinijailConfig.

Lemma NewMinijail_setup_bindings h opts :
  setupBindings <$> NewMinijail_setup h opts = NewMinijail_bindings h opts.
Proof.
  unfold NewMinijail_setup, NewMinijail_bindings.
  repeat (match goal with
          | |- context [mbind _ ?x] => destruct x; cbn [mbind option_bind]; try done
          end).
Qed.

Lemma configLoop_prefix h f chrootDir bindings : ∀ lines,
  lines `prefix_of` (configLoop h f chrootDir bindings lines).1.
Proof.
  induction bindings as [|b bindings IH]; intros lines; [done|].
  cbn [configLoop]. destruct (fileutilExists f _) as [[]|]; [|done..].
  case_match; [done|]. etrans; [|apply IH]. by apply prefix_app_r.
Qed.

Lemma configLoop_lines h f chrootDir bindings : ∀ lines,
  (configLoop h f chrootDir bindings lines).2 = true →
  (configLoop h f chrootDir bindings lines).1
  = lines ++ (bindMountLine <$> filter (λ b, sourceExists f b = true) bindings).
Proof.
  induction bindings as [|b bindings IH]; intros lines.
  { intros _. by rewrite app_nil_r. }
  cbn [configLoop]. rewrite fillTarget_Source. unfold sourceExists at 1.
  destruct (fileutilExists f (Source b)) as [[]|] eqn:Hex; [| |done].
  - case_match; [done|]. intros Hok. rewrite IH by done.
    rewrite filter_cons_True by (unfold sourceExists; by rewrite Hex).
    by rewrite <-app_assoc.
  - intros Hok. rewrite IH by done.
    rewrite filter_cons_False; [done|]. unfold sourceExists. rewrite Hex.
    by rewrite bool_decide_eq_false_2.
Qed.

(** X13. [NewMinijail] never takes a line out of the package's config
    lines: whatever the host does and whether or not the call succeeds,
    the lines before the call are a prefix of the lines after it. *)
Theorem NewMinijail_keeps_lines (JoinSlices : string → list (list string) → list string)
    (h : Host) (f : FileHost) (lines : list string) (opts : Options) :
  lines `prefix_of` (NewMinijail JoinSlices h f lines opts).1.
Proof.
  unfold NewMinijail. destruct (NewMinijail_setup h opts) as [s|]; [|done].
  pose proof (configLoop_prefix h f (setupChrootDir s) (setupBindings s) lines) as Hpre.
  destruct (configLoop _ _ _ _ _) as [lines' []]; [|done].
  by case_match.
Qed.

(** What a successful call has done. *)
Lemma NewMinijail_Some JoinSlices h f lines opts m :
  (NewMinijail JoinSlices h f lines opts).2 = Some m →
  ∃ s, NewMinijail_setup h opts = Some s
       ∧ (NewMinijail JoinSlices h f lines opts).1
         = lines ++ (bindMountLine <$> filter (λ b, sourceExists f b = true) (setupBindings s))
       ∧ configFileContent m
         = Join ("% minijail-config-file v0" :: (NewMinijail JoinSlices h f lines opts).1) newline
       ∧ configFile m = Filepath.Join [setupChrootDir s; "minijail.conf"]
       ∧ WriteFile f (configFile m) (configFileContent m) = true
       ∧ jailOptions m
         = mkOptions (setupPath s :: tail (Args opts)) (Minijail.fillTarget <$> Bindings opts)
                     (OutputDir opts)
       ∧ let minijailArgs :=
           setupMinijailPath s :: fixedMinijailArgs ++ ["-T"; "static"; "--ambient"]
             ++ ["-P"; setupChrootDir s] ++ ["--config"; configFile m] in
         let processWrapperArgs := [setupProcessWrapperPath s; setupWorkdir s] in
         jailArgs m
         = if decide (DebugSleepForever f ≠ "") then
             JoinSlices "--"
               [minijailArgs ++ ["-b"; "/bin"];
                processWrapperArgs ++ ["CMD=" +:+ Join (setupPath s :: tail (Args opts)) " "];
                ["/bin/sh"]]
           else JoinSlices "--" [minijailArgs; processWrapperArgs; setupPath s :: tail (Args opts)].
Proof.
  unfold NewMinijail. destruct (NewMinijail_setup h opts) as [s|]; [|done].
  pose proof (configLoop_lines h f (setupChrootDir s) (setupBindings s) lines) as Hlines.
  destruct (configLoop _ _ _ _ _) as [lines' []]; [|done].
  cbn [fst snd] in Hlines. specialize (Hlines eq_refl).
  destruct (WriteFile f _ _) eqn:Hwrite; [|done].
  cbn [negb fst snd]. intros [= <-]. exists s. cbn.
  by split_and!.
Qed.

(** X14. The config file of a successful call: its content is the
    header line, the config lines that the package held before the
    call, and one [bind-mount] line for each binding whose source
    exists, in the order of the bindings, joined by newlines; and the
    package holds those lines afterwards. *)
Theorem NewMinijail_config (JoinSlices : string → list (list string) → list string)
    (h : Host) (f : FileHost) (lines : list string) (opts : Options) (m : minijail) :
  (NewMinijail JoinSlices h f lines opts).2 = Some m →
  ∃ bindings,
    NewMinijail_bindings h opts = Some bindings
    ∧ (NewMinijail JoinSlices h f lines opts).1
      = lines ++ (bindMountLine <$> filter (λ b, sourceExists f b = true) bindings)
    ∧ configFileContent m
      = Join ("% minijail-config-file v0"
                :: lines ++ (bindMountLine <$> filter (λ b, sourceExists f b = true) bindings))
             newline.
Proof.
  intros (s & Hs & Hlines & Hcontent & _)%NewMinijail_Some.
  exists (setupBindings s). split_and!.
  - by rewrite <-NewMinijail_setup_bindings, Hs.
  - done.
  - by rewrite Hcontent, Hlines.
Qed.

(** The theorem at a host with one subdirectory of [/tmp], on which
    [/dev/urandom] does not exist, at the first call in the process. *)
Lemma NewMinijail_config_witness :
  let h := exampleHost [mkDirEntry "proj" true (Some 3)] in
  let r := NewMinijail exampleJoinSlices h (exampleFileHost "") minijailConfigLines
             (exampleOptions "/out") in
  ∃ m bindings,
    r.2 = Some m
    ∧ NewMinijail_bindings h (exampleOptions "/out") = Some bindings
    ∧ r.1 = minijailConfigLines
            ++ (bindMountLine <$> filter (λ b, sourceExists (exampleFileHost "") b = true) bindings)
    ∧ configFileContent m
      = Join ("% minijail-config-file v0"
                :: minijailConfigLines
                ++ (bindMountLine
                      <$> filter (λ b, sourceExists (exampleFileHost "") b = true) bindings))
             newline.
Proof.
  intros h r.
  assert (Hm : ∃ m, r.2 = Some m) by (eexists; vm_compute; reflexivity).
  destruct Hm as [m Hm]. exists m.
  destruct (NewMinijail_config _ _ _ _ _ m Hm) as (bindings & ? & ? & ?).
  by exists bindings.
Defined.

Lemma exampleJoinSlices_joins : joinsWithDelimiter exampleJoinSlices.
Proof. intros delim a b c. unfold exampleJoinSlices. simpl. by rewrite app_nil_r. Qed.

Lemma NewMinijail_setup_Some h opts s :
  NewMinijail_setup h opts = Some s →
  head (Args opts) ≫= EvalSymlinks h = Some (setupPath s)
  ∧ Getwd h = Some (setupWorkdir s)
  ∧ ProcessWrapperPath h = Some (setupProcessWrapperPath s).
Proof.
  unfold NewMinijail_setup.
  repeat (match goal with
          | |- context [mbind _ ?x] => destruct x; cbn [mbind option_bind]; try done
          end).
  by intros [= <-].
Qed.

(** X15. The command line of the sandbox, without the debug variable:
    given that [JoinSlices] puts the delimiter between the slices, the
    arguments of a successful call are those of minijail, [--], and
    then the process wrapper with the working directory, [--], the
    resolved executable and the caller's remaining arguments; and the
    process wrapper, run with its part of them, changes to the working
    directory and executes the resolved executable with the caller's
    arguments. *)
Theorem NewMinijail_runs_executable
    (JoinSlices : string → list (list string) → list string)
    (h : Host) (f : FileHost) (lines : list string) (opts : Options) (m : minijail)
    (ph : ProcessWrapper.Host) :
  joinsWithDelimiter JoinSlices →
  DebugSleepForever f = "" →
  (NewMinijail JoinSlices h f lines opts).2 = Some m →
  ∃ minijailArgs wrapper workdir path,
    jailArgs m
    = minijailArgs ++ "--" :: wrapper :: workdir :: "--" :: path :: tail (Args opts)
    ∧ head (Args opts) ≫= EvalSymlinks h = Some path
    ∧ Getwd h = Some workdir
    ∧ ProcessWrapperPath h = Some wrapper
    ∧ ProcessWrapper.main ph (wrapper :: workdir :: "--" :: path :: tail (Args opts))
      = Some (if ProcessWrapper.chdir ph workdir then
                ([ProcessWrapper.Chdir workdir;
                  ProcessWrapper.Execv (ProcessWrapper.Ptr path) (path :: tail (Args opts))],
                 if ProcessWrapper.execv ph path (path :: tail (Args opts))
                 then ProcessWrapper.Replaced path (path :: tail (Args opts))
                 else ProcessWrapper.Returns 1)
              else ([ProcessWrapper.Chdir workdir], ProcessWrapper.Returns 1)).
Proof.
  intros HJ Hdebug (s & Hs & _ & _ & _ & _ & _ & Hargs)%NewMinijail_Some.
  cbn zeta in Hargs. rewrite decide_False in Hargs by (by intros []).
  rewrite HJ in Hargs.
  apply NewMinijail_setup_Some in Hs as (Hpath & Hwd & Hpw).
  eexists _, _, _, _. split_and!; [exact Hargs|done..|].
  apply main_executes.
Qed.

(** The theorem at the example host. *)
Lemma NewMinijail_runs_executable_witness :
  let h := exampleHost [mkDirEntry "proj" true (Some 3)] in
  ∃ m minijailArgs wrapper workdir,
    (NewMinijail exampleJoinSlices h (exampleFileHost "") minijailConfigLines
       (exampleOptions "")).2 = Some m
    ∧ jailArgs m
      = minijailArgs ++ ["--"; wrapper; workdir; "--"; "/work/fuzz_test"; "-runs=0"]
    ∧ ProcessWrapper.main (ProcessWrapper.mkHost (λ _, true) (λ _ _, true))
        [wrapper; workdir; "--"; "/work/fuzz_test"; "-runs=0"]
      = Some ([ProcessWrapper.Chdir workdir;
               ProcessWrapper.Execv (ProcessWrapper.Ptr "/work/fuzz_test")
                 ["/work/fuzz_test"; "-runs=0"]],
              ProcessWrapper.Replaced "/work/fuzz_test" ["/work/fuzz_test"; "-runs=0"]).
Proof.
  intros h.
  assert (Hm : ∃ m, (NewMinijail exampleJoinSlices h (exampleFileHost "") minijailConfigLines
                       (exampleOptions "")).2 = Some m)
    by (eexists; vm_compute; reflexivity).
  destruct Hm as [m Hm]. exists m.
  destruct (NewMinijail_runs_executable exampleJoinSlices h (exampleFileHost "")
              minijailConfigLines (exampleOptions "") m
              (ProcessWrapper.mkHost (λ _, true) (λ _ _, true)))
    as (minijailArgs & wrapper & workdir & path & Hargs & Hpath & _ & _ & Hmain);
    [apply exampleJoinSlices_joins | done | done |].
  injection Hpath as <-. by exists minijailArgs, wrapper, workdir.
Defined.

(** X16. The command line of the sandbox when
    [CI_DEBUG_MINIJAIL_SLEEP_FOREVER] is set: given that [JoinSlices]
    puts the delimiter between the slices, the process wrapper gets the
    working directory, the command as [CMD=...], [--] and [/bin/sh]; run
    with these arguments it changes to the working directory and then
    calls [execv] on its fourth argument, which is the separator [--]
    and not the shell. *)
Theorem NewMinijail_debug_command
    (JoinSlices : string → list (list string) → list string)
    (h : Host) (f : FileHost) (lines : list string) (opts : Options) (m : minijail)
    (ph : ProcessWrapper.Host) :
  joinsWithDelimiter JoinSlices →
  DebugSleepForever f ≠ "" →
  (NewMinijail JoinSlices h f lines opts).2 = Some m →
  ∃ minijailArgs wrapper workdir path,
    let wrapperArgs :=
      [wrapper; workdir; "CMD=" +:+ Join (path :: tail (Args opts)) " "; "--"; "/bin/sh"] in
    jailArgs m = minijailArgs ++ "--" :: wrapperArgs
    ∧ head (Args opts) ≫= EvalSymlinks h = Some path
    ∧ Getwd h = Some workdir
    ∧ ProcessWrapperPath h = Some wrapper
    ∧ ProcessWrapper.main ph wrapperArgs
      = Some (if ProcessWrapper.chdir ph workdir then
                ([ProcessWrapper.Chdir workdir;
                  ProcessWrapper.Execv (ProcessWrapper.Ptr "--") ["--"; "/bin/sh"]],
                 if ProcessWrapper.execv ph "--" ["--"; "/bin/sh"]
                 then ProcessWrapper.Replaced "--" ["--"; "/bin/sh"]
                 else ProcessWrapper.Returns 1)
              else ([ProcessWrapper.Chdir workdir], ProcessWrapper.Returns 1)).
Proof.
  intros HJ Hdebug (s & Hs & _ & _ & _ & _ & _ & Hargs)%NewMinijail_Some.
  cbn zeta in Hargs. rewrite decide_True in Hargs by done.
  rewrite HJ in Hargs.
  apply NewMinijail_setup_Some in Hs as (Hpath & Hwd & Hpw).
  eexists _, _, _, _. split_and!; [exact Hargs|done..|].
  apply main_executes.
Qed.

(** The theorem at the example host, with the variable set to [1] and
    a process-wrapper host on which no file is called [--]. *)
Lemma NewMinijail_debug_command_witness :
  let h := exampleHost [mkDirEntry "proj" true (Some 3)] in
  let ph := ProcessWrapper.mkHost (λ _, true) (λ path _, bool_decide (path ≠ "--")) in
  ∃ m minijailArgs wrapper workdir,
    (NewMinijail exampleJoinSlices h (exampleFileHost "1") minijailConfigLines
       (exampleOptions "")).2 = Some m
    ∧ jailArgs m
      = minijailArgs
        ++ ["--"; wrapper; workdir; "CMD=/work/fuzz_test -runs=0"; "--"; "/bin/sh"]
    ∧ ProcessWrapper.main ph [wrapper; workdir; "CMD=/work/fuzz_test -runs=0"; "--"; "/bin/sh"]
      = Some ([ProcessWrapper.Chdir workdir;
               ProcessWrapper.Execv (ProcessWrapper.Ptr "--") ["--"; "/bin/sh"]],
              ProcessWrapper.Returns 1).
Proof.
  intros h ph.
  assert (Hm : ∃ m, (NewMinijail exampleJoinSlices h (exampleFileHost "1") minijailConfigLines
                       (exampleOptions "")).2 = Some m)
    by (eexists; vm_compute; reflexivity).
  destruct Hm as [m Hm]. exists m.
  destruct (NewMinijail_debug_command exampleJoinSlices h (exampleFileHost "1")
              minijailConfigLines (exampleOptions "") m ph)
    as (minijailArgs & wrapper & workdir & path & Hargs & Hpath & _ & _ & Hmain);
    [apply exampleJoinSlices_joins | done | done |].
  injection Hpath as <-. by exists minijailArgs, wrapper, workdir.
Defined.

End MinijailConfigFile.

(** *** More on [countCorpusEntries] and [executeRunner] *)
Section RunMore.
Import Run.

(** X17. [countCorpusEntries] counts the non-empty files: when every
    directory of the list exists and can be walked, the result is the
    number of files of non-zero size below the directories, a file below
    two of them counting twice, reduced modulo 2^64. *)
Theorem countCorpusEntries_counts (fs : string → option tree) (dirs : list string) :
  forallb (λ dir, from_option walkable false (fs dir)) dirs = true →
  countCorpusEntries fs dirs = inl (corpusEntries fs dirs mod uintMod).
Proof.
  intros Hall. unfold countCorpusEntries.
  rewrite countLoop_all_exist; [done| |done].
  apply Forall_forall. intros dir Hdir.
  apply list_elem_of_In in Hdir.
  pose proof (proj1 (forallb_forall _ _) Hall dir Hdir) as Hw.
  simpl in Hw. destruct (fs dir) as [t|]; [by exists t|done].
Qed.

(** The theorem at a corpus directory with a subdirectory, given twice,
    and an empty directory. *)
Lemma countCorpusEntries_counts_witness :
  let fs := λ dir : string,
    if decide (dir = "/seeds") then Some (Dir [File 3; File 0; Dir [File 1]])
    else Some (Dir []) in
  countCorpusEntries fs ["/seeds"; "/empty"; "/seeds"] = inl 4.
Proof.
  intros fs. apply (countCorpusEntries_counts fs ["/seeds"; "/empty"; "/seeds"]). reflexivity.
Defined.

Lemma walk_walkable : ∀ t seedsInDir,
  walkable t = true → ∃ n, walk seedsInDir t = inl n.
Proof.
  fix IH 1. intros [size|entries|] seeds Hw; simpl in *; [by eexists| |done].
  revert seeds. induction entries as [|e entries IHe]; intros seeds; simpl in *.
  - by eexists.
  - apply andb_true_iff in Hw as [He Hrest].
    destruct (IH e seeds He) as [n ->]. by apply IHe.
Qed.

Lemma walk_not_walkable : ∀ t seedsInDir,
  walkable t = false → walk seedsInDir t = inr ErrOther.
Proof.
  fix IH 1. intros [size|entries|] seeds Hw; simpl in *; [done| |done].
  revert seeds. induction entries as [|e entries IHe]; intros seeds; simpl in *; [done|].
  destruct (walkable e) eqn:He; simpl in Hw.
  - destruct (walk_walkable e seeds He) as [n ->]. by apply IHe.
  - by rewrite (IH e seeds He).
Qed.

(** A root that [Lstat] refuses with another error than does-not-exist,
    here a path that leads through a file, is not skipped like a missing
    directory: the count fails. *)
Example countCorpusEntries_root_not_a_directory :
  let fs := λ dir : string,
    if decide (dir = "/seeds") then Some (Dir [File 3])
    else if decide (dir = "/seeds/a.txt/sub") then Some Failing else None in
  countCorpusEntries fs ["/seeds"; "/seeds/a.txt/sub"] = inr ErrOther
  ∧ countCorpusEntries fs ["/seeds"; "/missing"] = inl 0.
Proof. by vm_compute. Qed.

(** X18. A directory that cannot be walked makes the count fail: when
    the directories before it exist and can be walked, the result is the
    error of the walk, whatever comes after it in the list. *)
Theorem countCorpusEntries_walk_error (fs : string → option tree)
    (before after : list string) (dir : string) (t : tree) :
  forallb (λ dir, from_option walkable false (fs dir)) before = true →
  fs dir = Some t → walkable t = false →
  countCorpusEntries fs (before ++ dir :: after) = inr ErrOther.
Proof.
  intros Hbefore Hdir Hw. unfold countCorpusEntries. generalize 0.
  induction before as [|d before IH]; intros numSeeds; simpl.
  - unfold WalkDir. by rewrite Hdir, walk_not_walkable.
  - simpl in Hbefore. apply andb_true_iff in Hbefore as [Hd Hbefore].
    unfold WalkDir. destruct (fs d) as [td|]; [|done]. simpl in Hd.
    destruct (walk_walkable td 0 Hd) as [n ->]. by apply IH.
Qed.

(** The theorem at a corpus directory with an unreadable subdirectory
    between two good ones. *)
Lemma countCorpusEntries_walk_error_witness :
  let fs := λ dir : string,
    if decide (dir = "/locked") then Some (Dir [File 1; Dir [Failing]])
    else Some (Dir [File 2]) in
  countCorpusEntries fs (["/seeds"] ++ "/locked" :: ["/more"]) = inr ErrOther.
Proof.
  intros fs.
  apply (countCorpusEntries_walk_error fs ["/seeds"] ["/more"] "/locked"
           (Dir [File 1; Dir [Failing]])); reflexivity.
Defined.

Lemma step_cleanupOnce a st st' :
  cleanupOnce st → step a st = Some st' → cleanupOnce st'.
Proof.
  unfold cleanupOnce. intros Hinv Hstep.
  destruct st as [sigs h r sErr done gErr n rcv].
  destruct a, h, r; simpl in *; unfold groupReturn in *; simpl in *;
    try destruct sigs; repeat case_match; simplify_eq/=;
    try done; try (by destruct Hinv as [-> ?]); try (by left); try (by right);
    destruct Hinv as [? ?]; subst; by eauto.
Qed.

Lemma run_cleanupOnce acts : ∀ st st',
  cleanupOnce st → run acts st = Some st' → cleanupOnce st'.
Proof.
  induction acts as [|a acts IH]; intros st st' Hinv Hrun; simpl in Hrun.
  - by simplify_eq.
  - destruct (step a st) as [st1|] eqn:Hstep; [|done].
    eapply IH; [|done]. by eapply step_cleanupOnce.
Qed.

(** X19. [executeRunner] calls [runner.Cleanup] for a signal only: in
    every interleaving after which it returns, [Cleanup] has been called
    once if the handler took a signal and not at all otherwise. *)
Theorem executeRunner_cleanup (acts : list action) (st : state) :
  run acts initial = Some st → is_Some (executeRunner st) →
  cleanups st = (if received st is Some _ then 1 else 0)%nat.
Proof.
  intros Hrun [r Hr].
  assert (cleanupOnce initial) as Hinit by done.
  pose proof (run_cleanupOnce acts _ _ Hinit Hrun) as Hinv.
  unfold executeRunner in Hr. unfold cleanupOnce in Hinv.
  destruct (handler st); try done.
  destruct Hinv as [[-> ->]|[-> [s ->]]]; done.
Qed.

(** The theorem at the two ways for the handler to end: on a signal,
    and on the cancelled context with a signal left in the channel. *)
Lemma executeRunner_cleanup_witness :
  let taken := [Deliver SIGINT; SelectSignal; HandlerNext; HandlerNext; RunReturns None;
                RunnerNext; RunnerNext; HandlerNext] in
  let left := [RunReturns None; Deliver SIGINT; RunnerNext; RunnerNext; SelectDone] in
  let st1 := mkState None HExited RExited (Some (SignalError SIGINT)) true
                     (Some (SignalError SIGINT)) 1 (Some SIGINT) in
  let st2 := mkState (Some SIGINT) HExited RExited None true None 0 None in
  (run taken initial = Some st1 ∧ cleanups st1 = 1%nat)
  ∧ (run left initial = Some st2 ∧ cleanups st2 = 0%nat).
Proof.
  intros taken left st1 st2.
  assert (run taken initial = Some st1) as H1 by (vm_compute; reflexivity).
  assert (run left initial = Some st2) as H2 by (vm_compute; reflexivity).
  split; (split; [done|]).
  - apply (executeRunner_cleanup taken st1 H1). by eexists.
  - apply (executeRunner_cleanup left st2 H2). by eexists.
Defined.

Lemma runErrors_app acts1 acts2 : runErrors (acts1 ++ acts2) = runErrors acts1 ++ runErrors acts2.
Proof. apply omap_app. Qed.

Lemma step_runnerErrorKept acts a st st' :
  runnerErrorKept acts st → step a st = Some st' → runnerErrorKept (acts ++ [a]) st'.
Proof.
  unfold runnerErrorKept. rewrite runErrors_app. intros [Hrun Hsig] Hstep.
  destruct st as [sigs h r sErr done gErr n rcv].
  destruct a, h, r; simpl in *; unfold groupReturn in *; simpl in *;
    try destruct sigs; repeat case_match; simplify_eq/=;
    rewrite ?app_nil_r; try (rewrite Hrun; simpl).
  all: try (split; [done|]; intros Hr; destruct (Hsig Hr) as (? & [?|?] & Hg); by simplify_eq).
  all: try (split; [done|]; intros Hr; destruct (Hsig Hr) as (? & [?|?] & Hg); simplify_eq;
            split_and!; eauto; done).
  all: try (split; [done|]; done).
  all: try (split; [|intros Hr; destruct (Hsig Hr) as (? & [?|?] & Hg); simplify_eq;
                     split_and!; eauto; done];
            first [ destruct Hrun as (err & -> & Hg'); exists err; split; [done|];
                    intros Hr; destruct (Hsig Hr) as (? & [?|?] & Hg); simplify_eq; eauto; fail
                  | eexists; split; [done|];
                    intros Hr; destruct (Hsig Hr) as (? & [?|?] & Hg); simplify_eq;
                    try (rewrite Hg by done); done ]).
  all: try (split; [destruct Hrun as (err & ? & ?); exists err; by split | by intros ?]).
  all: split; [eexists; split; [done|] |];
       intros Hr; destruct (Hsig Hr) as (_ & _ & Hg); by specialize (Hg ltac:(done)).
Qed.

Lemma run_runnerErrorKept acts : ∀ st,
  run acts initial = Some st → runnerErrorKept acts st.
Proof.
  induction acts as [|a acts IH] using rev_ind; intros st Hrun.
  - simpl in Hrun. simplify_eq. split; [done|]. intros _. split_and!; [done|by left|done].
  - rewrite run_app in Hrun.
    destruct (run acts initial) as [st0|] eqn:Hrun0; [|done]. simpl in Hrun.
    destruct (step a st0) as [st1|] eqn:Hstep; [|done]. simpl in Hrun. simplify_eq.
    eapply step_runnerErrorKept; [|done]. by apply IH.
Qed.

(** X20. Without a signal the error of [executeRunner] is the error of
    [runner.Run]: in every interleaving after which [executeRunner]
    returns and in which the handler took no signal, [Run] returned
    exactly once, and [executeRunner] returns what [Run] returned, an
    [ExecError] wrapped as a silent error, [nil] as [nil]. *)
Theorem executeRunner_runner_error (acts : list action) :
  receivedSignal acts = None → is_Some (outcome acts) →
  ∃ err, runErrors acts = [err] ∧ outcome acts = Some (silenceExecError err).
Proof.
  unfold receivedSignal, outcome. intros Hrcv [r Hr].
  destruct (run acts initial) as [st|] eqn:Hrun; [|done]. simpl in *.
  destruct (run_runnerErrorKept acts st Hrun) as [Hkept Hsig].
  destruct (Hsig Hrcv) as (HsErr & _ & _).
  unfold executeRunner in *.
  destruct (handler st); try done. destruct (runnerAt st); try done.
  destruct Hkept as (err & Herrs & Hg). exists err. split; [done|].
  rewrite HsErr, (Hg Hrcv). unfold silenceExecError. by repeat case_match.
Qed.

(** The theorem at a run that fails with an [ExecError] while a signal
    is delivered too late for the handler to take it. *)
Lemma executeRunner_runner_error_witness :
  let acts := [RunReturns (Some (ExecError "exit status 1")); RunnerNext; Deliver SIGINT;
               RunnerNext; SelectDone] in
  ∃ err, runErrors acts = [err] ∧ outcome acts = Some (silenceExecError err).
Proof.
  intros acts. apply (executeRunner_runner_error acts); [reflexivity|by eexists].
Defined.

(** X21. [executeRunner] does not hang on its goroutines: every
    interleaving that the program can have gone through can be
    continued, by [runner.Run] returning and the goroutines taking
    their next steps and without a further signal, to one after which
    both goroutines have returned and [executeRunner] returns. *)
Theorem executeRunner_returns (acts : list action) (st : state) :
  run acts initial = Some st →
  ∃ acts', Forall (λ a, ∀ s, a ≠ Deliver s) acts' ∧ is_Some (outcome (acts ++ acts')).
Proof.
  intros Hrun.
  assert (cancelledAfterRun initial) as Hinit by done.
  pose proof (run_cancelledAfterRun acts _ _ Hinit Hrun) as Hc.
  unfold outcome. setoid_rewrite run_app. rewrite Hrun. simpl.
  destruct st as [sigs h r sErr done gErr n rcv]. unfold cancelledAfterRun in Hc.
  simpl in Hc.
  assert (∃ accR, ∃ st1, Forall (λ a, ∀ s, a ≠ Deliver s) accR
            ∧ run accR (mkState sigs h r sErr done gErr n rcv) = Some st1
            ∧ handler st1 = h ∧ runnerAt st1 = RExited ∧ ctxDone st1 = true)
    as (accR & st1 & HaccR & Hrun1 & Hh & Hr & Hd).
  { destruct r as [|err|err|].
    - exists [RunReturns None; RunnerNext; RunnerNext].
      destruct h; eexists; (split; [by repeat constructor|done]).
    - exists [RunnerNext; RunnerNext].
      destruct h, err, gErr; eexists; (split; [by repeat constructor|done]).
    - exists [RunnerNext]. subst done.
      destruct h, err, gErr; eexists; (split; [by repeat constructor|done]).
    - exists []. eexists. by split. }
  destruct st1 as [sigs1 h1 r1 sErr1 done1 gErr1 n1 rcv1]. simpl in *. subst.
  assert (∃ accH, ∃ st2, Forall (λ a, ∀ s, a ≠ Deliver s) accH
            ∧ run accH (mkState sigs1 h RExited sErr1 true gErr1 n1 rcv1) = Some st2
            ∧ handler st2 = HExited ∧ runnerAt st2 = RExited)
    as (accH & st2 & HaccH & Hrun2 & Hh2 & Hr2).
  { destruct h as [|s|s|s|].
    - exists [SelectDone]. eexists. (split; [by repeat constructor|done]).
    - exists [HandlerNext; HandlerNext; HandlerNext].
      destruct gErr1; eexists; (split; [by repeat constructor|done]).
    - exists [HandlerNext; HandlerNext].
      destruct sErr1, gErr1; eexists; (split; [by repeat constructor|done]).
    - exists [HandlerNext].
      destruct sErr1, gErr1; eexists; (split; [by repeat constructor|done]).
    - exists []. eexists. by split. }
  exists (accR ++ accH). split; [by apply Forall_app|].
  rewrite run_app, Hrun1. simpl. rewrite Hrun2. simpl.
  unfold executeRunner. rewrite Hh2, Hr2. by repeat case_match.
Qed.

(** The theorem at the start of a run, with a signal in the channel
    and the handler about to take it. *)
Lemma executeRunner_returns_witness :
  ∃ acts', Forall (λ a, ∀ s, a ≠ Deliver s) acts'
           ∧ is_Some (outcome ([Deliver SIGTERM; SelectSignal] ++ acts')).
Proof. by eapply (executeRunner_returns [Deliver SIGTERM; SelectSignal]). Defined.

End RunMore.

(** *** More on the process wrapper *)
Section ProcessWrapperMore.
Import ProcessWrapper.

(** X22. The process wrapper on any argument vector: it reads no
    argument beyond the null pointer that ends the vector, it never
    returns status 0, and it calls [execv] only after [chdir] to its
    second argument has succeeded, with the arguments from the fourth
    on. *)
Theorem main_calls (h : Host) (argv : list string) :
  ∃ calls out,
    main h argv = Some (calls, out)
    ∧ out ≠ Returns 0
    ∧ ∀ path args, Execv path args ∈ calls →
        ∃ dir, argv !! 1%nat = Some dir ∧ chdir h dir = true
               ∧ calls = [Chdir dir; Execv path args] ∧ args = drop 3 argv.
Proof.
  assert (∀ dir path args, Execv path args ∈ [Chdir dir] → False) as Hno.
  { intros dir path args Hin. by apply list_elem_of_singleton in Hin. }
  assert (∀ dir path args path' args',
            Execv path args ∈ [Chdir dir; Execv path' args'] →
            path' = path ∧ args' = args) as Hyes.
  { intros dir path args path' args' Hin.
    apply elem_of_cons in Hin as [|Hin]; [done|].
    apply list_elem_of_singleton in Hin. by simplify_eq. }
  destruct argv as [|w [|dir [|sep rest]]].
  1-3: rewrite main_usage by (cbn [length]; lia); eexists _, _;
       (split_and!; [done..|]); intros path args Hin; by apply elem_of_nil in Hin.
  destruct rest as [|path rest].
  - assert (main h [w; dir; sep]
            = Some (if chdir h dir then ([Chdir dir; Execv NULL []], Returns 1)
                    else ([Chdir dir], Returns 1))) as ->.
    { destruct h as [chdir execv]. unfold main.
      rewrite decide_False by (cbn [length]; lia). cbn. by destruct (chdir dir). }
    destruct (chdir h dir) eqn:Hchdir; eexists _, _; (split_and!; [done..|]);
      intros path args Hin.
    + apply Hyes in Hin as [<- <-]. by exists dir.
    + by apply Hno in Hin.
  - rewrite main_executes.
    destruct (chdir h dir) eqn:Hchdir; [destruct (execv h path (path :: rest))|];
      eexists _, _; (split_and!; [done..|]); intros path' args Hin.
    + apply Hyes in Hin as [<- <-]. by exists dir.
    + apply Hyes in Hin as [<- <-]. by exists dir.
    + by apply Hno in Hin.
Qed.

End ProcessWrapperMore.

(** *** The runtime dependencies and the build directories of the CMake
      adapter *)
Section CmakeMore.
Import GoStrings Envutil Cmake.

Lemma cutAtSpace_app status dep :
  ContainsRune status " " = false →
  cutAtSpace (status +:+ " " +:+ dep) = Some (status, dep).
Proof.
  induction status as [|c status IH]; intros H; simpl in H; [done|].
  rewrite append_String. cbn [cutAtSpace]. case_decide; [done|]. by rewrite IH.
Qed.

Lemma CutPrefix_append s p q :
  CutPrefix s (p +:+ q) = CutPrefix s p ≫= λ rest, CutPrefix rest q.
Proof.
  revert s. induction p as [|c p IH]; intros s; [done|].
  string_app. destruct s as [|x s]; simpl; [done|]. by case_decide.
Qed.

Lemma CutPrefix_Some s p rest : CutPrefix s p = Some rest → s = p +:+ rest.
Proof.
  revert s. induction p as [|c p IH]; intros s; simpl.
  - destruct s; by intros [= <-].
  - destruct s as [|x s]; [done|]. case_decide; [|done]. intros Hrest%IH. by subst.
Qed.

Lemma depOfLine_CutPrefix C status line :
  depOfLine C status line
  = CutPrefix line "-- CIFUZZ " ≫= λ statusAndDep,
      CutPrefix statusAndDep (status +:+ " ") ≫= C.
Proof.
  unfold depOfLine. rewrite CutPrefix_append.
  by destruct (CutPrefix line "-- CIFUZZ ").
Qed.

(** What the three readings of a line say about it. *)
Lemma depOfLine_cases C line :
  acceptedLine C line = true →
  HasPrefix line "-- CIFUZZ " = false
  ∧ depOfLine C "UNRESOLVED" line = None ∧ depOfLine C "CONFLICTING" line = None
  ∧ depOfLine C "RESOLVED" line = None
  ∨ ∃ status dep cdep,
      line = depLine status dep ∧ C dep = Some cdep
      ∧ (status = "UNRESOLVED" ∨ status = "CONFLICTING" ∨ status = "RESOLVED")
      ∧ ∀ status', status' = "UNRESOLVED" ∨ status' = "CONFLICTING" ∨ status' = "RESOLVED" →
          depOfLine C status' line = if decide (status' = status) then Some cdep else None.
Proof.
  unfold acceptedLine. rewrite !depOfLine_CutPrefix, CutPrefix_HasPrefix.
  destruct (CutPrefix line "-- CIFUZZ ") as [statusAndDep|] eqn:Hcut.
  - rewrite bool_decide_eq_true_2 by done. cbn [negb orb mbind option_bind].
    apply CutPrefix_Some in Hcut as ->.
    rewrite !orb_true_iff, !bool_decide_eq_true. intros Hok. right.
    assert (∃ status dep cdep,
              (status = "UNRESOLVED" ∨ status = "CONFLICTING" ∨ status = "RESOLVED")
              ∧ statusAndDep = status +:+ " " +:+ dep ∧ C dep = Some cdep)
      as (status & dep & cdep & Hstatus & -> & HC).
    { destruct Hok as [[Hok|Hok]|Hok];
        destruct (CutPrefix statusAndDep _) as [dep|] eqn:Hdep;
        try (by destruct Hok);
        apply CutPrefix_Some in Hdep; rewrite append_assoc' in Hdep;
        destruct Hok as [cdep HC]; simpl in HC; eexists _, dep, cdep; eauto. }
    exists status, dep, cdep. split_and!; [done..|].
    intros status' Hstatus'. rewrite depOfLine_CutPrefix, CutPrefix_app.
    cbn [mbind option_bind].
    destruct Hstatus as [-> | [-> | ->]], Hstatus' as [-> | [-> | ->]];
      first [ by rewrite decide_False by done
            | rewrite decide_True by done; rewrite <-append_assoc', CutPrefix_app; done ].
  - rewrite bool_decide_eq_false_2 by (by intros []). intros _. by left.
Qed.

Lemma scanLines_accepted C lines : ∀ deps,
  forallb (acceptedLine C) lines = true →
  scanLines C lines deps
  = inl (mkDepLists (resolvedDeps deps ++ omap (depOfLine C "RESOLVED") lines)
                    (unresolvedDeps deps ++ omap (depOfLine C "UNRESOLVED") lines)
                    (conflictingDeps deps ++ omap (depOfLine C "CONFLICTING") lines)).
Proof.
  induction lines as [|line lines IH]; intros deps Hall.
  { simpl. rewrite !app_nil_r. by destruct deps. }
  cbn [forallb] in Hall. apply andb_true_iff in Hall as [Hline Hall].
  cbn [scanLines omap list_omap].
  destruct (depOfLine_cases C line Hline)
    as [ (Hpre & -> & -> & ->) | (status & dep & cdep & -> & HC & Hstatus & Hdeps) ].
  - rewrite Hpre. cbn [negb]. by apply IH.
  - rewrite !Hdeps by eauto. unfold depLine at 1 2. rewrite HasPrefix_app. cbn [negb].
    unfold TrimPrefix. rewrite CutPrefix_app. cbn [default from_option id].
    rewrite cutAtSpace_app by (by destruct Hstatus as [-> | [-> | ->]]). rewrite HC.
    destruct Hstatus as [-> | [-> | ->]].
    + rewrite (decide_True (P := "UNRESOLVED" = "UNRESOLVED")) by done.
      rewrite IH by done. cbn [resolvedDeps unresolvedDeps conflictingDeps].
      repeat (case_decide; try done). by rewrite <-app_assoc.
    + rewrite (decide_False (P := "CONFLICTING" = "UNRESOLVED")) by done.
      rewrite (decide_True (P := "CONFLICTING" = "CONFLICTING")) by done.
      rewrite IH by done. cbn [resolvedDeps unresolvedDeps conflictingDeps].
      repeat (case_decide; try done). by rewrite <-app_assoc.
    + rewrite (decide_False (P := "RESOLVED" = "UNRESOLVED")) by done.
      rewrite (decide_False (P := "RESOLVED" = "CONFLICTING")) by done.
      rewrite (decide_True (P := "RESOLVED" = "RESOLVED")) by done.
      rewrite IH by done. cbn [resolvedDeps unresolvedDeps conflictingDeps].
      repeat (case_decide; try done). by rewrite <-app_assoc.
Qed.

Lemma scanLines_app C lines1 lines2 : ∀ deps,
  scanLines C (lines1 ++ lines2) deps
  = match scanLines C lines1 deps with
    | inl deps => scanLines C lines2 deps
    | inr e => inr e
    end.
Proof.
  induction lines1 as [|line lines1 IH]; intros deps; [done|].
  cbn [app scanLines]. rewrite !IH.
  destruct (negb _); [done|]. destruct (cutAtSpace _) as [[status dep]|]; [|done].
  destruct (C dep); [|done]. by repeat case_decide.
Qed.

Lemma omap_nonempty_existsb {A B} (f g : A → option B) (l : list A) :
  bool_decide (omap f l ≠ [] ∨ omap g l ≠ [])
  = existsb (λ x, bool_decide (is_Some (f x)) || bool_decide (is_Some (g x))) l.
Proof.
  induction l as [|x l IH].
  { apply bool_decide_eq_false_2. by intros []. }
  cbn [omap list_omap existsb].
  destruct (f x) as [y|] eqn:Hf.
  { rewrite bool_decide_eq_true_2 by (by left).
    by rewrite (bool_decide_eq_true_2 (is_Some (Some y))) by done. }
  destruct (g x) as [z|] eqn:Hg.
  { rewrite bool_decide_eq_true_2 by (by right).
    rewrite (bool_decide_eq_true_2 (is_Some (Some z))) by done.
    by rewrite orb_true_r. }
  rewrite IH. by rewrite (bool_decide_eq_false_2 (is_Some None)) by (by intros []).
Qed.

(** X23. [getRuntimeDeps] reads the report of the install command:
    when every line that starts with [-- CIFUZZ ] reports a dependency
    with one of the three statuses and a path that can be made
    canonical, the result is the canonical paths of the [RESOLVED]
    lines, in their order, whatever else CMake prints between them; a
    path may contain spaces; and the warning is logged exactly when
    there is an [UNRESOLVED] or a [CONFLICTING] line. *)
Theorem getRuntimeDeps_report (h : DepsHost) (b : BuilderOptions) (fuzzTest : string)
    (lines : list string) :
  cmakeInstall h (BuildDir b) ("cifuzz_internal_deps_" +:+ fuzzTest) = Some lines →
  forallb (acceptedLine (CanonicalPath h)) lines = true →
  getRuntimeDeps h b fuzzTest
  = inl (omap (depOfLine (CanonicalPath h) "RESOLVED") lines,
         existsb (warnedLine (CanonicalPath h)) lines).
Proof.
  intros Hrun Hall. unfold getRuntimeDeps. rewrite Hrun, scanLines_accepted by done.
  cbn [resolvedDeps unresolvedDeps conflictingDeps app].
  f_equal. f_equal.
  apply omap_nonempty_existsb.
Qed.

(** The theorem at the report that the source gives as typical, with a
    space in one path. *)
Lemma getRuntimeDeps_report_witness :
  let lines := ["-- Install configuration: RelWithDebInfo";
                "-- CIFUZZ RESOLVED /usr/lib/system.so";
                "-- CIFUZZ UNRESOLVED not_found.so";
                "-- CIFUZZ RESOLVED /home/user/my project/build/lib/bar.so"] in
  let h := mkDepsHost (λ _ _, Some lines) (λ path, Some path) in
  getRuntimeDeps h (mkBuilderOptions "/home/user/my project" "libfuzzer" ["address"])
    "my_fuzz_test"
  = inl (["/usr/lib/system.so"; "/home/user/my project/build/lib/bar.so"], true).
Proof.
  intros lines h.
  exact (getRuntimeDeps_report h
           (mkBuilderOptions "/home/user/my project" "libfuzzer" ["address"])
           "my_fuzz_test" lines eq_refl eq_refl).
Defined.

(** X24. The path of a dependency is made canonical before its status
    is looked at: a line that reports a dependency whose path cannot be
    made canonical makes [getRuntimeDeps] fail with that error, also
    when the status is [UNRESOLVED] or [CONFLICTING], for which the path
    would only go into a warning, and also when the status is none of
    the three. *)
Theorem getRuntimeDeps_canonical_first (h : DepsHost) (b : BuilderOptions)
    (fuzzTest : string) (before after : list string) (status dep : string) :
  cmakeInstall h (BuildDir b) ("cifuzz_internal_deps_" +:+ fuzzTest)
  = Some (before ++ depLine status dep :: after) →
  forallb (acceptedLine (CanonicalPath h)) before = true →
  ContainsRune status " " = false →
  CanonicalPath h dep = None →
  getRuntimeDeps h b fuzzTest = inr (CanonicalPathError dep).
Proof.
  intros Hrun Hbefore Hstatus Hdep. unfold getRuntimeDeps.
  rewrite Hrun, scanLines_app, scanLines_accepted by done.
  cbn [scanLines]. unfold depLine at 1 2. rewrite HasPrefix_app. cbn [negb].
  unfold TrimPrefix. rewrite CutPrefix_app. cbn [default from_option id].
  by rewrite cutAtSpace_app, Hdep.
Qed.

(** The theorem at a library that was not found and that does not
    exist under its name in the working directory either. *)
Lemma getRuntimeDeps_canonical_first_witness :
  let before := ["-- CIFUZZ RESOLVED /usr/lib/system.so"] in
  let h := mkDepsHost (λ _ _, Some (before ++ depLine "UNRESOLVED" "not_found.so" :: []))
             (λ path, if decide (path = "not_found.so") then None else Some path) in
  getRuntimeDeps h (mkBuilderOptions "/proj" "libfuzzer" []) "my_fuzz_test"
  = inr (CanonicalPathError "not_found.so").
Proof.
  intros before h.
  exact (getRuntimeDeps_canonical_first h (mkBuilderOptions "/proj" "libfuzzer" [])
           "my_fuzz_test" before [] "UNRESOLVED" "not_found.so"
           eq_refl eq_refl eq_refl eq_refl).
Defined.

(** [filepath.Join] of a clean path and plain elements puts slashes
    between them. *)
Lemma Filepath_Join_plain path elems :
  Filepath.cleanPath path = true → elems ≠ [] →
  forallb Filepath.plainElem elems = true →
  Filepath.Join (path :: elems) = path +:+ "/" +:+ Join elems "/".
Proof.
  intros (rooted & pelems & Hne & Hall & Hp)%cleanPath_elems Helems Hplain.
  assert (path ≠ "") as HpNe.
  { rewrite Hp. by apply append_nonempty_r, Join_plain_nonempty. }
  assert (filter (λ e, e ≠ "") elems = elems) as Hfilter.
  { clear Helems. induction elems as [|e elems IH]; [done|].
    cbn [forallb] in Hplain. apply andb_true_iff in Hplain as [(? & _)%plainElem_spec ?].
    rewrite filter_cons_True by done. by rewrite IH. }
  unfold Filepath.Join. rewrite filter_cons_True, Hfilter by done.
  assert (Join (path :: elems) "/"
          = (if rooted then "/" else "") +:+ Join (pelems ++ elems) "/") as Hjoin.
  { rewrite Join_cons, Join_app by done. rewrite Hp at 1. by rewrite append_assoc'. }
  rewrite Hjoin, Clean_plain.
  - by rewrite <-Hjoin, Join_cons.
  - by destruct pelems.
  - by rewrite forallb_app, Hall, Hplain.
Qed.

Lemma append_inj_l (a x y : string) : a +:+ x = a +:+ y → x = y.
Proof. induction a as [|c a IH]; [done|]. string_app. intros [= H]. by apply IH. Qed.

Lemma plainSanitizer_spec s :
  plainSanitizer s = true →
  Filepath.plainElem s = true ∧ s ≠ "" ∧ s ≠ "none"
  ∧ ContainsRune s "+" = false ∧ ContainsRune s "/" = false.
Proof.
  unfold plainSanitizer.
  rewrite !andb_true_iff, negb_true_iff, bool_decide_eq_true.
  intros [[Hplain ?] ?]. destruct (plainElem_spec _ Hplain) as (? & _ & _ & ?). done.
Qed.

Lemma ContainsRune_Join l sep c :
  Forall (λ e, ContainsRune e c = false) l → ContainsRune sep c = false →
  ContainsRune (Join l sep) c = false.
Proof.
  intros Hall Hsep. induction Hall as [|e l He _ IH]; [done|].
  destruct l as [|e' l]; [done|].
  rewrite Join_cons by done. by rewrite !ContainsRune_app, He, Hsep, IH.
Qed.

(** The last segment of the build directory for plain sanitizers: it
    is a plain path element, and the sanitizers can be read back from
    it. *)
Lemma sanitizersSegment_plain b :
  forallb plainSanitizer (Sanitizers b) = true →
  Filepath.plainElem (sanitizersSegment b) = true
  ∧ Sanitizers b
    = if decide (sanitizersSegment b = "none") then []
      else Split (sanitizersSegment b) "+".
Proof.
  unfold sanitizersSegment. intros Hall.
  assert (Forall (λ s, plainSanitizer s = true) (Sanitizers b)) as HF.
  { apply Forall_forall. intros x Hx.
    by apply (proj1 (forallb_forall _ _) Hall), list_elem_of_In. }
  destruct (Sanitizers b) as [|x l]; [done|].
  assert (Split (Join (x :: l) "+") "+" = x :: l) as Hsplit.
  { apply (Split_Join _ "+"); [done|]. eapply Forall_impl; [done|].
    by intros s (_ & _ & _ & ? & _)%plainSanitizer_spec. }
  inversion_clear HF as [|? ? Hx Hl].
  destruct (plainSanitizer_spec _ Hx) as (Hxplain & HxNe & HxNone & HxPlus & HxSlash).
  assert (Join (x :: l) "+" ≠ "") as HNe.
  { destruct l; [done|]. rewrite Join_cons by done. by destruct x. }
  assert (Join (x :: l) "+" ≠ "none") as HNone.
  { intros Heq. rewrite Heq in Hsplit. by injection Hsplit as <- <-. }
  rewrite !decide_False by done. split; [|done].
  destruct l as [|y l]; [done|].
  unfold Filepath.plainElem. apply andb_true_iff. split.
  - apply bool_decide_eq_true. split_and!; [done| |];
      intros Heq; rewrite Heq in Hsplit; by injection Hsplit as <- ?.
  - apply negb_true_iff, ContainsRune_Join; [|done].
    constructor; [done|]. eapply Forall_impl; [done|].
    by intros s (_ & _ & _ & _ & ?)%plainSanitizer_spec.
Qed.

Lemma BuildDir_plain_inj b1 b2 :
  plainOptions b1 = true → plainOptions b2 = true →
  ProjectDir b1 = ProjectDir b2 →
  BuildDir b1 = BuildDir b2 →
  Engine b1 = Engine b2 ∧ Sanitizers b1 = Sanitizers b2.
Proof.
  unfold plainOptions. rewrite !andb_true_iff.
  intros [[Hp1 He1] Hs1] [[Hp2 He2] Hs2] Hproject.
  destruct (sanitizersSegment_plain b1 Hs1) as [Hseg1 Hback1].
  destruct (sanitizersSegment_plain b2 Hs2) as [Hseg2 Hback2].
  change (BuildDir b1) with
    (Filepath.Join [ProjectDir b1; ".cifuzz-build"; Engine b1; sanitizersSegment b1]).
  change (BuildDir b2) with
    (Filepath.Join [ProjectDir b2; ".cifuzz-build"; Engine b2; sanitizersSegment b2]).
  rewrite !Filepath_Join_plain by (done || (cbn [forallb]; by rewrite ?He1, ?He2, ?Hseg1, ?Hseg2)).
  rewrite Hproject. intros Heq%append_inj_l%append_inj_l.
  cbn [Join] in Heq. apply append_inj_l, append_inj_l in Heq.
  destruct (plainElem_spec _ He1) as (_ & _ & _ & Hslash1).
  destruct (plainElem_spec _ He2) as (_ & _ & _ & Hslash2).
  assert (SplitN (Engine b1 +:+ "/" +:+ sanitizersSegment b1) "/" 2
          = SplitN (Engine b2 +:+ "/" +:+ sanitizersSegment b2) "/" 2) as Hsplit
    by (by rewrite Heq).
  rewrite !append_String, !append_empty in Hsplit.
  rewrite !SplitN_app, !SplitN_one in Hsplit by done.
  injection Hsplit as Hengine Hseg. split; [done|].
  by rewrite Hback1, Hback2, Hseg.
Qed.

(** X25. The build directory tells builds apart, which is what the
    source wants of it: for options with a clean project directory, an
    engine that is a plain path element, and sanitizers that are plain
    path elements without [+] and other than [none], two builds of one
    project that differ in the engine or in the sanitizers or their
    order have different build directories. *)
Theorem BuildDir_distinct (b1 b2 : BuilderOptions) :
  plainOptions b1 = true → plainOptions b2 = true →
  ProjectDir b1 = ProjectDir b2 →
  (Engine b1, Sanitizers b1) ≠ (Engine b2, Sanitizers b2) →
  BuildDir b1 ≠ BuildDir b2.
Proof.
  intros H1 H2 Hproject Hne Heq. apply Hne.
  destruct (BuildDir_plain_inj b1 b2 H1 H2 Hproject Heq) as [-> ->]. done.
Qed.

(** The theorem at two builds that differ in the order of the
    sanitizers. *)
Lemma BuildDir_distinct_witness :
  BuildDir (mkBuilderOptions "/proj" "libfuzzer" ["address"; "undefined"])
  ≠ BuildDir (mkBuilderOptions "/proj" "libfuzzer" ["undefined"; "address"]).
Proof.
  apply (BuildDir_distinct
           (mkBuilderOptions "/proj" "libfuzzer" ["address"; "undefined"])
           (mkBuilderOptions "/proj" "libfuzzer" ["undefined"; "address"]));
    [reflexivity..|]. cbn. intros [=].
Defined.

(** Without the condition on the names two builds can share a
    directory: no sanitizer at all and a sanitizer called [none]. *)
Example BuildDir_none_shared :
  BuildDir (mkBuilderOptions "/proj" "libfuzzer" [])
  = BuildDir (mkBuilderOptions "/proj" "libfuzzer" ["none"]).
Proof. reflexivity. Qed.

End CmakeMore.

(** *** The classpath of the Maven adapter *)
Section MavenClasspath.
Import GoStrings Maven.

Lemma is_space_byteOf c : Ascii.is_space c = true → byteOf c < 128.
Proof.
  destruct c as [[] [] [] [] [] [] [] []]; intros H; try discriminate H; by vm_compute.
Qed.

Lemma isSpace2_snd c d : Ascii.is_space d = true → isSpace2 c d = false.
Proof.
  intros H%is_space_byteOf. unfold isSpace2. apply not_true_is_false.
  rewrite andb_true_iff, orb_true_iff, !Z.eqb_eq. lia.
Qed.

Lemma isSpace3_snd c d e : Ascii.is_space d = true → isSpace3 c d e = false.
Proof.
  intros H%is_space_byteOf. unfold isSpace3. apply not_true_is_false.
  rewrite !orb_true_iff, !andb_true_iff, !orb_true_iff, !Z.eqb_eq. lia.
Qed.

Lemma isSpace3_thd c d e : Ascii.is_space e = true → isSpace3 c d e = false.
Proof.
  intros H%is_space_byteOf. unfold isSpace3. apply not_true_is_false.
  rewrite !orb_true_iff, !andb_true_iff, !orb_true_iff, !andb_true_iff,
    !Z.eqb_eq, !Z.leb_le. lia.
Qed.

Lemma TrimLeft_shorter : ∀ n s,
  (String.length s ≤ n)%nat → TrimLeft s = s ∨ (String.length (TrimLeft s) < String.length s)%nat.
Proof.
  induction n as [|n IH]; intros s Hn.
  { destruct s; [by left|simpl in Hn; lia]. }
  destruct s as [|c r]; [by left|]. simpl in Hn. cbn [TrimLeft].
  destruct (Ascii.is_space c).
  { right. destruct (IH r) as [->|?]; simpl; lia. }
  destruct r as [|d r1]; [by left|]. simpl in Hn.
  destruct (isSpace2 c d).
  { right. destruct (IH r1) as [->|?]; simpl; lia. }
  destruct r1 as [|e r2]; [by left|]. simpl in Hn.
  destruct (isSpace3 c d e); [|by left].
  right. destruct (IH r2) as [->|?]; simpl; lia.
Qed.

Lemma TrimRight_shorter s :
  TrimRight s = s ∨ (String.length (TrimRight s) < String.length s)%nat.
Proof.
  induction s as [|c r IH]; [by left|]. cbn [TrimRight].
  destruct (isSpaceRune _); [right; simpl; lia|].
  destruct IH as [->|?]; [by left|right; simpl; lia].
Qed.

Lemma TrimSpace_fixed s : TrimSpace s = s → TrimLeft s = s ∧ TrimRight s = s.
Proof.
  unfold TrimSpace. intros H.
  destruct (TrimLeft_shorter (String.length s) s) as [Hl|Hl]; [done| |].
  - rewrite Hl in H. by rewrite Hl.
  - exfalso. destruct (TrimRight_shorter (TrimLeft s)) as [Hr|Hr].
    + rewrite Hr in H. rewrite H in Hl. lia.
    + rewrite H in Hr. lia.
Qed.

Lemma TrimRight_onlySpace ws : onlySpace ws = true → TrimRight ws = "".
Proof.
  induction ws as [|c ws IH]; [done|]. simpl. intros [Hc Hws]%andb_true_iff.
  by rewrite IH, Hc.
Qed.

Lemma TrimLeft_onlySpace ws : onlySpace ws = true → TrimLeft ws = "".
Proof.
  induction ws as [|c ws IH]; [done|]. simpl. intros [Hc Hws]%andb_true_iff.
  rewrite Hc. by apply IH.
Qed.

Lemma TrimRight_app s ws : onlySpace ws = true → TrimRight (s +:+ ws) = TrimRight s.
Proof.
  intros Hws. induction s as [|c s IH]; [by apply TrimRight_onlySpace|].
  rewrite append_String. cbn [TrimRight]. by rewrite IH.
Qed.

Lemma TrimLeft_app s ws :
  s ≠ "" → TrimLeft s = s → onlySpace ws = true → TrimLeft (s +:+ ws) = s +:+ ws.
Proof.
  intros Hne Hs Hws. destruct s as [|c r]; [done|].
  assert (∀ t, (String.length t < String.length (String c r))%nat → TrimLeft t ≠ String c r)
    as Hshort.
  { intros t Ht Heq.
    destruct (TrimLeft_shorter (String.length t) t) as [Hl|Hl]; [done| |];
      rewrite Heq in *; [subst; lia|lia]. }
  rewrite append_String. cbn [TrimLeft] in Hs |- *.
  destruct (Ascii.is_space c). { exfalso. apply (Hshort r); [simpl; lia|done]. }
  destruct r as [|d r1].
  - rewrite append_empty. destruct ws as [|d' ws1]; [done|].
    simpl in Hws. apply andb_true_iff in Hws as [Hd' Hws1].
    rewrite isSpace2_snd by done. destruct ws1 as [|e' ws2]; [done|].
    by rewrite isSpace3_snd.
  - rewrite append_String.
    destruct (isSpace2 c d). { exfalso. apply (Hshort r1); [simpl; lia|done]. }
    destruct r1 as [|e r2].
    + rewrite append_empty. destruct ws as [|e' ws1]; [done|].
      simpl in Hws. apply andb_true_iff in Hws as [He' Hws1].
      by rewrite isSpace3_thd.
    + rewrite append_String.
      destruct (isSpace3 c d e); [|done].
      exfalso. apply (Hshort r2); [simpl; lia|done].
Qed.

Lemma TrimSpace_app s ws :
  TrimSpace s = s → onlySpace ws = true → TrimSpace (s +:+ ws) = s.
Proof.
  intros [Hl Hr]%TrimSpace_fixed Hws. unfold TrimSpace.
  destruct (decide (s = "")) as [->|Hne].
  - rewrite append_empty. by rewrite TrimLeft_onlySpace.
  - rewrite TrimLeft_app by done. by rewrite TrimRight_app.
Qed.
(** White space beyond ASCII is cut off as well, at both ends; a byte
    that only starts such a rune is not. *)
Example TrimSpace_unicode :
  TrimSpace (String "194" (String "160" ("/a.jar" +:+ String "226" (String "128" (String "168" "")))))
  = "/a.jar"
  ∧ TrimSpace (String "194" "/a.jar") = String "194" "/a.jar".
Proof. by vm_compute. Qed.

(** X26. The classpath that Maven writes is read back entry by entry:
    when the file holds the entries joined by colons and followed by
    ASCII white space only, no entry containing a colon and the joined
    entries neither starting nor ending with white space (that of
    [unicode.IsSpace], in UTF-8), then [getExternalDependencies] returns
    the entries, in order. *)
Theorem getExternalDependencies_classpath (h : Host) (b : BuilderOptions)
    (tempDir : string) (entries : list string) (ws : string) :
  MkdirTemp h = Some tempDir →
  is_Some (runMaven h b ["dependency:build-classpath";
                         "-Dmdep.outputFile=" +:+ Filepath.Join [tempDir; "cp"]]) →
  ReadFile h (Filepath.Join [tempDir; "cp"]) = Some (Join entries ":" +:+ ws) →
  onlySpace ws = true →
  entries ≠ [] →
  Forall (λ e, ContainsRune e ":" = false) entries →
  TrimSpace (Join entries ":") = Join entries ":" →
  getExternalDependencies h b = Some entries.
Proof.
  intros Htemp [out Hrun] Hread Hws Hne Hcolon Htrim.
  unfold getExternalDependencies. rewrite Htemp. cbn [mbind option_bind].
  rewrite Hrun. cbn [mbind option_bind]. rewrite Hread. cbn [mbind option_bind].
  rewrite TrimSpace_app by done. f_equal. by apply (Split_Join _ ":").
Qed.

(** The theorem at a classpath of two jars, one with a space in its
    path, written with a newline at the end. *)
Lemma getExternalDependencies_classpath_witness :
  let entries := ["/home/user/.m2/junit.jar"; "/home/user/my libs/jazzer.jar"] in
  let h := withEvalSymlinks exampleHost (λ path, Some path) in
  let h := mkHost (mvn h) (MkdirTemp h) (λ _, Some (Join entries ":" +:+ String "010" ""))
                  (parseXML h) (JazzerSeedCorpus h) (JazzerGeneratedCorpus h)
                  (EvalSymlinks h) in
  getExternalDependencies h exampleOptions = Some entries.
Proof.
  intros entries h0 h.
  apply (getExternalDependencies_classpath h exampleOptions
           "/tmp/cifuzz-maven-dependencies-1" entries (String "010" ""));
    try reflexivity; [by eexists|done|by repeat constructor].
Defined.

(** X27. A project without external dependencies: when the classpath
    file is empty or holds white space only, [getExternalDependencies]
    returns one dependency, the empty string, and not the empty list. *)
Theorem getExternalDependencies_empty (h : Host) (b : BuilderOptions)
    (tempDir : string) (ws : string) :
  MkdirTemp h = Some tempDir →
  is_Some (runMaven h b ["dependency:build-classpath";
                         "-Dmdep.outputFile=" +:+ Filepath.Join [tempDir; "cp"]]) →
  ReadFile h (Filepath.Join [tempDir; "cp"]) = Some ws →
  onlySpace ws = true →
  getExternalDependencies h b = Some [""].
Proof.
  intros Htemp [out Hrun] Hread Hws.
  unfold getExternalDependencies. rewrite Htemp. cbn [mbind option_bind].
  rewrite Hrun. cbn [mbind option_bind]. rewrite Hread. cbn [mbind option_bind].
  unfold TrimSpace. by rewrite TrimLeft_onlySpace.
Qed.

(** The theorem at a classpath file that holds a newline. *)
Lemma getExternalDependencies_empty_witness :
  let h := mkHost (mvn exampleHost) (MkdirTemp exampleHost) (λ _, Some (String "010" ""))
                  (parseXML exampleHost) (JazzerSeedCorpus exampleHost)
                  (JazzerGeneratedCorpus exampleHost) (EvalSymlinks exampleHost) in
  getExternalDependencies h exampleOptions = Some [""].
Proof.
  intros h.
  apply (getExternalDependencies_empty h exampleOptions
           "/tmp/cifuzz-maven-dependencies-1" (String "010" ""));
    try reflexivity. by eexists.
Defined.

End MavenClasspath.
